(** * Verification model of pmtiles2 (PMTiles v3 reader and writer)

    Shallow embedding of the Rust crate: tile-id mapping ([util/tile_id.rs]),
    directory codec ([directory.rs]), header codec ([header/]), directory
    walker ([util/read_directories.rs]), root/leaf splitter
    ([util/write_directories.rs]) and the tile manager ([tile_manager.rs]).

    Conventions.  Fixed-width integers are [Z] values; wrap-around of [u64],
    [u32] and [usize] arithmetic is written out with [u64], [u32] below,
    i.e. the crate is modelled as compiled in release mode (overflow wraps;
    a debug build panics at the same places).  Bytes are [Z] values in
    [0, 256).  Errors of [std::io::Result] are the constructors of
    [io_error]. *)

From Stdlib Require Import ZArith Lia Floats.
From stdpp Require Import base gmap sets list sorting.

Open Scope Z_scope.
Set Warnings "-inexact-float".


(* ------------------------------------------------------------------ *)
(** ** Machine integers and results *)

Definition u64 (v : Z) : Z := v mod 2 ^ 64.
Definition u32 (v : Z) : Z := v mod 2 ^ 32.

(** [Result<A, E>], with the error type first so that [result E] is a
    monad. *)
Inductive result (E A : Type) : Type :=
| Ok (a : A)
| Err (e : E).
Arguments Ok {E A} a.
Arguments Err {E A} e.

Definition result_bind {E A B} (k : A -> result E B) (r : result E A)
  : result E B :=
  match r with
  | Ok a => k a
  | Err e => Err e
  end.

(** Rust's [?] operator is stdpp's [x ← r; k]. *)
Global Instance result_mbind E : MBind (result E) :=
  fun A B k r => result_bind k r.

Lemma bind_ok {E A B} (r : result E A) (k : A -> result E B) b :
  (x ← r; k x) = Ok b -> exists a, r = Ok a /\ k a = Ok b.
Proof. destruct r; simpl; [eauto | discriminate]. Qed.

Lemma u64_small (v : Z) : 0 <= v < 2 ^ 64 -> u64 v = v.
Proof. intros H. unfold u64. apply Z.mod_small. exact H. Qed.

Lemma u64_range (v : Z) : 0 <= u64 v < 2 ^ 64.
Proof. unfold u64. apply Z.mod_pos_bound. lia. Qed.

Lemma u32_range (v : Z) : 0 <= u32 v < 2 ^ 32.
Proof. unfold u32. apply Z.mod_pos_bound. lia. Qed.

(** The kinds of [std::io::Error] the crate produces. *)
Inductive io_error : Type :=
| UnexpectedEof          (* read past the end, truncated varint *)
| UnterminatedVarint     (* more continuation bytes than the type allows *)
| UnknownCompression     (* [Compression::Unknown] in compress/decompress *)
| CodecError             (* error reported by an external (de)compressor *)
| DekuParse              (* header: bad magic, version, enum tag, bool *)
| ChunkSizeZero          (* [slice::chunks(0)] panics *)
| RecursionLimit         (* the recursive walk ran out of stack *)
| OutOfFuel.             (* a loop ran longer than the fuel it was given *)

(* ------------------------------------------------------------------ *)
(** ** Tile ids ([src/util/tile_id.rs]) *)

Module TileId.

(** The discrete Hilbert index of the [hilbert_2d] crate, variant
  [Variant::Hilbert], on a [2^order x 2^order] grid.  It is the canonical
  curve of the reference implementation: the quadrant of the top bit is
  numbered [(0,0) -> 0, (0,1) -> 1, (1,1) -> 2, (1,0) -> 3] and the lower
  order curve is rotated/reflected inside it.  The repository's test
  vectors ([test_tile_id], [test_xyz]) are checked below. *)

(** Rotation of a sub-square of side [s] (the [rot] step of the curve). *)
Definition rot (s x y rx ry : Z) : Z * Z :=
if ry =? 0 then
  if rx =? 1 then (s - 1 - y, s - 1 - x) else (y, x)
else (x, y).

(** Quadrant number of the top bits [(rx, ry)]. *)
Definition quad (rx ry : Z) : Z := Z.lxor (3 * rx) ry.

(** [hilbert_2d::xy2h_discrete(x, y, order, Variant::Hilbert)] *)
Fixpoint xy2h_discrete (order : nat) (x y : Z) : Z :=
match order with
| O => 0
| S k =>
    let s := 2 ^ Z.of_nat k in
    let rx := x / s in
    let ry := y / s in
    let '(x', y') := rot s (x mod s) (y mod s) rx ry in
    s * s * quad rx ry + xy2h_discrete k x' y'
end.

(** [hilbert_2d::h2xy_discrete(h, order, Variant::Hilbert)] *)
Fixpoint h2xy_discrete (order : nat) (h : Z) : Z * Z :=
match order with
| O => (0, 0)
| S k =>
    let s := 2 ^ Z.of_nat k in
    let '(a, b) := h2xy_discrete k (h mod (s * s)) in
    let t := h / (s * s) in
    let rx := Z.land 1 (t / 2) in
    let ry := Z.land 1 (Z.lxor t rx) in
    let '(a', b') := rot s a b rx ry in
    (a' + s * rx, b' + s * ry)
end.

Definition MAX_Z : Z := 32.

Inductive MaxZError : Type := MkMaxZError.

(** [(1..z).map(|i| 4u64.pow(u32::from(i))).sum::<u64>()] *)
Fixpoint pow4_sum (k : nat) : Z :=
match k with
| O => 0
| S k' => u64 (pow4_sum k' + u64 (4 ^ Z.of_nat (S k')))
end.

(** [1 + (1..z).map(..).sum()] *)
Definition base_id (z : Z) : Z := u64 (1 + pow4_sum (Z.to_nat (z - 1))).

(** [pub fn tile_id(z: u8, x: u64, y: u64) -> u64] *)
Definition tile_id (z x y : Z) : Z :=
if z =? 0 then 0
else u64 (base_id z + xy2h_discrete (Z.to_nat z) x y).

(** The [for i in 1u8..MAX_Z] loop of [find_z]: [k] iterations left,
  current [i] and accumulator [acc]; returns the final [z]. *)
Fixpoint find_z_loop (k : nat) (i acc tile_id z : Z) : Z :=
match k with
| O => z
| S k' =>
    let num_tiles := u64 (4 ^ i) in
    let acc := u64 (acc + num_tiles) in
    if acc >? tile_id then i
    else find_z_loop k' (i + 1) acc tile_id z
end.

(** [fn find_z(tile_id: u64) -> Result<u8, MaxZError>] *)
Definition find_z (tile_id : Z) : result MaxZError Z :=
let z := find_z_loop (Z.to_nat (MAX_Z - 1)) 1 1 tile_id 0 in
if z =? 0 then Err MkMaxZError else Ok z.

(** [pub fn zxy(tile_id: u64) -> Result<(u8, u64, u64), MaxZError>] *)
Definition zxy (tile_id : Z) : result MaxZError (Z * Z * Z) :=
if tile_id =? 0 then Ok (0, 0, 0)
else
  z ← find_z tile_id;
  let base := base_id z in
  let '(x, y) := h2xy_discrete (Z.to_nat z) (u64 (tile_id - base)) in
  Ok (z, x, y).

(** Test vectors of [test_tile_id] and [test_xyz]. *)
Example tile_id_tests :
map (fun '(z, x, y) => tile_id z x y)
    [(0,0,0); (1,0,0); (1,0,1); (1,1,1); (1,1,0); (2,0,0)]
= [0; 1; 2; 3; 4; 5].
Proof. reflexivity. Qed.

Example zxy_tests :
map zxy [0; 1; 2; 3; 4; 5; 19078479]
= [Ok (0,0,0); Ok (1,0,0); Ok (1,0,1); Ok (1,1,1); Ok (1,1,0); Ok (2,0,0);
   Ok (12,3423,1763)].
Proof. vm_compute. reflexivity. Qed.

(** *** Lemmas on the Hilbert mapping *)

Lemma rot_range s a b rx ry :
0 <= a < s -> 0 <= b < s ->
let '(a', b') := rot s a b rx ry in 0 <= a' < s /\ 0 <= b' < s.
Proof.
intros Ha Hb; unfold rot.
destruct (ry =? 0); [destruct (rx =? 1)|]; lia.
Qed.

Lemma rot_involutive s a b rx ry :
let '(a', b') := rot s a b rx ry in rot s a' b' rx ry = (a, b).
Proof.
unfold rot.
destruct (ry =? 0) eqn:E1; [destruct (rx =? 1) eqn:E2|];
  rewrite ?E1, ?E2; f_equal; lia.
Qed.

(** The four quadrant numbers. *)
Lemma quad00 : quad 0 0 = 0. Proof. reflexivity. Qed.
Lemma quad01 : quad 0 1 = 1. Proof. reflexivity. Qed.
Lemma quad11 : quad 1 1 = 2. Proof. reflexivity. Qed.
Lemma quad10 : quad 1 0 = 3. Proof. reflexivity. Qed.
Ltac quad_eval := rewrite ?quad00, ?quad01, ?quad11, ?quad10.

Lemma pow2_succ (k : nat) : 2 ^ Z.of_nat (S k) = 2 * 2 ^ Z.of_nat k.
Proof. rewrite Nat2Z.inj_succ, Z.pow_succ_r; lia. Qed.

Lemma pow2_pos (k : nat) : 0 < 2 ^ Z.of_nat k.
Proof. apply Z.pow_pos_nonneg; lia. Qed.

Lemma top_bit x s : 0 < s -> 0 <= x < 2 * s -> x / s = 0 \/ x / s = 1.
Proof.
intros Hs Hx.
assert (0 <= x / s < 2).
{ split; [apply Z.div_pos; lia | apply Z.div_lt_upper_bound; lia]. }
lia.
Qed.

Lemma xy2h_range (n : nat) x y :
0 <= x < 2 ^ Z.of_nat n -> 0 <= y < 2 ^ Z.of_nat n ->
0 <= xy2h_discrete n x y < 2 ^ Z.of_nat n * 2 ^ Z.of_nat n.
Proof.
revert x y; induction n as [|k IH]; intros x y Hx Hy; simpl xy2h_discrete.
- simpl; lia.
- rewrite pow2_succ in *.
  pose proof (pow2_pos k) as Hs.
  set (s := 2 ^ Z.of_nat k) in *.
  pose proof (Z.mod_pos_bound x s Hs).
  pose proof (Z.mod_pos_bound y s Hs).
  pose proof (rot_range s (x mod s) (y mod s) (x / s) (y / s)) as Hr.
  destruct (rot s (x mod s) (y mod s) (x / s) (y / s)) as [x' y'].
  destruct Hr as [Hx' Hy']; [lia | lia |].
  specialize (IH x' y' Hx' Hy').
  assert (0 <= quad (x / s) (y / s) <= 3).
  { destruct (top_bit x s Hs Hx) as [-> | ->];
      destruct (top_bit y s Hs Hy) as [-> | ->]; quad_eval; lia. }
  nia.
Qed.

Lemma h2xy_xy2h (n : nat) x y :
0 <= x < 2 ^ Z.of_nat n -> 0 <= y < 2 ^ Z.of_nat n ->
h2xy_discrete n (xy2h_discrete n x y) = (x, y).
Proof.
revert x y; induction n as [|k IH]; intros x y Hx Hy.
- simpl in *; f_equal; lia.
- simpl xy2h_discrete; simpl h2xy_discrete.
  rewrite pow2_succ in *.
  pose proof (pow2_pos k) as Hs.
  set (s := 2 ^ Z.of_nat k) in *.
  pose proof (Z.mod_pos_bound x s Hs).
  pose proof (Z.mod_pos_bound y s Hs).
  pose proof (Z.div_mod x s ltac:(lia)).
  pose proof (Z.div_mod y s ltac:(lia)).
  pose proof (rot_range s (x mod s) (y mod s) (x / s) (y / s)) as Hr.
  pose proof (rot_involutive s (x mod s) (y mod s) (x / s) (y / s)) as Hi.
  destruct (rot s (x mod s) (y mod s) (x / s) (y / s)) as [x' y'].
  destruct Hr as [Hx' Hy']; [lia | lia |].
  pose proof (xy2h_range k x' y' Hx' Hy') as Hb.
  fold s in Hb.
  assert (Hq : 0 <= quad (x / s) (y / s) < 4 /\
               Z.land 1 (quad (x / s) (y / s) / 2) = x / s /\
               Z.land 1 (Z.lxor (quad (x / s) (y / s))
                                (Z.land 1 (quad (x / s) (y / s) / 2)))
               = y / s).
  { destruct (top_bit x s Hs Hx) as [-> | ->];
      destruct (top_bit y s Hs Hy) as [-> | ->];
      quad_eval; (split; [lia | split; reflexivity]). }
  destruct Hq as (Hq & Hrx & Hry).
  set (q := quad (x / s) (y / s)) in *.
  set (r := xy2h_discrete k x' y') in *.
  assert (Hm : (s * s * q + r) mod (s * s) = r).
  { replace (s * s * q + r) with (r + q * (s * s)) by ring.
    rewrite Z.mod_add by nia. apply Z.mod_small; lia. }
  assert (Hd : (s * s * q + r) / (s * s) = q).
  { replace (s * s * q + r) with (r + q * (s * s)) by ring.
    rewrite Z.div_add by nia. rewrite Z.div_small by lia; lia. }
  rewrite Hm, Hd, Hry, Hrx.
  unfold r; rewrite IH by assumption.
  rewrite Hi.
  f_equal; lia.
Qed.

(** *** Lemmas on [base_id] and [find_z] *)

(** Number of tile ids below zoom [z]: [(4^z - 1) / 3]. *)
Definition B (z : Z) : Z := (4 ^ z - 1) / 3.

Lemma pow4_bound (i : Z) : 0 <= i <= 31 -> 1 <= 4 ^ i <= 4611686018427387904.
Proof.
intros Hi; split.
- assert (0 < 4 ^ i) by (apply Z.pow_pos_nonneg; lia); lia.
- change 4611686018427387904 with (4 ^ 31). apply Z.pow_le_mono_r; lia.
Qed.

Lemma B_succ (z : Z) : 0 <= z -> B (z + 1) = B z + 4 ^ z.
Proof.
intros Hz; unfold B.
rewrite Z.pow_add_r, Z.pow_1_r by lia.
assert (Hm : (4 ^ z - 1) mod 3 = 0).
{ assert (H4 : 4 ^ z mod 3 = 1).
  { pattern z; apply natlike_ind; [reflexivity| |lia].
    intros w Hw IH. rewrite Z.pow_succ_r by lia.
    rewrite Z.mul_mod, IH by lia. reflexivity. }
  rewrite Zminus_mod, H4. reflexivity. }
pose proof (Z.div_mod (4 ^ z - 1) 3 ltac:(lia)) as Hd.
rewrite Hm in Hd.
replace (4 ^ z * 4 - 1) with ((4 ^ z - 1) / 3 * 3 + 4 ^ z * 3) by lia.
rewrite Z.div_add by lia. rewrite Z.div_mul by lia. lia.
Qed.

Lemma B_mono (a b : Z) : 0 <= a <= b -> B a <= B b.
Proof.
intros H; unfold B.
apply Z.div_le_mono; [lia|].
assert (4 ^ a <= 4 ^ b) by (apply Z.pow_le_mono_r; lia); lia.
Qed.

Lemma B_32 : B 32 = 6148914691236517205.
Proof. reflexivity. Qed.

Lemma pow4_sum_B (k : nat) : (k <= 31)%nat -> pow4_sum k = B (Z.of_nat k + 1) - 1.
Proof.
induction k as [|k IH]; intros Hk.
- reflexivity.
- simpl pow4_sum. rewrite IH by lia.
  replace (Z.of_nat (S k) + 1) with ((Z.of_nat k + 1) + 1) by lia.
  replace (Z.of_nat (S k)) with (Z.of_nat k + 1) by lia.
  pose proof (B_mono (Z.of_nat k + 1 + 1) 32 ltac:(lia)) as Hb.
  pose proof (B_mono 0 (Z.of_nat k + 1) ltac:(lia)) as Hb0.
  rewrite (B_succ (Z.of_nat k + 1)) in Hb |- * by lia.
  pose proof (pow4_bound (Z.of_nat k + 1) ltac:(lia)).
  rewrite B_32 in Hb. change (B 0) with 0 in Hb0.
  set (P := 4 ^ (Z.of_nat k + 1)) in *.
  unfold u64; rewrite (Z.mod_small P) by lia.
  rewrite Z.mod_small; lia.
Qed.

Lemma base_id_B (z : Z) : 1 <= z <= 32 -> base_id z = B z.
Proof.
intros Hz; unfold base_id.
rewrite pow4_sum_B by lia.
rewrite Z2Nat.id by lia.
replace (z - 1 + 1) with z by lia.
pose proof (B_mono 1 z ltac:(lia)).
pose proof (B_mono z 32 ltac:(lia)).
rewrite B_32 in *. change (B 1) with 1 in *.
unfold u64; rewrite Z.mod_small; lia.
Qed.

Lemma B_1 : B 1 = 1. Proof. reflexivity. Qed.

(** One iteration of the [find_z] loop moves the accumulator from [B i] to
  [B (i + 1)] without wrapping. *)
Lemma find_z_acc_step (i : Z) :
1 <= i <= 31 -> u64 (B i + u64 (4 ^ i)) = B (i + 1).
Proof.
intros Hi.
pose proof (pow4_bound i ltac:(lia)).
pose proof (B_mono (i + 1) 32 ltac:(lia)) as Hb.
pose proof (B_mono 0 i ltac:(lia)) as Hb0.
rewrite B_succ in * by lia. rewrite B_32 in Hb. change (B 0) with 0 in Hb0.
unfold u64; rewrite (Z.mod_small (4 ^ i)) by lia.
rewrite Z.mod_small; lia.
Qed.

Lemma find_z_loop_zero (k : nat) (i t : Z) :
1 <= i -> i + Z.of_nat k <= 32 -> B i <= t ->
find_z_loop k i (B i) t 0 = 0 <-> B (i + Z.of_nat k) <= t.
Proof.
revert i; induction k as [|k IH]; intros i Hi Hk Ht.
- simpl. rewrite Z.add_0_r. tauto.
- simpl find_z_loop. rewrite find_z_acc_step by lia.
  rewrite Z.gtb_ltb; destruct (Z.ltb_spec t (B (i + 1))) as [E|E].
  +
    pose proof (B_mono (i + 1) (i + Z.of_nat (S k)) ltac:(lia)).
    split; intros; lia.
  +
    rewrite IH by lia.
    replace (i + 1 + Z.of_nat k) with (i + Z.of_nat (S k)) by lia.
    tauto.
Qed.

Lemma find_z_loop_found (k : nat) (i z t : Z) :
1 <= i <= z -> z < i + Z.of_nat k -> i + Z.of_nat k <= 32 ->
B i <= t -> B z <= t < B (z + 1) ->
find_z_loop k i (B i) t 0 = z.
Proof.
revert i; induction k as [|k IH]; intros i Hi Hz Hk Hit Ht.
- lia.
- simpl find_z_loop. rewrite find_z_acc_step by lia.
  rewrite Z.gtb_ltb; destruct (Z.ltb_spec t (B (i + 1))) as [E|E].
  +
    destruct (Z.eq_dec z i) as [->|Hne]; [reflexivity|].
    pose proof (B_mono (i + 1) z ltac:(lia)); lia.
  +
    destruct (Z.eq_dec z i) as [->|Hne]; [lia|].
    apply IH; lia.
Qed.

Lemma pow2_sq (z : Z) : 0 <= z -> 2 ^ z * 2 ^ z = 4 ^ z.
Proof. intros Hz. rewrite <- Z.pow_mul_l. reflexivity. Qed.

End TileId.

(* ------------------------------------------------------------------ *)
(** ** Compression ([src/header/compression.rs], [src/util/compress.rs]) *)

Module Compression.
Inductive t : Type := Unknown | None | GZip | Brotli | ZStd.

Definition to_u8 (c : t) : Z :=
  match c with Unknown => 0 | None => 1 | GZip => 2 | Brotli => 3 | ZStd => 4 end.

Definition of_u8 (b : Z) : option t :=
  if b =? 0 then Some Unknown else if b =? 1 then Some None
  else if b =? 2 then Some GZip else if b =? 3 then Some Brotli
  else if b =? 4 then Some ZStd else Datatypes.None.
End Compression.

(** An external codec (flate2, brotli, zstd), seen through the whole byte
    stream it writes and the byte stream its decoder yields. *)
Record Codec : Type := {
  cencode : list Z -> list Z;
  cdecode : list Z -> result io_error (list Z)
}.

Section Compress.
(** The codecs of the external crates, for [GZip], [Brotli], [ZStd]. *)
Variable cx : Compression.t -> Codec.

(** [compress]: [Unknown] fails, [None] writes through. *)
Definition compress (c : Compression.t) (data : list Z)
  : result io_error (list Z) :=
  match c with
  | Compression.Unknown => Err UnknownCompression
  | Compression.None => Ok data
  | _ => Ok (cencode (cx c) data)
  end.

(** [decompress]: [Unknown] fails, [None] reads through. *)
Definition decompress (c : Compression.t) (data : list Z)
  : result io_error (list Z) :=
  match c with
  | Compression.Unknown => Err UnknownCompression
  | Compression.None => Ok data
  | _ => cdecode (cx c) data
  end.
End Compress.

(* ------------------------------------------------------------------ *)
(** ** LEB128 varints (crate [integer_encoding], [VarIntReader] and
    [VarIntWriter]) *)

Module Varint.
(** [VarIntProcessor] and [u64::decode_var] fused: at most [maxsize]
    bytes ([10] for [u64]/[usize], [5] for [u32]), end of input inside a
    varint is [UnexpectedEof], one more continuation byte is
    [UnterminatedVarint]. *)
Fixpoint rv_loop (maxsize i : nat) (acc : Z) (bs : list Z)
  : result io_error (Z * list Z) :=
  match bs with
  | [] => Err UnexpectedEof
  | b :: rest =>
      if (maxsize <=? i)%nat then Err UnterminatedVarint
      else
        let acc' := Z.lor acc (Z.shiftl (Z.land b 127) (7 * Z.of_nat i)) in
        if b <? 128 then Ok (acc', rest)
        else rv_loop maxsize (S i) acc' rest
  end.

(** [read_varint::<u64>] and [read_varint::<usize>] (64-bit target). *)
Definition read_varint_u64 (bs : list Z) : result io_error (Z * list Z) :=
  '(v, rest) ← rv_loop 10 0 0 bs; Ok (u64 v, rest).

(** [read_varint::<u32>]: decoded as [u64], then [as u32]. *)
Definition read_varint_u32 (bs : list Z) : result io_error (Z * list Z) :=
  '(v, rest) ← rv_loop 5 0 0 bs; Ok (u32 (u64 v), rest).

(** [u64::encode_var]: [MSB | (n as u8)] while [n >= 0x80], then [n]. *)
Fixpoint enc_loop (fuel : nat) (n : Z) : list Z :=
  match fuel with
  | O => [n]
  | S f =>
      if 128 <=? n then Z.lor 128 (n mod 256) :: enc_loop f (Z.shiftr n 7)
      else [n]
  end.

Definition write_varint (n : Z) : list Z := enc_loop 10 n.
End Varint.

(* ------------------------------------------------------------------ *)
(** ** Directories ([src/directory.rs]) *)

Module Directory.
Import Varint.

Record Entry : Type := {
  tile_id : Z;      (* u64 *)
  offset : Z;       (* u64 *)
  length : Z;       (* u32 *)
  run_length : Z    (* u32 *)
}.

Definition is_leaf_dir_entry (e : Entry) : bool := run_length e =? 0.

(** Reading the tile id column: [last_id += tmp]. *)
Fixpoint read_ids (k : nat) (last_id : Z) (bs : list Z)
  : result io_error (list Z * list Z) :=
  match k with
  | O => Ok ([], bs)
  | S k' =>
      '(tmp, bs1) ← read_varint_u64 bs;
      let id := u64 (last_id + tmp) in
      '(ids, bs2) ← read_ids k' id bs1;
      Ok (id :: ids, bs2)
  end.

(** Reading the run length and length columns. *)
Fixpoint read_u32s (k : nat) (bs : list Z)
  : result io_error (list Z * list Z) :=
  match k with
  | O => Ok ([], bs)
  | S k' =>
      '(v, bs1) ← read_varint_u32 bs;
      '(vs, bs2) ← read_u32s k' bs1;
      Ok (v :: vs, bs2)
  end.

(** Reading the offset column; [prev] is [(offset, length)] of entry
    [i - 1], absent for [i = 0]. *)
Fixpoint read_offsets (prev : option (Z * Z)) (lens : list Z) (bs : list Z)
  : result io_error (list Z * list Z) :=
  match lens with
  | [] => Ok ([], bs)
  | l :: lens' =>
      '(val, bs1) ← read_varint_u64 bs;
      let off :=
        match prev with
        | Some (po, pl) => if val =? 0 then u64 (po + pl) else u64 (val - 1)
        | Datatypes.None => u64 (val - 1)
        end in
      '(offs, bs2) ← read_offsets (Some (off, l)) lens' bs1;
      Ok (off :: offs, bs2)
  end.

Fixpoint mk_entries (ids rls lens offs : list Z) : list Entry :=
  match ids, rls, lens, offs with
  | i :: ids', r :: rls', l :: lens', o :: offs' =>
      {| tile_id := i; offset := o; length := l; run_length := r |}
        :: mk_entries ids' rls' lens' offs'
  | _, _, _, _ => []
  end.

(** The decompressed directory stream. *)
Definition parse_directory (bs : list Z) : result io_error (list Entry) :=
  '(n, bs1) ← read_varint_u64 bs;
  '(ids, bs2) ← read_ids (Z.to_nat n) 0 bs1;
  '(rls, bs3) ← read_u32s (Z.to_nat n) bs2;
  '(lens, bs4) ← read_u32s (Z.to_nat n) bs3;
  '(offs, _) ← read_offsets Datatypes.None lens bs4;
  Ok (mk_entries ids rls lens offs).

(** [Directory::from_reader_impl]: [input.take(length)], decompress,
    parse.  [input] is what the reader yields from its position on. *)
Definition from_reader_impl (cx : Compression.t -> Codec) (input : list Z)
  (len : Z) (c : Compression.t) : result io_error (list Entry) :=
  d ← decompress cx c (take (Z.to_nat len) input);
  parse_directory d.

Fixpoint write_ids (last_id : Z) (es : list Entry) : list Z :=
  match es with
  | [] => []
  | e :: es' => write_varint (u64 (tile_id e - last_id)) ++ write_ids (tile_id e) es'
  end.

(** The offset column; [first] is [index == 0]. *)
Fixpoint write_offsets (first : bool) (next_byte : Z) (es : list Entry) : list Z :=
  match es with
  | [] => []
  | e :: es' =>
      let val := if negb first && (offset e =? next_byte) then 0
                 else u64 (offset e + 1) in
      write_varint val ++ write_offsets false (u64 (offset e + length e)) es'
  end.

(** The uncompressed stream written by [to_writer_impl]. *)
Definition raw_directory (es : list Entry) : list Z :=
  write_varint (Z.of_nat (List.length es)) ++ write_ids 0 es
  ++ List.concat (map (fun e => write_varint (run_length e)) es)
  ++ List.concat (map (fun e => write_varint (length e)) es)
  ++ write_offsets true 0 es.

(** [Directory::to_writer_impl]: the bytes written to [output]. *)
Definition to_writer_impl (cx : Compression.t -> Codec) (es : list Entry)
  (c : Compression.t) : result io_error (list Z) :=
  compress cx c (raw_directory es).

(** The field types of [Entry]: [u64], [u64], [u32], [u32]. *)
Definition entry_in_range (e : Entry) : bool :=
  (0 <=? tile_id e) && (tile_id e <? 2 ^ 64) && (0 <=? offset e) && (offset e <? 2 ^ 64)
  && (0 <=? length e) && (length e <? 2 ^ 32)
  && (0 <=? run_length e) && (run_length e <? 2 ^ 32).

(** Offsets the offset column can carry: an entry after the first whose
    offset is [u64::MAX] must start where its predecessor ends (any
    other [u64::MAX] would be written as [offset + 1 = 0], the
    contiguity sentinel).  Over [(offset, length)] pairs. *)
Fixpoint offsets_encodable_from (prev : option (Z * Z)) (ol : list (Z * Z)) : bool :=
  match ol with
  | [] => true
  | (o, l) :: ol' =>
      match prev with
      | Some (po, pl) => negb (o =? 2 ^ 64 - 1) || (o =? u64 (po + pl))
      | Datatypes.None => true
      end && offsets_encodable_from (Some (o, l)) ol'
  end.

Definition offsets_encodable (es : list Entry) : bool :=
  offsets_encodable_from Datatypes.None (map (fun e => (offset e, length e)) es).
End Directory.

(** A codec whose encoder and decoder are the identity. *)
Definition passthrough_codecs : Compression.t -> Codec :=
  fun _ => {| cencode := fun s => s; cdecode := fun s => Ok s |}.

(* ------------------------------------------------------------------ *)
(** ** Header ([src/header/]) *)

Module TileType.
Inductive t : Type := Unknown | Mvt | Png | Jpeg | WebP.

Definition to_u8 (x : t) : Z :=
  match x with Unknown => 0 | Mvt => 1 | Png => 2 | Jpeg => 3 | WebP => 4 end.

Definition of_u8 (b : Z) : option t :=
  if b =? 0 then Some Unknown else if b =? 1 then Some Mvt
  else if b =? 2 then Some Png else if b =? 3 then Some Jpeg
  else if b =? 4 then Some WebP else Datatypes.None.
End TileType.

Module Header.
Local Open Scope float_scope.

Record LatLng : Type := {
  longitude : float;
  latitude : float
}.

Definition LAT_LONG_FACTOR : float := 10000000.

(** [f64 as i32]: truncation toward zero, saturating, [NaN] to [0]. *)
Definition f64_as_i32 (f : float) : Z :=
  match Prim2SF f with
  | S754_zero _ => 0
  | S754_nan => 0
  | S754_infinity s => if s then - 2 ^ 31 else 2 ^ 31 - 1
  | S754_finite s m e =>
      let a := if (0 <=? e)%Z then (Z.pos m * 2 ^ e)%Z else (Z.pos m / 2 ^ (- e))%Z in
      let v := if s then (- a)%Z else a in
      Z.max (- 2 ^ 31) (Z.min (2 ^ 31 - 1) v)
  end.

(** [f64::from(i32)], exact. *)
Definition f64_from_i32 (v : Z) : float :=
  if (v <? 0)%Z then - of_uint63 (Uint63.of_Z (- v)) else of_uint63 (Uint63.of_Z v).

(** Little-endian bytes of a [k]-byte unsigned value, and back. *)
Fixpoint le_bytes (k : nat) (v : Z) : list Z :=
  match k with
  | O => []
  | S k' => (v mod 256)%Z :: le_bytes k' (v / 256)%Z
  end.

Fixpoint from_le (bs : list Z) : Z :=
  match bs with
  | [] => 0%Z
  | b :: bs' => (b + 256 * from_le bs')%Z
  end.

(** [LatLng::write_lat_lon]: [(field * LAT_LONG_FACTOR) as i32], four
    bytes in two's complement. *)
Definition write_lat_lon (field : float) : list Z :=
  le_bytes 4 (f64_as_i32 (field * LAT_LONG_FACTOR) mod 2 ^ 32)%Z.

Definition i32_of_u32 (u : Z) : Z := if (2 ^ 31 <=? u)%Z then (u - 2 ^ 32)%Z else u.

(** [LatLng::read_lat_lon] on a four-byte slice. *)
Definition read_lat_lon (bs : list Z) : float :=
  f64_from_i32 (i32_of_u32 (from_le bs)) / LAT_LONG_FACTOR.

Definition write_lat_lng (p : LatLng) : list Z :=
  write_lat_lon (longitude p) ++ write_lat_lon (latitude p).

Record Header : Type := {
  spec_version : Z;
  root_directory_offset : Z;
  root_directory_length : Z;
  json_metadata_offset : Z;
  json_metadata_length : Z;
  leaf_directories_offset : Z;
  leaf_directories_length : Z;
  tile_data_offset : Z;
  tile_data_length : Z;
  num_addressed_tiles : Z;
  num_tile_entries : Z;
  num_tile_content : Z;
  clustered : bool;
  internal_compression : Compression.t;
  tile_compression : Compression.t;
  tile_type : TileType.t;
  min_zoom : Z;
  max_zoom : Z;
  min_pos : LatLng;
  max_pos : LatLng;
  center_zoom : Z;
  center_pos : LatLng
}.

Definition HEADER_BYTES : nat := 127.

(** [b"PMTiles"]. *)
Definition magic : list Z := [80; 77; 84; 105; 108; 101; 115]%Z.

Definition u64_fields (h : Header) : list Z :=
  [root_directory_offset h; root_directory_length h; json_metadata_offset h;
   json_metadata_length h; leaf_directories_offset h; leaf_directories_length h;
   tile_data_offset h; tile_data_length h; num_addressed_tiles h;
   num_tile_entries h; num_tile_content h].

(** [Header::to_writer]: the deku layout; [assert_eq = "3"] is also
    checked when writing. *)
Definition to_writer (h : Header) : result io_error (list Z) :=
  if negb (spec_version h =? 3)%Z then Err DekuParse
  else Ok (magic ++ [spec_version h]
           ++ List.concat (map (le_bytes 8) (u64_fields h))
           ++ [if clustered h then 1 else 0]%Z
           ++ [Compression.to_u8 (internal_compression h);
               Compression.to_u8 (tile_compression h);
               TileType.to_u8 (tile_type h); min_zoom h; max_zoom h]
           ++ write_lat_lng (min_pos h) ++ write_lat_lng (max_pos h)
           ++ [center_zoom h] ++ write_lat_lng (center_pos h)).

(** Reading [k] bytes of the buffer. *)
Definition take_bytes (k : nat) (bs : list Z) : result io_error (list Z * list Z) :=
  if (List.length bs <? k)%nat then Err UnexpectedEof else Ok (take k bs, drop k bs).

Definition read_le (k : nat) (bs : list Z) : result io_error (Z * list Z) :=
  '(b, rest) ← take_bytes k bs; Ok (from_le b, rest).

Definition read_opt {A} (o : option A) : result io_error A :=
  match o with Some a => Ok a | Datatypes.None => Err DekuParse end.

Definition read_bool (b : Z) : result io_error bool :=
  if (b =? 0)%Z then Ok false else if (b =? 1)%Z then Ok true else Err DekuParse.

Definition read_lat_lng (bs : list Z) : result io_error (LatLng * list Z) :=
  '(lo, bs1) ← take_bytes 4 bs;
  '(la, bs2) ← take_bytes 4 bs1;
  Ok ({| longitude := read_lat_lon lo; latitude := read_lat_lon la |}, bs2).

Definition read_u8 (bs : list Z) : result io_error (Z * list Z) :=
  match bs with b :: rest => Ok (b, rest) | [] => Err UnexpectedEof end.

(** The deku-derived [Header::read] on the 127-byte buffer. *)
Definition read (bs : list Z) : result io_error Header :=
  '(m, bs) ← take_bytes 7 bs;
  if negb (bool_decide (m = magic)) then Err DekuParse else
  '(v, bs) ← read_u8 bs;
  if negb (v =? 3)%Z then Err DekuParse else
  '(rdo, bs) ← read_le 8 bs; '(rdl, bs) ← read_le 8 bs;
  '(jmo, bs) ← read_le 8 bs; '(jml, bs) ← read_le 8 bs;
  '(ldo, bs) ← read_le 8 bs; '(ldl, bs) ← read_le 8 bs;
  '(tdo, bs) ← read_le 8 bs; '(tdl, bs) ← read_le 8 bs;
  '(nat_, bs) ← read_le 8 bs; '(nte, bs) ← read_le 8 bs;
  '(ntc, bs) ← read_le 8 bs;
  '(cb, bs) ← read_u8 bs; cl ← read_bool cb;
  '(icb, bs) ← read_u8 bs; ic ← read_opt (Compression.of_u8 icb);
  '(tcb, bs) ← read_u8 bs; tc ← read_opt (Compression.of_u8 tcb);
  '(ttb, bs) ← read_u8 bs; tt ← read_opt (TileType.of_u8 ttb);
  '(minz, bs) ← read_u8 bs; '(maxz, bs) ← read_u8 bs;
  '(minp, bs) ← read_lat_lng bs; '(maxp, bs) ← read_lat_lng bs;
  '(cz, bs) ← read_u8 bs; '(cp, _) ← read_lat_lng bs;
  Ok {| spec_version := v; root_directory_offset := rdo;
        root_directory_length := rdl; json_metadata_offset := jmo;
        json_metadata_length := jml; leaf_directories_offset := ldo;
        leaf_directories_length := ldl; tile_data_offset := tdo;
        tile_data_length := tdl; num_addressed_tiles := nat_;
        num_tile_entries := nte; num_tile_content := ntc; clustered := cl;
        internal_compression := ic; tile_compression := tc; tile_type := tt;
        min_zoom := minz; max_zoom := maxz; min_pos := minp; max_pos := maxp;
        center_zoom := cz; center_pos := cp |}.

(** [Header::from_reader]: [read_exact] of 127 bytes, then [read]. *)
Definition from_reader (input : list Z) : result io_error Header :=
  '(buf, _) ← take_bytes HEADER_BYTES input; read buf.

(** A header whose fields fit their Rust types and whose version is 3. *)
Definition header_valid (h : Header) : bool :=
  (spec_version h =? 3)%Z
  && forallb (fun v => (0 <=? v)%Z && (v <? 2 ^ 64)%Z) (u64_fields h)
  && forallb (fun v => (0 <=? v)%Z && (v <? 256)%Z) [min_zoom h; max_zoom h; center_zoom h].

(** A coordinate as it is stored: scaled by [10^7], cast to [i32], and
    converted back. *)
Definition stored_coord (v : float) : float :=
  f64_from_i32 (f64_as_i32 (v * LAT_LONG_FACTOR)) / LAT_LONG_FACTOR.

Definition stored_lat_lng (p : LatLng) : LatLng :=
  {| longitude := stored_coord (longitude p); latitude := stored_coord (latitude p) |}.

Definition with_stored_coords (h : Header) : Header :=
  {| spec_version := spec_version h;
     root_directory_offset := root_directory_offset h;
     root_directory_length := root_directory_length h;
     json_metadata_offset := json_metadata_offset h;
     json_metadata_length := json_metadata_length h;
     leaf_directories_offset := leaf_directories_offset h;
     leaf_directories_length := leaf_directories_length h;
     tile_data_offset := tile_data_offset h; tile_data_length := tile_data_length h;
     num_addressed_tiles := num_addressed_tiles h;
     num_tile_entries := num_tile_entries h; num_tile_content := num_tile_content h;
     clustered := clustered h; internal_compression := internal_compression h;
     tile_compression := tile_compression h; tile_type := tile_type h;
     min_zoom := min_zoom h; max_zoom := max_zoom h;
     min_pos := stored_lat_lng (min_pos h); max_pos := stored_lat_lng (max_pos h);
     center_zoom := center_zoom h; center_pos := stored_lat_lng (center_pos h) |}.

(** [Header::default()]. *)
Definition default : Header :=
  {| spec_version := 3; root_directory_offset := 0; root_directory_length := 0;
     json_metadata_offset := 0; json_metadata_length := 0;
     leaf_directories_offset := 0; leaf_directories_length := 0;
     tile_data_offset := 0; tile_data_length := 0; num_addressed_tiles := 0;
     num_tile_entries := 0; num_tile_content := 0; clustered := false;
     internal_compression := Compression.GZip; tile_compression := Compression.None;
     tile_type := TileType.Unknown; min_zoom := 0; max_zoom := 0;
     min_pos := {| longitude := -180; latitude := -85 |};
     max_pos := {| longitude := 180; latitude := 85 |};
     center_zoom := 0; center_pos := {| longitude := 0; latitude := 0 |} |}.

(** The repository's [test_write_lat_lon] and [test_read_lat_lon]. *)
Example lat_lon_tests :
  write_lat_lon (-180) = [0; 46; 182; 148]%Z /\ write_lat_lon 180 = [0; 210; 73; 107]%Z /\
  write_lat_lon 0 = [0; 0; 0; 0]%Z /\
  Prim2SF (read_lat_lon [0; 46; 182; 148]%Z) = Prim2SF (-180) /\
  Prim2SF (read_lat_lon [0; 210; 73; 107]%Z) = Prim2SF 180.
Proof. vm_compute. repeat split. Qed.
End Header.

(* ------------------------------------------------------------------ *)
(** ** Directory walk ([src/util/read_directories.rs]) and archive
    reading ([PMTiles::from_reader_impl], [src/pmtiles.rs]) *)

Module Walk.
(** [std::ops::Bound<u64>] and a [RangeBounds<u64>] value. *)
Inductive Bound : Type := Included (v : Z) | Excluded (v : Z) | Unbounded.

Record RangeBounds : Type := { start_bound : Bound; end_bound : Bound }.

(** [..] *)
Definition full_range : RangeBounds := {| start_bound := Unbounded; end_bound := Unbounded |}.

(** [RangeBounds::contains]. *)
Definition contains (r : RangeBounds) (x : Z) : bool :=
  match start_bound r with
  | Included s => s <=? x | Excluded s => s <? x | Unbounded => true
  end &&
  match end_bound r with
  | Included e => x <=? e | Excluded e => x <? e | Unbounded => true
  end.

(** [range_end_inc]: [Excluded(v)] gives [v - 1] (wrapping at [0]). *)
Definition range_end_inc (r : RangeBounds) : option Z :=
  match end_bound r with
  | Included v => Some v
  | Excluded v => Some (u64 (v - 1))
  | Unbounded => Datatypes.None
  end.

Record OffsetLength : Type := { ol_offset : Z; ol_length : Z }.

(** [Entry::tile_id_range]: [tile_id .. tile_id + run_length]. *)
Definition tile_id_range (e : Directory.Entry) : list Z :=
  let s := Directory.tile_id e in
  let t := u64 (s + Directory.run_length e) in
  map (fun i => s + Z.of_nat i) (seq 0 (Z.to_nat (t - s))).

Definition insert_tiles (r : RangeBounds) (e : Directory.Entry)
  (tiles : gmap Z OffsetLength) : gmap Z OffsetLength :=
  fold_left (fun tiles k =>
    if contains r k
    then <[k := {| ol_offset := Directory.offset e; ol_length := Directory.length e |}]> tiles
    else tiles) (tile_id_range e) tiles.

Section Walk.
Variable cx : Compression.t -> Codec.
Variable file : list Z.     (* the whole archive behind the reader *)
Variable compression : Compression.t.
Variable leaf_dir_offset : Z.
Variable filter_range : RangeBounds.

(** The [for entry in &directory] loop of [read_dir_rec]; [rec] is the
    recursive call on a leaf directory. *)
Fixpoint for_entries
  (rec : gmap Z OffsetLength -> Z -> Z -> result io_error (gmap Z OffsetLength))
  (range_end : Z) (es : list Directory.Entry) (tiles : gmap Z OffsetLength)
  : result io_error (gmap Z OffsetLength) :=
  match es with
  | [] => Ok tiles
  | e :: es' =>
      if Directory.is_leaf_dir_entry e then
        if range_end <? Directory.tile_id e then for_entries rec range_end es' tiles
        else
          tiles' ← rec tiles (u64 (leaf_dir_offset + Directory.offset e))
                     (Directory.length e);
          for_entries rec range_end es' tiles'
      else for_entries rec range_end es' (insert_tiles filter_range e tiles)
  end.

(** [read_dir_rec]; [fuel] bounds the recursion depth (the stack). *)
Fixpoint read_dir_rec (fuel : nat) (tiles : gmap Z OffsetLength)
  (dir_offset dir_length : Z) : result io_error (gmap Z OffsetLength) :=
  match fuel with
  | O => Err RecursionLimit
  | S f =>
      directory ← Directory.from_reader_impl cx (drop (Z.to_nat dir_offset) file)
                    dir_length compression;
      let range_end := default (2 ^ 64 - 1) (range_end_inc filter_range) in
      for_entries (read_dir_rec f) range_end directory tiles
  end.
End Walk.

(** [read_directories]. *)
Definition read_directories (cx : Compression.t -> Codec) (fuel : nat) (file : list Z)
  (compression : Compression.t) (root_off root_len leaf_dir_offset : Z)
  (filter_range : RangeBounds) : result io_error (gmap Z OffsetLength) :=
  read_dir_rec cx file compression leaf_dir_offset filter_range fuel ∅ root_off root_len.

(** The order the pruning relies on: below a leaf pointer with tile id
    [t], every tile id is at least [t] (and at least the bound [lo]
    inherited from the pointers above).  [false] where the walk fails. *)
Fixpoint leaf_order_ok (cx : Compression.t -> Codec) (file : list Z)
  (compression : Compression.t) (leaf_dir_offset : Z) (fuel : nat)
  (dir_offset dir_length lo : Z) : bool :=
  match fuel with
  | O => false
  | S f =>
      match Directory.from_reader_impl cx (drop (Z.to_nat dir_offset) file)
              dir_length compression with
      | Err _ => false
      | Ok directory =>
          forallb (fun e =>
            if Directory.is_leaf_dir_entry e then
              leaf_order_ok cx file compression leaf_dir_offset f
                (u64 (leaf_dir_offset + Directory.offset e)) (Directory.length e)
                (Z.max lo (Directory.tile_id e))
            else lo <=? Directory.tile_id e) directory
      end
  end.

(** The bounds of a [RangeBounds<u64>] are [u64] values. *)
Definition range_in_u64 (r : RangeBounds) : bool :=
  let ok b := match b with
              | Included v | Excluded v => (0 <=? v) && (v <? 2 ^ 64)
              | Unbounded => true end in
  ok (start_bound r) && ok (end_bound r).
End Walk.

Module PMTiles.
Import Walk.

Section FromReader.
Variable cx : Compression.t -> Codec.
(** [parse_meta_data]: decompression and [serde_json]. *)
Variable JSONValue : Type.
Variable parse_meta_data : Compression.t -> list Z -> result io_error JSONValue.

(** The tile map of the tile manager after [add_offset_tile] of every
    entry found, at [tile_data_offset + offset]. *)
Definition add_offset_tiles (header : Header.Header) (tiles : gmap Z OffsetLength)
  : gmap Z (Z * Z) :=
  (fun ol => (u64 (Header.tile_data_offset header + ol_offset ol), ol_length ol)) <$> tiles.

(** The metadata step: [None] for length [0], else parse the section. *)
Definition read_meta (file : list Z) (header : Header.Header)
  : result io_error (option JSONValue) :=
  if Header.json_metadata_length header =? 0 then Ok Datatypes.None
  else match parse_meta_data (Header.internal_compression header)
               (take (Z.to_nat (Header.json_metadata_length header))
                  (drop (Z.to_nat (Header.json_metadata_offset header)) file)) with
       | Ok m => Ok (Some m)
       | Err e => Err e
       end.

(** [PMTiles::from_reader_impl]: the header, the metadata, and the tile
    map of the tile manager ([add_offset_tile] of every entry the walk
    found, at [tile_data_offset + offset]). *)
Definition from_reader_impl (fuel : nat) (file : list Z) (tiles_filter_range : RangeBounds)
  : result io_error (Header.Header * option JSONValue * gmap Z (Z * Z)) :=
  header ← Header.from_reader file;
  meta_data ← read_meta file header;
  tiles ← read_directories cx fuel file (Header.internal_compression header)
            (Header.root_directory_offset header) (Header.root_directory_length header)
            (Header.leaf_directories_offset header) tiles_filter_range;
  Ok (header, meta_data, add_offset_tiles header tiles).

Definition from_reader (fuel : nat) (file : list Z) :=
  from_reader_impl fuel file full_range.

Definition from_reader_partially (fuel : nat) (file : list Z) (r : RangeBounds) :=
  from_reader_impl fuel file r.
End FromReader.
End PMTiles.

(* ------------------------------------------------------------------ *)
(** ** Writing directories ([src/util/write_directories.rs]) *)

Module WriteDirs.
Import Directory.

(** [16384 - HEADER_BYTES]. *)
Definition MAX_ROOT_DIR_LENGTH : Z := 16384 - 127.

Inductive WriteDirsOverflowStrategy : Type :=
| OnlyLeafPointers (start_size : option Z).

(** [WriteDirsOverflowStrategy::default()]. *)
Definition default_strategy : WriteDirsOverflowStrategy := OnlyLeafPointers Datatypes.None.

(** [slice::chunks(n)] for [n > 0]: consecutive pieces of [n] elements,
    the last one possibly shorter; [fuel] is the slice length. *)
Fixpoint chunks_aux {A} (fuel n : nat) (l : list A) : list (list A) :=
  match fuel with
  | O => []
  | S f => match l with [] => [] | _ => take n l :: chunks_aux f n (drop n l) end
  end.

Definition chunks {A} (n : nat) (l : list A) : list (list A) :=
  chunks_aux (List.length l) n l.

(** The [for entries in all_entries.chunks(leaf_size)] loop: every chunk
    is written as a leaf directory to [leaf_dir_bytes], and a leaf
    pointer to it is pushed on [root_entries]. *)
Fixpoint write_leaves (cx : Compression.t -> Codec) (c : Compression.t)
  (chs : list (list Entry)) (root_entries : list Entry) (leaf_dir_bytes : list Z)
  : result io_error (list Entry * list Z) :=
  match chs with
  | [] => Ok (root_entries, leaf_dir_bytes)
  | entries :: chs' =>
      if bool_decide (entries = []) then write_leaves cx c chs' root_entries leaf_dir_bytes
      else
        let offset := Z.of_nat (List.length leaf_dir_bytes) in
        bytes ← to_writer_impl cx entries c;
        let length := u32 (Z.of_nat (List.length bytes)) in
        let first := match entries with e :: _ => tile_id e | [] => 0 end in
        write_leaves cx c chs'
          (root_entries ++ [{| tile_id := first; length := length;
                               offset := offset; run_length := 0 |}])
          (leaf_dir_bytes ++ bytes)
  end.

(** One pass of the loop of [only_leaf_pointer_strategy] with the chunk
    size [leaf_size]: the root directory written at [root_dir_start] and
    the leaf section. *)
Definition leaf_pass (cx : Compression.t -> Codec) (all_entries : list Entry)
  (c : Compression.t) (leaf_size : Z) : result io_error (list Z * list Z) :=
  if leaf_size =? 0 then Err ChunkSizeZero
  else
    '(root_entries, leaf_dir_bytes) ←
      write_leaves cx c (chunks (Z.to_nat leaf_size) all_entries) [] [];
    root ← to_writer_impl cx root_entries c;
    Ok (root, leaf_dir_bytes).

(** [only_leaf_pointer_strategy]: the [loop], with [fuel] passes; the
    chunk size doubles as a [usize] ([leaf_size *= 2], wrapping). *)
Fixpoint leaf_loop (cx : Compression.t -> Codec) (all_entries : list Entry)
  (c : Compression.t) (fuel : nat) (leaf_size : Z) : result io_error (list Z * list Z) :=
  match fuel with
  | O => Err OutOfFuel
  | S f =>
      '(root, leaf_dir_bytes) ← leaf_pass cx all_entries c leaf_size;
      if Z.of_nat (List.length root) <=? MAX_ROOT_DIR_LENGTH then Ok (root, leaf_dir_bytes)
      else leaf_loop cx all_entries c f (u64 (leaf_size * 2))
  end.

Definition only_leaf_pointer_strategy (cx : Compression.t -> Codec) (fuel : nat)
  (all_entries : list Entry) (c : Compression.t) (start_size : option Z)
  : result io_error (list Z * list Z) :=
  leaf_loop cx all_entries c fuel (default 4096 start_size).

(** [write_directories_impl]: the root directory left at [start_pos]
    (the last one written there) and the returned leaf section. *)
Definition write_directories (cx : Compression.t -> Codec) (fuel : nat)
  (all_entries : list Entry) (c : Compression.t)
  (overflow_strategy : option WriteDirsOverflowStrategy)
  : result io_error (list Z * list Z) :=
  root ← to_writer_impl cx all_entries c;
  if Z.of_nat (List.length root) <=? MAX_ROOT_DIR_LENGTH then Ok (root, [])
  else match default default_strategy overflow_strategy with
       | OnlyLeafPointers start_size =>
           only_leaf_pointer_strategy cx fuel all_entries c start_size
       end.

(** The chunk size the loop of [only_leaf_pointer_strategy] starts with. *)
Definition start_size_of (overflow_strategy : option WriteDirsOverflowStrategy) : Z :=
  match default default_strategy overflow_strategy with
  | OnlyLeafPointers start_size => default 4096 start_size
  end.
End WriteDirs.

(* ------------------------------------------------------------------ *)
(** ** The tile manager ([src/tile_manager.rs]) *)

Module TileManager.
Import Directory.

Inductive TileManagerTile : Type :=
| Hash (h : Z)                       (* u64 *)
| OffsetLength (offset length : Z).  (* u64, u32 *)

(** The reader is a [Cursor] over the bytes of the archive. *)
Record TileManager : Type := mkTileManager {
  data_by_hash : gmap Z (list Z);
  tile_by_id : gmap Z TileManagerTile;
  ids_by_hash : gmap Z (gset Z);
  reader : option (list Z)
}.

Definition new (reader : option (list Z)) : TileManager :=
  mkTileManager ∅ ∅ ∅ reader.

(** [seek(SeekFrom::Start(offset))] then [read_exact] of [length] bytes. *)
Definition read_at (r : list Z) (offset length : Z) : result io_error (list Z) :=
  let rest := drop (Z.to_nat offset) r in
  if bool_decide (Z.to_nat length <= List.length rest)%nat
  then Ok (take (Z.to_nat length) rest) else Err UnexpectedEof.

Definition get_tile_content (reader : option (list Z)) (data_by_hash : gmap Z (list Z))
  (tile : TileManagerTile) : result io_error (option (list Z)) :=
  match tile with
  | Hash h => Ok (data_by_hash !! h)
  | OffsetLength offset length =>
      match reader with
      | Some r => buf ← read_at r offset length; Ok (Some buf)
      | Datatypes.None => Err UnexpectedEof
      end
  end.

Definition get_tile (m : TileManager) (tile_id : Z) : result io_error (option (list Z)) :=
  match tile_by_id m !! tile_id with
  | Datatypes.None => Ok Datatypes.None
  | Some tile => get_tile_content (reader m) (data_by_hash m) tile
  end.

(** [push_entry]: [entries.last_mut()] grows by one when the tile
    continues its run, else a new entry is pushed. *)
Fixpoint push_entry (entries : list Entry) (tile_id offset length : Z) : list Entry :=
  match entries with
  | [] => [{| Directory.tile_id := tile_id; Directory.offset := offset;
              Directory.length := length; run_length := 1 |}]
  | [last] =>
      if (tile_id =? u64 (Directory.tile_id last + run_length last))
         && (Directory.offset last =? offset) && (Directory.length last =? length)
      then [{| Directory.tile_id := Directory.tile_id last;
               Directory.offset := Directory.offset last;
               Directory.length := Directory.length last;
               run_length := u32 (run_length last + 1) |}]
      else [last; {| Directory.tile_id := tile_id; Directory.offset := offset;
                     Directory.length := length; run_length := 1 |}]
  | e :: entries' => e :: push_entry entries' tile_id offset length
  end.

(** The order of [sort_by(|a, b| a.0.cmp(&b.0))]. *)
Definition key_le (a b : Z * TileManagerTile) : Prop := a.1 <= b.1.
#[global] Instance key_le_dec : RelDecision key_le := fun a b => Z.le_dec a.1 b.1.

Section Hashing.
(** [calculate_hash]: [AHasher::default()] over the bytes. *)
Variable calculate_hash : list Z -> Z.

(** [remove_tile]; the [bool] is the returned value. *)
Definition remove_tile (m : TileManager) (tile_id : Z) : TileManager * bool :=
  match tile_by_id m !! tile_id with
  | Datatypes.None => (m, false)
  | Some (OffsetLength _ _) =>
      (mkTileManager (data_by_hash m) (delete tile_id (tile_by_id m))
         (ids_by_hash m) (reader m), true)
  | Some (Hash hash) =>
      let ids_with_hash := default ∅ (ids_by_hash m !! hash) ∖ {[tile_id]} in
      if bool_decide (ids_with_hash = ∅) then
        (mkTileManager (delete hash (data_by_hash m)) (delete tile_id (tile_by_id m))
           (delete hash (ids_by_hash m)) (reader m), true)
      else
        (mkTileManager (data_by_hash m) (delete tile_id (tile_by_id m))
           (<[hash := ids_with_hash]> (ids_by_hash m)) (reader m), true)
  end.

Definition add_tile (m : TileManager) (tile_id : Z) (vec : list Z) : TileManager :=
  let m1 := fst (remove_tile m tile_id) in
  let hash := calculate_hash vec in
  mkTileManager (<[hash := vec]> (data_by_hash m1))
    (<[tile_id := Hash hash]> (tile_by_id m1))
    (<[hash := {[tile_id]} ∪ default ∅ (ids_by_hash m1 !! hash)]> (ids_by_hash m1))
    (reader m1).

Definition add_offset_tile (m : TileManager) (tile_id offset length : Z) : TileManager :=
  mkTileManager (data_by_hash m) (<[tile_id := OffsetLength offset length]> (tile_by_id m))
    (ids_by_hash m) (reader m).

(** The calls a client makes on a tile manager. *)
Inductive op : Type :=
| AddTile (tile_id : Z) (data : list Z)
| AddOffsetTile (tile_id offset length : Z)
| RemoveTile (tile_id : Z).

Definition apply_op (m : TileManager) (o : op) : TileManager :=
  match o with
  | AddTile id d => add_tile m id d
  | AddOffsetTile id off len => add_offset_tile m id off len
  | RemoveTile id => fst (remove_tile m id)
  end.

Definition run_ops (m : TileManager) (ops : list op) : TileManager :=
  fold_left apply_op ops m.

Record FinishState : Type := mkFinishState {
  entries : list Entry;
  data : list Z;
  num_addressed_tiles : Z;
  num_tile_content : Z;
  offset_length_map : gmap Z (Z * Z)
}.

(** One turn of the [for (tile_id, tile) in id_tile] loop of [finish]. *)
Definition finish_step (m : TileManager) (st : FinishState)
  (it : Z * TileManagerTile) : result io_error FinishState :=
  let '(tile_id, tile) := it in
  content ← get_tile_content (reader m) (data_by_hash m) tile;
  match content with
  | Datatypes.None => Ok st
  | Some tile_data =>
      let hash := match tile with Hash h => h | OffsetLength _ _ => calculate_hash tile_data end in
      let num_addressed := u64 (num_addressed_tiles st + 1) in
      match offset_length_map st !! hash with
      | Some (offset, length) =>
          Ok (mkFinishState (push_entry (entries st) tile_id offset length) (data st)
                num_addressed (num_tile_content st) (offset_length_map st))
      | Datatypes.None =>
          let offset := Z.of_nat (List.length (data st)) in
          let length := u32 (Z.of_nat (List.length tile_data)) in
          Ok (mkFinishState (push_entry (entries st) tile_id offset length)
                (data st ++ tile_data) num_addressed (u64 (num_tile_content st + 1))
                (<[hash := (offset, length)]> (offset_length_map st)))
      end
  end.

Fixpoint finish_loop (m : TileManager) (id_tile : list (Z * TileManagerTile))
  (st : FinishState) : result io_error FinishState :=
  match id_tile with
  | [] => Ok st
  | it :: rest => st' ← finish_step m st it; finish_loop m rest st'
  end.

Record FinishResult : Type := mkFinishResult {
  fr_data : list Z;
  fr_num_addressed_tiles : Z;
  fr_num_tile_entries : Z;
  fr_num_tile_content : Z;
  directory : list Entry
}.

(** [finish]: the tiles sorted by id ([sort_by] on the keys). *)
Definition finish (m : TileManager) : result io_error FinishResult :=
  let id_tile := merge_sort key_le (map_to_list (tile_by_id m)) in
  st ← finish_loop m id_tile (mkFinishState [] [] 0 0 ∅);
  Ok (mkFinishResult (data st) (num_addressed_tiles st)
        (Z.of_nat (List.length (entries st))) (num_tile_content st) (entries st)).
End Hashing.

(** The id an operation acts on. *)
Definition op_tile_id (o : op) : Z :=
  match o with AddTile id _ | AddOffsetTile id _ _ | RemoveTile id => id end.

(** The tile ids are [u64] values. *)
Definition ids_in_u64 (m : TileManager) : Prop :=
  map_Forall (fun k _ => 0 <= k < 2 ^ 64) (tile_by_id m).
End TileManager.

(** [TileManager::get_tile_ids] and [TileManager::num_addressed_tiles]. *)
Module TileManagerIds.
Import TileManager.

(** [self.tile_by_id.keys().collect()]: the keys, in the map's order. *)
Definition get_tile_ids (m : TileManager) : list Z := (map_to_list (tile_by_id m)).*1.

(** [self.tile_by_id.len()]. *)
Definition num_addressed_tiles (m : TileManager) : Z := Z.of_nat (size (tile_by_id m)).
End TileManagerIds.


(* ------------------------------------------------------------------ *)
(** ** The writer [PMTiles::to_writer] is given: a [std::io::Cursor]
    over a [Vec<u8>] *)

Module Cursor.
Record Cursor : Type := mkCursor { inner : list Z; position : Z }.

(** [Write::write_all] on a [Cursor<Vec<u8>>]: a position past the end
    first pads the vector with zeros, then the bytes from the position on
    are overwritten, and the rest appended. *)
Definition write_all (c : Cursor) (bs : list Z) : Cursor :=
  let p := Z.to_nat (position c) in
  let padded := inner c ++ replicate (p - List.length (inner c)) 0 in
  mkCursor (take p padded ++ bs ++ drop (p + List.length bs) padded)
    (position c + Z.of_nat (List.length bs)).

(** [Seek::seek(SeekFrom::Start(n))]. *)
Definition seek_start (c : Cursor) (n : Z) : Cursor := mkCursor (inner c) n.

(** [Seek::seek(SeekFrom::Current(n))] for [n >= 0]; it fails only past
    [u64::MAX], a position no vector reaches. *)
Definition seek_current (c : Cursor) (n : Z) : Cursor := mkCursor (inner c) (position c + n).

(** An empty [Cursor::new(Vec::new())]. *)
Definition empty : Cursor := mkCursor [] 0.
End Cursor.


(** [write_directories_impl] and [only_leaf_pointer_strategy] as they act
    on [output]: the root directory of all entries is written at
    [start_pos], and when it is too long every pass of the loop seeks back
    to [root_dir_start] and writes its root directory there.  The result
    is the cursor and the leaf section. *)
Module WriteDirsCursor.
Import Cursor WriteDirs.

Fixpoint leaf_loop (cx : Compression.t -> Codec) (all_entries : list Directory.Entry)
  (c : Compression.t) (fuel : nat) (leaf_size : Z) (output : Cursor) (root_dir_start : Z)
  : result io_error (Cursor * list Z) :=
  match fuel with
  | O => Err OutOfFuel
  | S f =>
      '(root, leaf_dir_bytes) ← leaf_pass cx all_entries c leaf_size;
      let output := write_all (seek_start output root_dir_start) root in
      if position output - root_dir_start <=? MAX_ROOT_DIR_LENGTH
      then Ok (output, leaf_dir_bytes)
      else leaf_loop cx all_entries c f (u64 (leaf_size * 2)) output root_dir_start
  end.

Definition write_directories (cx : Compression.t -> Codec) (fuel : nat) (output : Cursor)
  (all_entries : list Directory.Entry) (c : Compression.t)
  (overflow_strategy : option WriteDirsOverflowStrategy)
  : result io_error (Cursor * list Z) :=
  let start_pos := position output in
  root ← Directory.to_writer_impl cx all_entries c;
  let output := write_all output root in
  if position output - start_pos <=? MAX_ROOT_DIR_LENGTH then Ok (output, [])
  else match default default_strategy overflow_strategy with
       | OnlyLeafPointers start_size =>
           leaf_loop cx all_entries c fuel (default 4096 start_size) output start_pos
       end.
End WriteDirsCursor.


(* ------------------------------------------------------------------ *)
(** ** The archive ([struct PMTiles], [src/pmtiles.rs]) *)

Module PMTilesApi.
Import Cursor.

Section Api.
(** [serde_json::Value]. *)
Variable JSONValue : Type.

Record PMTiles : Type := mkPMTiles {
  tile_type : TileType.t;
  tile_compression : Compression.t;
  internal_compression : Compression.t;
  min_zoom : Z;                (* u8 *)
  max_zoom : Z;                (* u8 *)
  center_zoom : Z;             (* u8 *)
  min_longitude : float;
  min_latitude : float;
  max_longitude : float;
  max_latitude : float;
  center_longitude : float;
  center_latitude : float;
  meta_data : option JSONValue;
  tile_manager : TileManager.TileManager
}.

(** [PMTiles::default()]. *)
Definition default : PMTiles :=
  {| tile_type := TileType.Unknown; internal_compression := Compression.GZip;
     tile_compression := Compression.Unknown; min_zoom := 0; max_zoom := 0;
     center_zoom := 0; min_longitude := 0%float; min_latitude := 0%float;
     max_longitude := 0%float; max_latitude := 0%float; center_longitude := 0%float;
     center_latitude := 0%float; meta_data := Datatypes.None;
     tile_manager := TileManager.new Datatypes.None |}.

(** [PMTiles::new(tile_type, tile_compression)]: [..Default::default()]. *)
Definition new (tile_type : TileType.t) (tile_compression : Compression.t) : PMTiles :=
  {| tile_type := tile_type; tile_compression := tile_compression;
     internal_compression := internal_compression default;
     min_zoom := min_zoom default; max_zoom := max_zoom default;
     center_zoom := center_zoom default; min_longitude := min_longitude default;
     min_latitude := min_latitude default; max_longitude := max_longitude default;
     max_latitude := max_latitude default; center_longitude := center_longitude default;
     center_latitude := center_latitude default; meta_data := meta_data default;
     tile_manager := tile_manager default |}.

(** The archive with its tile manager replaced (the [&mut self] methods
    that act on [self.tile_manager]). *)
Definition with_tile_manager (p : PMTiles) (tm : TileManager.TileManager) : PMTiles :=
  {| tile_type := tile_type p; tile_compression := tile_compression p;
     internal_compression := internal_compression p; min_zoom := min_zoom p;
     max_zoom := max_zoom p; center_zoom := center_zoom p;
     min_longitude := min_longitude p; min_latitude := min_latitude p;
     max_longitude := max_longitude p; max_latitude := max_latitude p;
     center_longitude := center_longitude p; center_latitude := center_latitude p;
     meta_data := meta_data p; tile_manager := tm |}.

(** [PMTiles::tile_ids]. *)
Definition tile_ids (p : PMTiles) : list Z := TileManagerIds.get_tile_ids (tile_manager p).

(** [PMTiles::num_tiles]. *)
Definition num_tiles (p : PMTiles) : Z := TileManagerIds.num_addressed_tiles (tile_manager p).

(** [PMTiles::remove_tile]: the [bool] of the tile manager is dropped. *)
Definition remove_tile (p : PMTiles) (tile_id : Z) : PMTiles :=
  with_tile_manager p (fst (TileManager.remove_tile (tile_manager p) tile_id)).

(** [PMTiles::get_tile_by_id]. *)
Definition get_tile_by_id (p : PMTiles) (tile_id : Z) : result io_error (option (list Z)) :=
  TileManager.get_tile (tile_manager p) tile_id.

(** [PMTiles::get_tile(x, y, z)]. *)
Definition get_tile (p : PMTiles) (x y z : Z) : result io_error (option (list Z)) :=
  get_tile_by_id p (TileId.tile_id z x y).

Section Hashing.
Variable calculate_hash : list Z -> Z.

(** [PMTiles::add_tile]. *)
Definition add_tile (p : PMTiles) (tile_id : Z) (data : list Z) : PMTiles :=
  with_tile_manager p (TileManager.add_tile calculate_hash (tile_manager p) tile_id data).

Section Writer.
Variable cx : Compression.t -> Codec.
(** [serde_json::to_vec] and [json!({})]. *)
Variable to_vec : JSONValue -> list Z.
Variable empty_object : JSONValue.
(** Passes of the loop of [only_leaf_pointer_strategy]. *)
Variable fuel : nat.

(** [PMTiles::to_writer_impl].  Positions of the cursor stay far below
    [2^64], so the [u64] sums and differences of positions do not wrap. *)
Definition to_writer_impl (p : PMTiles) (output : Cursor) : result io_error Cursor :=
  result ← TileManager.finish calculate_hash (tile_manager p);
  (* ROOT DIR *)
  let output := seek_current output (Z.of_nat Header.HEADER_BYTES) in
  let root_directory_offset := Z.of_nat Header.HEADER_BYTES in
  '(output, leaf_directories_data) ←
    WriteDirsCursor.write_directories cx fuel output (TileManager.directory result)
      (internal_compression p) Datatypes.None;
  let root_directory_length := position output - root_directory_offset in
  (* META DATA *)
  let json_metadata_offset := root_directory_offset + root_directory_length in
  let meta_val := from_option id empty_object (meta_data p) in
  meta ← compress cx (internal_compression p) (to_vec meta_val);
  let output := write_all output meta in
  let json_metadata_length := position output - json_metadata_offset in
  (* LEAF DIRECTORIES *)
  let leaf_directories_offset := json_metadata_offset + json_metadata_length in
  let output := write_all output leaf_directories_data in
  let leaf_directories_length := position output - leaf_directories_offset in
  (* DATA *)
  let tile_data_offset := leaf_directories_offset + leaf_directories_length in
  let output := write_all output (TileManager.fr_data result) in
  let tile_data_length := Z.of_nat (List.length (TileManager.fr_data result)) in
  (* HEADER *)
  let header :=
    {| Header.spec_version := 3;
       Header.root_directory_offset := root_directory_offset;
       Header.root_directory_length := root_directory_length;
       Header.json_metadata_offset := json_metadata_offset;
       Header.json_metadata_length := json_metadata_length;
       Header.leaf_directories_offset := leaf_directories_offset;
       Header.leaf_directories_length := leaf_directories_length;
       Header.tile_data_offset := tile_data_offset;
       Header.tile_data_length := tile_data_length;
       Header.num_addressed_tiles := TileManager.fr_num_addressed_tiles result;
       Header.num_tile_entries := TileManager.fr_num_tile_entries result;
       Header.num_tile_content := TileManager.fr_num_tile_content result;
       Header.clustered := true;
       Header.internal_compression := internal_compression p;
       Header.tile_compression := tile_compression p;
       Header.tile_type := tile_type p;
       Header.min_zoom := min_zoom p; Header.max_zoom := max_zoom p;
       Header.min_pos := {| Header.longitude := min_longitude p;
                            Header.latitude := min_latitude p |};
       Header.max_pos := {| Header.longitude := max_longitude p;
                            Header.latitude := max_latitude p |};
       Header.center_zoom := center_zoom p;
       Header.center_pos := {| Header.longitude := center_longitude p;
                               Header.latitude := center_latitude p |} |} in
  let output := seek_start output (root_directory_offset - Z.of_nat Header.HEADER_BYTES) in
  header_bytes ← Header.to_writer header;
  let output := write_all output header_bytes in
  Ok (seek_start output
        (root_directory_offset - Z.of_nat Header.HEADER_BYTES + tile_data_offset
         + tile_data_length)).
End Writer.
End Hashing.

Section Reader.
Variable cx : Compression.t -> Codec.
(** [serde_json::from_reader] on the decompressed bytes. *)
Variable from_slice : list Z -> result io_error JSONValue.

(** [PMTiles::parse_meta_data]. *)
Definition parse_meta_data (compression : Compression.t) (bytes : list Z)
  : result io_error JSONValue :=
  d ← decompress cx compression bytes; from_slice d.

(** [PMTiles::from_reader_impl]: the header, the metadata and the tile
    map of [PMTiles.from_reader_impl], then the archive with a tile
    manager over the input ([TileManager::new(Some(input))] and
    [add_offset_tile] of every tile found). *)
Definition from_reader_impl (fuel : nat) (input : list Z)
  (tiles_filter_range : Walk.RangeBounds) : result io_error PMTiles :=
  '(header, meta_data, tiles) ←
    PMTiles.from_reader_impl cx JSONValue parse_meta_data fuel input tiles_filter_range;
  let tile_manager :=
    fold_left (fun tm '(tile_id, (offset, length)) =>
                 TileManager.add_offset_tile tm tile_id offset length)
      (map_to_list tiles) (TileManager.new (Some input)) in
  Ok {| tile_type := Header.tile_type header;
        internal_compression := Header.internal_compression header;
        tile_compression := Header.tile_compression header;
        min_zoom := Header.min_zoom header; max_zoom := Header.max_zoom header;
        center_zoom := Header.center_zoom header;
        min_longitude := Header.longitude (Header.min_pos header);
        min_latitude := Header.latitude (Header.min_pos header);
        max_longitude := Header.longitude (Header.max_pos header);
        max_latitude := Header.latitude (Header.max_pos header);
        center_longitude := Header.longitude (Header.center_pos header);
        center_latitude := Header.latitude (Header.center_pos header);
        meta_data := meta_data; tile_manager := tile_manager |}.

(** [PMTiles::from_reader]. *)
Definition from_reader (fuel : nat) (input : list Z) : result io_error PMTiles :=
  from_reader_impl fuel input Walk.full_range.
End Reader.
End Api.
End PMTilesApi.

(** Small archives: a header, a root directory with one leaf pointer,
    one leaf directory with the tile [0], and one tile byte. *)
Module Archives.
Definition header : Header.Header :=
  {| Header.spec_version := 3; Header.root_directory_offset := 127;
     Header.root_directory_length := 5; Header.json_metadata_offset := 132;
     Header.json_metadata_length := 0; Header.leaf_directories_offset := 132;
     Header.leaf_directories_length := 5; Header.tile_data_offset := 137;
     Header.tile_data_length := 1; Header.num_addressed_tiles := 1;
     Header.num_tile_entries := 1; Header.num_tile_content := 1;
     Header.clustered := false; Header.internal_compression := Compression.None;
     Header.tile_compression := Compression.None; Header.tile_type := TileType.Unknown;
     Header.min_zoom := 0; Header.max_zoom := 0;
     Header.min_pos := {| Header.longitude := 0%float; Header.latitude := 0%float |};
     Header.max_pos := {| Header.longitude := 0%float; Header.latitude := 0%float |};
     Header.center_zoom := 0;
     Header.center_pos := {| Header.longitude := 0%float; Header.latitude := 0%float |} |}.

Definition header_bytes : list Z :=
  match Header.to_writer header with Ok b => b | Err _ => [] end.

(** The root directory: one leaf pointer with tile id [leaf_id], length
    [5] and offset [0] in the leaf section. *)
Definition root_directory (leaf_id : Z) : list Z := [1; leaf_id; 0; 5; 1].

(** The leaf directory: the tile [0], run length [1], length [1],
    offset [0]. *)
Definition leaf_directory : list Z := [1; 0; 1; 1; 1].

Definition archive (leaf_id : Z) : list Z :=
  header_bytes ++ root_directory leaf_id ++ leaf_directory ++ [42].

(** The tile ids up to [5]. *)
Definition up_to_5 : Walk.RangeBounds :=
  {| Walk.start_bound := Walk.Unbounded; Walk.end_bound := Walk.Included 5 |}.

Definition no_meta (_ : Compression.t) (_ : list Z) : result io_error unit := Ok tt.

(** A stand-in for [AHasher]: the number of bytes.  It makes every two
    tiles of the same size collide. *)
Definition byte_length_hash (c : list Z) : Z := Z.of_nat (List.length c).

(** A tile manager without a reader: tiles [1..5], where [2], [3] and
    [4] have the same bytes. *)
Definition manager_ops : list TileManager.op :=
  [TileManager.AddTile 3 [7; 8]; TileManager.AddTile 1 [9]; TileManager.AddTile 2 [7; 8];
   TileManager.AddTile 4 [7; 8]; TileManager.AddTile 5 [3; 4; 5]].

Definition manager : TileManager.TileManager :=
  TileManager.run_ops byte_length_hash (TileManager.new Datatypes.None) manager_ops.

(** Tiles [1] and [2] get the bytes [[9]], then tile [3] gets [[1]],
    whose hash under [byte_length_hash] is the same. *)
Definition colliding_manager : TileManager.TileManager :=
  TileManager.run_ops byte_length_hash (TileManager.new Datatypes.None)
    [TileManager.AddTile 1 [9]; TileManager.AddTile 2 [9]; TileManager.AddTile 3 [1]].
End Archives.

(** Facts about the header codec. *)
Module HeaderFacts.
Import Header.

Ltac res_simpl := cbn [mbind result_mbind result_bind] in *.

Lemma le_bytes_length (k : nat) : forall v, List.length (le_bytes k v) = k.
Proof. induction k as [|k IH]; intros v; cbn; [reflexivity | rewrite IH; reflexivity]. Qed.

Lemma from_le_le_bytes (k : nat) :
  forall v, 0 <= v < 2 ^ (8 * Z.of_nat k) -> from_le (le_bytes k v) = v.
Proof.
  induction k as [|k IH]; intros v Hv.
  - change (2 ^ (8 * Z.of_nat 0)) with 1 in Hv. cbn. lia.
  - cbn [le_bytes from_le]. rewrite IH.
    + rewrite (Z_div_mod_eq_full v 256) at 3. ring.
    + rewrite Nat2Z.inj_succ, Z.mul_succ_r, Z.pow_add_r in Hv by lia.
      change (2 ^ 8) with 256 in Hv.
      split; [apply Z.div_pos; lia | apply Z.div_lt_upper_bound; lia].
Qed.

Lemma take_bytes_app (k : nat) (l rest : list Z) :
  List.length l = k -> take_bytes k (l ++ rest) = Ok (l, rest).
Proof.
  intros Hl. unfold take_bytes. rewrite length_app.
  rewrite (proj2 (Nat.ltb_ge _ _)) by lia.
  rewrite take_app_length' by lia. rewrite drop_app_length' by lia. reflexivity.
Qed.

Lemma read_le_app (k : nat) (v : Z) (rest : list Z) :
  0 <= v < 2 ^ (8 * Z.of_nat k) -> read_le k (le_bytes k v ++ rest) = Ok (v, rest).
Proof.
  intros Hv. unfold read_le. rewrite take_bytes_app by apply le_bytes_length.
  res_simpl. rewrite from_le_le_bytes by exact Hv. reflexivity.
Qed.

Lemma f64_as_i32_range (f : float) : - 2 ^ 31 <= f64_as_i32 f < 2 ^ 31.
Proof. unfold f64_as_i32. destruct (Prim2SF f) as [s| [|] | |s m e]; lia. Qed.

Lemma lat_lon_roundtrip (v : float) :
  read_lat_lon (write_lat_lon v) = stored_coord v.
Proof.
  unfold read_lat_lon, write_lat_lon, stored_coord.
  pose proof (f64_as_i32_range (v * LAT_LONG_FACTOR)%float) as Hr.
  set (t := f64_as_i32 _) in *.
  rewrite from_le_le_bytes by (change (8 * Z.of_nat 4) with 32;
                                apply Z.mod_pos_bound; lia).
  f_equal. f_equal. unfold i32_of_u32.
  destruct (Z.ltb_spec 0 t) as [Hp|Hn]; [|destruct (Z.eq_dec t 0) as [->|Hne]].
  - rewrite Z.mod_small by lia. rewrite (proj2 (Z.leb_gt _ _)) by lia. reflexivity.
  - reflexivity.
  - replace (t mod 2 ^ 32) with (t + 2 ^ 32).
    + rewrite (proj2 (Z.leb_le _ _)) by lia. ring.
    + symmetry. rewrite <- (Z.mod_add t 1 (2 ^ 32)) by lia.
      apply Z.mod_small. lia.
Qed.

Lemma take_lat_lng (p : LatLng) (rest : list Z) :
  read_lat_lng (write_lat_lng p ++ rest) = Ok (stored_lat_lng p, rest).
Proof.
  unfold read_lat_lng, write_lat_lng. rewrite <- app_assoc.
  rewrite take_bytes_app by apply le_bytes_length. res_simpl.
  rewrite take_bytes_app by apply le_bytes_length. res_simpl.
  rewrite !lat_lon_roundtrip. reflexivity.
Qed.

Lemma compression_of_to (c : Compression.t) : Compression.of_u8 (Compression.to_u8 c) = Some c.
Proof. destruct c; reflexivity. Qed.

Lemma tile_type_of_to (x : TileType.t) : TileType.of_u8 (TileType.to_u8 x) = Some x.
Proof. destruct x; reflexivity. Qed.

Lemma lat_lng_length (p : LatLng) : List.length (write_lat_lng p) = 8%nat.
Proof. unfold write_lat_lng, write_lat_lon. rewrite length_app, !le_bytes_length. reflexivity. Qed.

Lemma to_writer_length (h : Header) (out : list Z) :
  to_writer h = Ok out -> List.length out = 127%nat.
Proof.
  unfold to_writer. destruct (negb _); [discriminate|]. intros Hw.
  injection Hw as <-. reflexivity.
Qed.

Lemma read_u8_cons_app (x : Z) (l r : list Z) :
  read_u8 ((x :: l) ++ r) = Ok (x, l ++ r).
Proof. reflexivity. Qed.

Ltac step := cbv beta iota delta [negb mbind result_mbind result_bind read_opt].

Lemma read_written (h : Header) (out : list Z) :
  header_valid h = true -> to_writer h = Ok out -> read out = Ok (with_stored_coords h).
Proof.
  intros Hv Hw. unfold header_valid in Hv.
  cbn [forallb u64_fields] in Hv.
  rewrite !andb_true_iff, !Z.leb_le, !Z.ltb_lt, Z.eqb_eq in Hv.
  repeat match goal with H : _ /\ _ |- _ => destruct H end.
  assert (Hver : spec_version h = 3) by assumption.
  unfold to_writer in Hw. rewrite Hver, Z.eqb_refl in Hw.
  apply (f_equal (fun r => match r with Ok x => x | Err _ => [] end)) in Hw.
  cbv beta iota delta [negb] in Hw. subst out.
  unfold read. rewrite take_bytes_app by reflexivity. step.
  rewrite bool_decide_eq_true_2 by reflexivity. step.
  rewrite read_u8_cons_app, app_nil_l. step.
  rewrite Z.eqb_refl. step.
  unfold u64_fields. cbn [map List.concat]. rewrite <- !app_assoc, app_nil_l.
  repeat (rewrite read_le_app by (change (8 * Z.of_nat 8) with 64; lia); step).
  rewrite read_u8_cons_app, app_nil_l. step.
  assert (Hb : read_bool (if clustered h then 1 else 0) = Ok (clustered h))
    by (destruct (clustered h); reflexivity).
  rewrite Hb. step.
  rewrite read_u8_cons_app, compression_of_to. step.
  rewrite read_u8_cons_app, compression_of_to. step.
  rewrite read_u8_cons_app, tile_type_of_to. step.
  rewrite read_u8_cons_app. step.
  rewrite read_u8_cons_app, app_nil_l. step.
  rewrite take_lat_lng. step.
  rewrite take_lat_lng. step.
  rewrite read_u8_cons_app, app_nil_l. step.
  rewrite <- (app_nil_r (write_lat_lng (center_pos h))).
  rewrite take_lat_lng. step.
  unfold with_stored_coords. rewrite Hver. reflexivity.
Qed.
End HeaderFacts.

(** Facts about the varint codec. *)
Module VarintFacts.
Import Varint.

Lemma lor_shift_add (acc v k : Z) :
  0 <= k -> 0 <= acc < 2 ^ k -> 0 <= v ->
  Z.lor acc (Z.shiftl v k) = acc + v * 2 ^ k.
Proof.
  intros Hk Hacc Hv. rewrite Z.shiftl_mul_pow2 by lia.
  assert (Hd : Z.land acc (v * 2 ^ k) = 0).
  { apply Z.bits_inj'; intros m Hm. rewrite Z.land_spec, Z.bits_0.
    destruct (Z.lt_ge_cases m k) as [Hlt|Hge].
    - rewrite Z.mul_pow2_bits_low by lia. apply andb_false_r.
    - assert (Ha : Z.testbit acc m = false).
      { rewrite <- (Z.mod_small acc (2 ^ k)) by lia.
        apply Z.mod_pow2_bits_high; lia. }
      rewrite Ha. reflexivity. }
  rewrite <- Z.lxor_lor by exact Hd.
  symmetry. apply Z.add_nocarry_lxor. exact Hd.
Qed.

Lemma land127 (b : Z) : Z.land b 127 = b mod 128.
Proof. change 127 with (Z.ones 7). rewrite Z.land_ones by lia. reflexivity. Qed.

Lemma lor128 (x : Z) : 0 <= x < 256 -> Z.lor 128 x = 128 + x mod 128.
Proof.
  intros Hx.
  assert (Hall : forallb (fun y => Z.lor 128 y =? 128 + y mod 128)
                   (map Z.of_nat (seq 0 256)) = true) by reflexivity.
  rewrite forallb_forall in Hall.
  apply Z.eqb_eq, Hall, in_map_iff. exists (Z.to_nat x).
  split; [lia | apply in_seq; lia].
Qed.

Lemma pow7_succ (i : nat) : 2 ^ (7 * Z.of_nat (S i)) = 2 ^ (7 * Z.of_nat i) * 128.
Proof.
  rewrite Nat2Z.inj_succ, Z.mul_succ_r, Z.pow_add_r by lia. reflexivity.
Qed.

(** Decoding what [enc_loop] wrote, from byte [i] of a varint on. *)
Lemma rv_enc (m : nat) (fuel : nat) :
  forall (j i : nat) (acc n : Z) (rest : list Z),
  (1 <= j)%nat -> (j <= S fuel)%nat -> (i + j <= m)%nat ->
  0 <= acc < 2 ^ (7 * Z.of_nat i) -> 0 <= n < 2 ^ (7 * Z.of_nat j) ->
  rv_loop m i acc (enc_loop fuel n ++ rest)
  = Ok (acc + n * 2 ^ (7 * Z.of_nat i), rest).
Proof.
  induction fuel as [|f IH]; intros j i acc n rest Hj1 Hjf Him Hacc Hn.
  - assert (j = 1%nat) by lia; subst j.
    simpl (enc_loop 0 n). simpl app. cbn [rv_loop].
    rewrite (proj2 (Nat.leb_gt m i)) by lia.
    change (7 * Z.of_nat 1) with 7 in Hn.
    rewrite land127, Z.mod_small by lia.
    rewrite lor_shift_add by lia.
    rewrite (proj2 (Z.ltb_lt n 128)) by lia. reflexivity.
  - cbn [enc_loop]. destruct (Z.leb_spec 128 n) as [Hbig|Hsmall].
    + assert (Hj2 : (2 <= j)%nat).
      { destruct (Nat.eq_dec j 1%nat) as [->|]; [|lia].
        change (7 * Z.of_nat 1) with 7 in Hn. lia. }
      pose proof (Z.mod_pos_bound n 256 ltac:(lia)) as Hm256.
      cbn [app rv_loop].
      rewrite (proj2 (Nat.leb_gt m i)) by lia.
      rewrite lor128 by lia.
      assert (Hmm : (n mod 256) mod 128 = n mod 128).
      { replace 256 with (128 * 2) by reflexivity.
        rewrite Z.rem_mul_r by lia.
        rewrite Z.mul_comm, Z.mod_add; [apply Z.mod_mod|]; lia. }
      pose proof (Z.mod_pos_bound n 128 ltac:(lia)) as Hm128.
      rewrite Hmm.
      rewrite (proj2 (Z.ltb_ge _ 128)) by lia.
      assert (Hlow : (128 + n mod 128) mod 128 = n mod 128).
      { replace (128 + n mod 128) with (n mod 128 + 1 * 128) by ring.
        rewrite Z.mod_add, Z.mod_mod by lia. reflexivity. }
      rewrite land127, Hlow.
      rewrite lor_shift_add by lia.
      rewrite Z.shiftr_div_pow2 by lia. change (2 ^ 7) with 128.
      pose proof (pow7_succ i) as Hp.
      assert (Hpos : 0 < 2 ^ (7 * Z.of_nat i)) by (apply Z.pow_pos_nonneg; lia).
      rewrite (IH (j - 1)%nat (S i)); [| lia | lia | lia | |].
      * f_equal. f_equal. rewrite Hp.
        rewrite (Z_div_mod_eq_full n 128) at 3. ring.
      * rewrite Hp. nia.
      * split; [apply Z.div_pos; lia|].
        apply Z.div_lt_upper_bound; [lia|].
        replace (7 * Z.of_nat j) with (7 * Z.of_nat (j - 1) + 7) in Hn by lia.
        rewrite Z.pow_add_r in Hn by lia. change (2 ^ 7) with 128 in Hn. lia.
    + simpl app. cbn [rv_loop].
      rewrite (proj2 (Nat.leb_gt m i)) by lia.
      rewrite land127, Z.mod_small by lia.
      rewrite lor_shift_add by lia.
      rewrite (proj2 (Z.ltb_lt n 128)) by lia. reflexivity.
Qed.

Lemma read_write_u64 (n : Z) (rest : list Z) :
  0 <= n < 2 ^ 64 -> read_varint_u64 (write_varint n ++ rest) = Ok (n, rest).
Proof.
  intros Hn. unfold read_varint_u64, write_varint.
  rewrite (rv_enc 10 10 10 0 0 n rest);
    [| lia | lia | lia | change (2 ^ (7 * Z.of_nat 0)) with 1; lia |].
  2: { split; [lia|]. apply Z.lt_le_trans with (2 ^ 64); [lia|].
       apply Z.pow_le_mono_r; lia. }
  cbn [mbind result_mbind result_bind].
  change (2 ^ (7 * Z.of_nat 0)) with 1.
  unfold u64. rewrite Z.add_0_l, Z.mul_1_r, Z.mod_small by lia. reflexivity.
Qed.

Lemma read_write_u32 (n : Z) (rest : list Z) :
  0 <= n < 2 ^ 32 -> read_varint_u32 (write_varint n ++ rest) = Ok (n, rest).
Proof.
  intros Hn. unfold read_varint_u32, write_varint.
  rewrite (rv_enc 5 10 5 0 0 n rest);
    [| lia | lia | lia | change (2 ^ (7 * Z.of_nat 0)) with 1; lia |].
  2: { split; [lia|]. apply Z.lt_le_trans with (2 ^ 32); [lia|].
       apply Z.pow_le_mono_r; lia. }
  cbn [mbind result_mbind result_bind].
  change (2 ^ (7 * Z.of_nat 0)) with 1.
  assert (H32 : 2 ^ 32 < 2 ^ 64) by reflexivity.
  unfold u64, u32. rewrite Z.add_0_l, Z.mul_1_r.
  rewrite (Z.mod_small n (2 ^ 64)), Z.mod_small by lia. reflexivity.
Qed.

(** Every decoded [u64] is below [2^64]. *)
Lemma read_u64_range (bs rest : list Z) (v : Z) :
  read_varint_u64 bs = Ok (v, rest) -> 0 <= v < 2 ^ 64.
Proof.
  unfold read_varint_u64. destruct (rv_loop 10 0 0 bs) as [[w r]|e]; simpl;
    [|discriminate].
  intros H; inversion H; subst. unfold u64. apply Z.mod_pos_bound. lia.
Qed.

Lemma read_u32_range (bs rest : list Z) (v : Z) :
  read_varint_u32 bs = Ok (v, rest) -> 0 <= v < 2 ^ 32.
Proof.
  unfold read_varint_u32. destruct (rv_loop 5 0 0 bs) as [[w r]|e]; simpl;
    [|discriminate].
  intros H; inversion H; subst. unfold u32. apply Z.mod_pos_bound. lia.
Qed.
End VarintFacts.

(** Facts about the directory codec. *)
Module DirectoryFacts.
Import Varint VarintFacts Directory.

Ltac res_simpl := cbn [mbind result_mbind result_bind] in *.

Lemma entry_in_range_spec (e : Entry) :
  entry_in_range e = true <->
  (0 <= tile_id e < 2 ^ 64 /\ 0 <= offset e < 2 ^ 64 /\
   0 <= length e < 2 ^ 32 /\ 0 <= run_length e < 2 ^ 32).
Proof.
  unfold entry_in_range. rewrite !andb_true_iff, !Z.leb_le, !Z.ltb_lt. tauto.
Qed.

Lemma read_ids_write (es : list Entry) :
  forall last rest, 0 <= last < 2 ^ 64 -> forallb entry_in_range es = true ->
  read_ids (List.length es) last (write_ids last es ++ rest)
  = Ok (map tile_id es, rest).
Proof.
  induction es as [|e es IH]; intros last rest Hl Hr; [reflexivity|].
  cbn [forallb] in Hr. apply andb_prop in Hr as [He Hr].
  apply entry_in_range_spec in He.
  cbn [read_ids write_ids List.length]. rewrite <- app_assoc.
  rewrite read_write_u64 by apply u64_range. res_simpl.
  assert (Hid : u64 (last + u64 (tile_id e - last)) = tile_id e).
  { unfold u64. rewrite Zplus_mod_idemp_r.
    replace (last + (tile_id e - last)) with (tile_id e) by ring.
    apply Z.mod_small; lia. }
  rewrite Hid, IH by (auto; lia). reflexivity.
Qed.

Lemma read_u32s_write (f : Entry -> Z) (es : list Entry) (rest : list Z) :
  Forall (fun e => 0 <= f e < 2 ^ 32) es ->
  read_u32s (List.length es) (List.concat (map (fun e => write_varint (f e)) es) ++ rest)
  = Ok (map f es, rest).
Proof.
  induction 1 as [|e es He Hes IH]; [reflexivity|].
  cbn [read_u32s List.length map List.concat]. rewrite <- app_assoc.
  rewrite read_write_u32 by exact He. res_simpl.
  rewrite IH. reflexivity.
Qed.

Definition is_first (p : option (Z * Z)) : bool :=
  match p with Some _ => false | Datatypes.None => true end.

Definition next_of (p : option (Z * Z)) : Z :=
  match p with Some (po, pl) => u64 (po + pl) | Datatypes.None => 0 end.

Lemma read_offsets_write (es : list Entry) :
  forall p rest, forallb entry_in_range es = true ->
  offsets_encodable_from p (map (fun e => (offset e, length e)) es) = true ->
  read_offsets p (map length es) (write_offsets (is_first p) (next_of p) es ++ rest)
  = Ok (map offset es, rest).
Proof.
  induction es as [|e es IH]; intros p rest Hr Henc; [reflexivity|].
  cbn [forallb] in Hr. apply andb_prop in Hr as [He Hr].
  apply entry_in_range_spec in He.
  cbn [map offsets_encodable_from] in Henc. apply andb_prop in Henc as [Hhd Htl].
  cbn [read_offsets write_offsets map]. rewrite <- app_assoc.
  set (val := if negb (is_first p) && (offset e =? next_of p) then 0
              else u64 (offset e + 1)).
  rewrite read_write_u64 by (unfold val; destruct (_ && _); [lia | apply u64_range]).
  res_simpl.
  assert (Hoff : match p with
                 | Some (po, pl) => if val =? 0 then u64 (po + pl) else u64 (val - 1)
                 | Datatypes.None => u64 (val - 1)
                 end = offset e).
  { unfold val. destruct p as [[po pl]|]; cbn [is_first next_of negb andb].
    - destruct (Z.eqb_spec (offset e) (u64 (po + pl))) as [Heq|Hne].
      + rewrite Z.eqb_refl. symmetry. exact Heq.
      + assert (Hmax : offset e <> 2 ^ 64 - 1).
        { intros Hm. destruct (orb_prop _ _ Hhd) as [H1|H1].
          - rewrite Hm, Z.eqb_refl in H1. discriminate.
          - discriminate. }
        rewrite (u64_small (offset e + 1)) by lia.
        rewrite (proj2 (Z.eqb_neq _ 0)) by lia.
        replace (offset e + 1 - 1) with (offset e) by ring.
        apply u64_small. lia.
    - unfold u64. rewrite Zminus_mod_idemp_l.
      replace (offset e + 1 - 1) with (offset e) by ring.
      apply Z.mod_small. lia. }
  rewrite Hoff.
  rewrite (IH (Some (offset e, length e))) by assumption.
  reflexivity.
Qed.

Lemma mk_entries_map (es : list Entry) :
  mk_entries (map tile_id es) (map run_length es) (map length es) (map offset es) = es.
Proof. induction es as [|[i o l r] es IH]; [reflexivity|]. cbn. rewrite IH. reflexivity. Qed.

Lemma in_range_forall (es : list Entry) (f : Entry -> Z) :
  forallb entry_in_range es = true ->
  (forall e, entry_in_range e = true -> 0 <= f e < 2 ^ 32) ->
  Forall (fun e => 0 <= f e < 2 ^ 32) es.
Proof.
  intros H Hf. apply Forall_forall. intros e Hin.
  apply Hf. rewrite forallb_forall in H. apply H, list_elem_of_In, Hin.
Qed.

(** Parsing the raw stream [to_writer_impl] writes gives the entries
    back. *)
Lemma parse_raw (es : list Entry) (rest : list Z) :
  forallb entry_in_range es = true -> Z.of_nat (List.length es) < 2 ^ 64 ->
  offsets_encodable es = true ->
  parse_directory (raw_directory es ++ rest) = Ok es.
Proof.
  intros Hr Hlen Henc. unfold parse_directory, raw_directory.
  rewrite <- !app_assoc.
  rewrite read_write_u64 by lia. res_simpl.
  rewrite Nat2Z.id.
  rewrite read_ids_write by (auto; lia). res_simpl.
  rewrite read_u32s_write
    by (apply in_range_forall; [exact Hr | intros e He; apply entry_in_range_spec in He; tauto]).
  res_simpl.
  rewrite read_u32s_write
    by (apply in_range_forall; [exact Hr | intros e He; apply entry_in_range_spec in He; tauto]).
  res_simpl.
  rewrite (read_offsets_write es Datatypes.None) by assumption. res_simpl.
  rewrite mk_entries_map. reflexivity.
Qed.

(** [to_writer] followed by [from_reader] over exactly the bytes written. *)
Lemma to_writer_from_reader (cx : Compression.t -> Codec) (c : Compression.t)
  (es : list Entry) (out rest : list Z) :
  (forall s, cdecode (cx c) (cencode (cx c) s) = Ok s) ->
  forallb entry_in_range es = true -> Z.of_nat (List.length es) < 2 ^ 64 ->
  offsets_encodable es = true ->
  to_writer_impl cx es c = Ok out ->
  from_reader_impl cx (out ++ rest) (Z.of_nat (List.length out)) c = Ok es.
Proof.
  intros Hcx Hr Hlen Henc Hw. unfold to_writer_impl, compress in Hw.
  unfold from_reader_impl. rewrite Nat2Z.id, take_app_length.
  destruct c; try discriminate; injection Hw as <-; unfold decompress;
    rewrite ?Hcx; res_simpl; rewrite <- (app_nil_r (raw_directory es));
    apply parse_raw; assumption.
Qed.

Ltac bind_inv H :=
  apply bind_ok in H as [[? ?] [? H]]; cbn beta iota zeta in H.

Lemma read_ids_spec (k : nat) :
  forall last bs ids r, read_ids k last bs = Ok (ids, r) ->
  List.length ids = k /\ Forall (fun v => 0 <= v < 2 ^ 64) ids.
Proof.
  induction k as [|k IH]; intros last bs ids r H; cbn [read_ids] in H.
  - injection H as <- <-. split; [reflexivity | constructor].
  - bind_inv H. bind_inv H. injection H as <- <-.
    match goal with Hr : read_ids k _ _ = Ok _ |- _ =>
      destruct (IH _ _ _ _ Hr) as [Hl Hf] end.
    split; [cbn; lia | constructor; [apply u64_range | exact Hf]].
Qed.

Lemma read_u32s_spec (k : nat) :
  forall bs vs r, read_u32s k bs = Ok (vs, r) ->
  List.length vs = k /\ Forall (fun v => 0 <= v < 2 ^ 32) vs.
Proof.
  induction k as [|k IH]; intros bs vs r H; cbn [read_u32s] in H.
  - injection H as <- <-. split; [reflexivity | constructor].
  - bind_inv H. bind_inv H. injection H as <- <-.
    match goal with Hr : read_u32s k _ = Ok _ |- _ =>
      destruct (IH _ _ _ Hr) as [Hl Hf] end.
    split; [cbn; lia | constructor; [eapply read_u32_range; eassumption | exact Hf]].
Qed.

Lemma read_offsets_spec (lens : list Z) :
  forall p bs offs r, read_offsets p lens bs = Ok (offs, r) ->
  List.length offs = List.length lens /\ Forall (fun v => 0 <= v < 2 ^ 64) offs /\
  offsets_encodable_from p (combine offs lens) = true.
Proof.
  induction lens as [|l lens IH]; intros p bs offs r H; cbn [read_offsets] in H.
  - injection H as <- <-. split; [reflexivity | split; [constructor | reflexivity]].
  - apply bind_ok in H as [[val bs1] [Hv H]]. cbn beta iota zeta in H.
    apply bind_ok in H as [[offs' bs2] [Hr H]]. cbn beta iota in H.
    injection H as <- <-.
    destruct (IH _ _ _ _ Hr) as [Hl [Hf He]].
    pose proof (read_u64_range _ _ _ Hv) as Hval.
    split; [cbn; lia|]. split; [constructor; [|exact Hf]|].
    + destruct p as [[po pl]|]; [destruct (val =? 0)|]; apply u64_range.
    + cbn [combine offsets_encodable_from]. rewrite He, andb_true_r.
      destruct p as [[po pl]|]; [|reflexivity].
      destruct (Z.eqb_spec val 0) as [H0|H0].
      * rewrite Z.eqb_refl, orb_true_r. reflexivity.
      * rewrite u64_small by lia.
        rewrite (proj2 (Z.eqb_neq (val - 1) (2 ^ 64 - 1))) by lia. reflexivity.
Qed.

Lemma mk_entries_spec (ids : list Z) :
  forall rls lens offs,
  List.length rls = List.length ids -> List.length lens = List.length ids ->
  List.length offs = List.length ids ->
  Forall (fun v => 0 <= v < 2 ^ 64) ids -> Forall (fun v => 0 <= v < 2 ^ 32) rls ->
  Forall (fun v => 0 <= v < 2 ^ 32) lens -> Forall (fun v => 0 <= v < 2 ^ 64) offs ->
  forallb entry_in_range (mk_entries ids rls lens offs) = true /\
  List.length (mk_entries ids rls lens offs) = List.length ids /\
  map (fun e => (offset e, length e)) (mk_entries ids rls lens offs) = combine offs lens.
Proof.
  induction ids as [|i ids IH]; intros rls lens offs H1 H2 H3 Fi Fr Fl Fo.
  - destruct lens, offs; try discriminate; cbn; auto.
  - destruct rls as [|r rls], lens as [|l lens], offs as [|o offs]; try discriminate.
    cbn [List.length] in H1, H2, H3.
    inversion Fi; inversion Fr; inversion Fl; inversion Fo; subst.
    destruct (IH rls lens offs) as [A [B C]]; try lia; try assumption.
    cbn [mk_entries forallb map combine List.length].
    rewrite A, B, C. split; [|split; reflexivity].
    rewrite andb_true_r. apply entry_in_range_spec. cbn. lia.
Qed.

(** Every directory [from_reader] returns can be written back. *)
Lemma from_reader_spec (cx : Compression.t -> Codec) (input : list Z) (len : Z)
  (c : Compression.t) (d : list Entry) :
  from_reader_impl cx input len c = Ok d ->
  forallb entry_in_range d = true /\ Z.of_nat (List.length d) < 2 ^ 64 /\
  offsets_encodable d = true.
Proof.
  intros H. unfold from_reader_impl in H.
  apply bind_ok in H as [bs [_ H]]. unfold parse_directory in H.
  apply bind_ok in H as [[n bs1] [Hn H]]. cbn beta iota in H.
  apply bind_ok in H as [[ids bs2] [Hi H]]. cbn beta iota in H.
  apply bind_ok in H as [[rls bs3] [Hr H]]. cbn beta iota in H.
  apply bind_ok in H as [[lens bs4] [Hl H]]. cbn beta iota in H.
  apply bind_ok in H as [[offs bs5] [Ho H]]. cbn beta iota in H.
  injection H as <-.
  pose proof (read_u64_range _ _ _ Hn) as Hnr.
  destruct (read_ids_spec _ _ _ _ _ Hi) as [Li Fi].
  destruct (read_u32s_spec _ _ _ _ Hr) as [Lr Fr].
  destruct (read_u32s_spec _ _ _ _ Hl) as [Ll Fl].
  destruct (read_offsets_spec _ _ _ _ _ Ho) as [Lo [Fo Eo]].
  destruct (mk_entries_spec ids rls lens offs) as [A [B C]]; try assumption; try lia.
  split; [exact A|]. split; [rewrite B, Li; lia|].
  unfold offsets_encodable. rewrite C. exact Eo.
Qed.
End DirectoryFacts.

(** Facts about the directory walk. *)
Module WalkFacts.
Import Walk.

Lemma insert_tiles_keys (r : RangeBounds) (e : Directory.Entry)
  (T : gmap Z OffsetLength) (k : Z) :
  is_Some (insert_tiles r e T !! k) <->
  is_Some (T !! k) \/ (In k (tile_id_range e) /\ contains r k = true).
Proof.
  unfold insert_tiles. generalize (tile_id_range e) as ks. intros ks.
  revert T. induction ks as [|a ks IH]; intros T; cbn [fold_left In].
  - tauto.
  - rewrite IH. destruct (contains r a) eqn:Ha.
    + rewrite lookup_insert_is_Some.
      destruct (decide (a = k)) as [->|Hne]; [tauto|]. intuition congruence.
    + destruct (decide (a = k)) as [->|Hne]; [|intuition congruence].
      rewrite Ha. intuition congruence.
Qed.

Lemma tile_id_range_bounds (e : Directory.Entry) (k : Z) :
  In k (tile_id_range e) -> Directory.tile_id e <= k < 2 ^ 64.
Proof.
  unfold tile_id_range. rewrite in_map_iff. intros [i [<- Hi]].
  apply in_seq in Hi. pose proof (u64_range (Directory.tile_id e + Directory.run_length e)).
  lia.
Qed.

Lemma contains_full (k : Z) : contains full_range k = true.
Proof. reflexivity. Qed.

(** A key the range contains is at most the inclusive end the walk
    prunes with. *)
Lemma contains_le_end (r : RangeBounds) (k : Z) :
  range_in_u64 r = true -> 0 <= k < 2 ^ 64 -> contains r k = true ->
  k <= default (2 ^ 64 - 1) (range_end_inc r).
Proof.
  unfold range_in_u64, contains, range_end_inc. cbv zeta. intros Hr Hk Hc.
  apply andb_prop in Hr as [_ He]. apply andb_prop in Hc as [_ Hc].
  destruct (end_bound r) as [v|v|]; cbn [default]; try lia.
  - apply Z.leb_le in Hc. exact Hc.
  - apply Z.ltb_lt in Hc. apply andb_prop in He as [H0 H1].
    apply Z.leb_le in H0. apply Z.ltb_lt in H1.
    rewrite u64_small; unfold id; lia.
Qed.

Section Walk.
Variable cx : Compression.t -> Codec.
Variable file : list Z.
Variable c : Compression.t.
Variable ldo : Z.

Lemma decoded_tile_ids (off len : Z) (es : list Directory.Entry) :
  Directory.from_reader_impl cx (drop (Z.to_nat off) file) len c = Ok es ->
  Forall (fun e => 0 <= Directory.tile_id e < 2 ^ 64) es.
Proof.
  intros H. destruct (DirectoryFacts.from_reader_spec _ _ _ _ _ H) as [Hr _].
  apply Forall_forall. intros e He. rewrite forallb_forall in Hr.
  apply list_elem_of_In in He. specialize (Hr e He).
  apply DirectoryFacts.entry_in_range_spec in Hr. tauto.
Qed.

(** The walk only adds keys, and under the order every added key is at
    least [lo], contained in the range and a [u64]. *)
Lemma walk_keys (r : RangeBounds) (fuel : nat) :
  forall T T' off len lo,
  read_dir_rec cx file c ldo r fuel T off len = Ok T' ->
  leaf_order_ok cx file c ldo fuel off len lo = true ->
  forall k, (is_Some (T !! k) -> is_Some (T' !! k)) /\
            (is_Some (T' !! k) -> is_Some (T !! k) \/
               (lo <= k /\ contains r k = true /\ k < 2 ^ 64)).
Proof.
  induction fuel as [|f IH]; intros T T' off len lo Hw Ho k; [discriminate|].
  cbn [read_dir_rec leaf_order_ok] in Hw, Ho.
  destruct (Directory.from_reader_impl cx _ len c) as [es|e] eqn:Hd; [|discriminate].
  cbn [mbind result_mbind result_bind] in Hw.
  pose proof (decoded_tile_ids _ _ _ Hd) as Hids.
  set (re := default (2 ^ 64 - 1) (range_end_inc r)) in Hw.
  clear Hd. revert T Hw. induction es as [|e es IHes]; intros T Hw.
  - injection Hw as <-. tauto.
  - cbn [forallb] in Ho. apply andb_prop in Ho as [He Ho].
    inversion Hids as [|? ? Hid Hids']; subst.
    cbn [for_entries] in Hw.
    destruct (Directory.is_leaf_dir_entry e).
    + destruct (re <? Directory.tile_id e).
      * apply IHes; assumption.
      * apply bind_ok in Hw as [T1 [Hrec Hw]].
        destruct (IH _ _ _ _ _ Hrec He k) as [M1 N1].
        destruct (IHes Ho Hids' T1 Hw) as [M2 N2].
        split; [tauto|]. intros Hk. destruct (N2 Hk) as [H1|H1]; [|right; tauto].
        destruct (N1 H1) as [H2|H2]; [left; exact H2|right; destruct H2 as (H2 & H3 & H4); repeat split; auto; lia].
    + destruct (IHes Ho Hids' _ Hw) as [M2 N2].
      apply Z.leb_le in He.
      rewrite insert_tiles_keys in M2, N2.
      split; [tauto|]. intros Hk.
      destruct (N2 Hk) as [[H1|[H1 H2]]|H1]; [tauto| |tauto].
      right. apply tile_id_range_bounds in H1. repeat split; auto; lia.
Qed.

(** Under the order, the walk filtered by [r] finds exactly the keys of
    the full walk that [r] contains. *)
Lemma walk_filter (r : RangeBounds) (Hr : range_in_u64 r = true) (fuel : nat) :
  forall T1 T1' T2 off len lo,
  read_dir_rec cx file c ldo full_range fuel T1 off len = Ok T1' ->
  leaf_order_ok cx file c ldo fuel off len lo = true ->
  (forall k, is_Some (T2 !! k) <-> is_Some (T1 !! k) /\ contains r k = true) ->
  exists T2', read_dir_rec cx file c ldo r fuel T2 off len = Ok T2' /\
    (forall k, is_Some (T2' !! k) <-> is_Some (T1' !! k) /\ contains r k = true).
Proof.
  induction fuel as [|f IH]; intros T1 T1' T2 off len lo Hw Ho Hrel; [discriminate|].
  cbn [read_dir_rec leaf_order_ok] in Hw, Ho |- *.
  destruct (Directory.from_reader_impl cx _ len c) as [es|e] eqn:Hd; [|discriminate].
  cbn [mbind result_mbind result_bind] in Hw |- *.
  pose proof (decoded_tile_ids _ _ _ Hd) as Hids.
  assert (Hre : forall k, 0 <= k < 2 ^ 64 -> contains r k = true ->
                k <= default (2 ^ 64 - 1) (range_end_inc r))
    by (intros; apply contains_le_end; auto).
  set (re := default (2 ^ 64 - 1) (range_end_inc r)) in Hre |- *.
  change (default (2 ^ 64 - 1) (range_end_inc full_range)) with (2 ^ 64 - 1) in Hw.
  clear Hd. revert T1 T2 Hw Hrel. induction es as [|e es IHes]; intros T1 T2 Hw Hrel.
  - injection Hw as <-. exists T2. auto.
  - cbn [forallb] in Ho. apply andb_prop in Ho as [He Ho].
    inversion Hids as [|? ? Hid Hids']; subst.
    cbn [for_entries] in Hw |- *.
    destruct (Directory.is_leaf_dir_entry e).
    + replace (2 ^ 64 - 1 <? Directory.tile_id e) with false in Hw
        by (symmetry; apply Z.ltb_ge; lia).
      apply bind_ok in Hw as [T1'' [Hrec Hw]].
      destruct (re <? Directory.tile_id e) eqn:Hlt.
      * apply Z.ltb_lt in Hlt.
        apply (IHes Ho Hids' T1''); [exact Hw|].
        intros k. rewrite Hrel.
        destruct (walk_keys _ _ _ _ _ _ _ Hrec He k) as [M N].
        split; [intros [H1 H2]; auto|].
        intros [H1 H2]. split; [|exact H2].
        destruct (N H1) as [H3|(H3 & _ & H4)]; [exact H3|].
        exfalso. assert (k <= re) by (apply Hre; auto; lia). lia.
      * destruct (IH _ _ _ _ _ _ Hrec He Hrel) as [T2'' [Hrec2 Hrel2]].
        rewrite Hrec2. cbn [mbind result_mbind result_bind].
        exact (IHes Ho Hids' _ _ Hw Hrel2).
    + apply (IHes Ho Hids' _ _ Hw).
      intros k. rewrite !insert_tiles_keys, Hrel, contains_full. tauto.
Qed.
End Walk.
End WalkFacts.

(** Facts about [write_directories]. *)
Module WriteDirsFacts.
Import WriteDirs.

Lemma enc_loop_length (f : nat) (n : Z) : (List.length (Varint.enc_loop f n) <= S f)%nat.
Proof.
  revert n. induction f as [|f IH]; intros n; cbn [Varint.enc_loop]; [cbn; lia|].
  destruct (128 <=? n); cbn [List.length]; [specialize (IH (Z.shiftr n 7)); lia|lia].
Qed.

Lemma write_varint_length (n : Z) : (List.length (Varint.write_varint n) <= 11)%nat.
Proof. apply enc_loop_length. Qed.

Lemma write_varint_nonempty (n : Z) : Varint.write_varint n <> [].
Proof.
  unfold Varint.write_varint. cbn [Varint.enc_loop]. destruct (128 <=? n); discriminate.
Qed.

(** A directory of at most one entry is at most 55 bytes raw. *)
Lemma raw_directory_small (es : list Directory.Entry) :
  (List.length es <= 1)%nat -> (List.length (Directory.raw_directory es) <= 55)%nat.
Proof.
  intros Hl. unfold Directory.raw_directory.
  destruct es as [|e [|e' es]]; cbn [List.length] in Hl; [| |lia].
  - cbn [Directory.write_ids Directory.write_offsets map List.concat].
    vm_compute. lia.
  - cbn [Directory.write_ids Directory.write_offsets map List.concat].
    rewrite !app_nil_r, !length_app.
    pose proof (write_varint_length (Z.of_nat (List.length [e]))).
    pose proof (write_varint_length (u64 (Directory.tile_id e - 0))).
    pose proof (write_varint_length (Directory.run_length e)).
    pose proof (write_varint_length (Directory.length e)).
    pose proof (write_varint_length
      (if negb true && (Directory.offset e =? 0) then 0 else u64 (Directory.offset e + 1))).
    lia.
Qed.

Lemma raw_directory_nonempty (es : list Directory.Entry) : Directory.raw_directory es <> [].
Proof.
  unfold Directory.raw_directory. pose proof (write_varint_nonempty (Z.of_nat (List.length es))).
  destruct (Varint.write_varint _); [congruence|discriminate].
Qed.

Lemma compress_err (cx : Compression.t -> Codec) (c : Compression.t) (d : list Z) (e : io_error) :
  compress cx c d = Err e -> e = UnknownCompression.
Proof. destruct c; cbn; congruence. Qed.

Lemma chunks_aux_short {A} (f n : nat) (l : list A) :
  (0 < n)%nat -> (List.length l <= n)%nat -> (List.length (chunks_aux f n l) <= 1)%nat.
Proof.
  intros Hn Hl. destruct f as [|f]; cbn; [lia|]. destruct l as [|a l]; cbn; [lia|].
  rewrite drop_ge by exact Hl. destruct f; cbn; lia.
Qed.

Lemma chunks_first {A} (n : nat) (l : list A) :
  (0 < n)%nat -> l <> [] -> exists rest, chunks n l = take n l :: rest /\ take n l <> [].
Proof.
  intros Hn Hl. destruct l as [|a l]; [congruence|].
  unfold chunks. cbn [List.length chunks_aux]. eexists. split; [reflexivity|].
  destruct n; [lia|]. discriminate.
Qed.

Section Leaves.
Variable cx : Compression.t -> Codec.
Variable c : Compression.t.

Lemma write_leaves_spec (chs : list (list Directory.Entry)) :
  forall re lb re' lb',
  write_leaves cx c chs re lb = Ok (re', lb') ->
  (List.length re' <= List.length re + List.length chs)%nat /\ exists s, lb' = lb ++ s.
Proof.
  induction chs as [|ch chs IH]; intros re lb re' lb' Hw; cbn [write_leaves] in Hw.
  - injection Hw as <- <-. split; [lia|]. exists []. by rewrite app_nil_r.
  - case_bool_decide.
    + destruct (IH _ _ _ _ Hw) as [H1 H2]. cbn [List.length]. split; [lia|exact H2].
    + apply bind_ok in Hw as [bytes [_ Hw]].
      destruct (IH _ _ _ _ Hw) as [H1 [s Hs]]. rewrite length_app in H1.
      cbn [List.length] in *. split; [lia|]. exists (bytes ++ s).
      by rewrite Hs, app_assoc.
Qed.

Lemma write_leaves_err (chs : list (list Directory.Entry)) :
  forall re lb e, write_leaves cx c chs re lb = Err e -> e = UnknownCompression.
Proof.
  induction chs as [|ch chs IH]; intros re lb e Hw; cbn [write_leaves] in Hw;
    [discriminate|].
  case_bool_decide; [eauto|].
  destruct (Directory.to_writer_impl cx ch c) as [bytes|e'] eqn:Hb.
  - cbn [mbind result_mbind result_bind] in Hw. eauto.
  - cbn [mbind result_mbind result_bind] in Hw. injection Hw as <-.
    exact (compress_err _ _ _ _ Hb).
Qed.

Hypothesis compress_nonempty :
  forall data out, data <> [] -> compress cx c data = Ok out -> out <> [].

Lemma write_leaves_nonempty (chs : list (list Directory.Entry)) :
  forall re lb re' lb',
  (exists ch, In ch chs /\ ch <> []) ->
  write_leaves cx c chs re lb = Ok (re', lb') -> lb' <> [].
Proof.
  induction chs as [|ch chs IH]; intros re lb re' lb' [ch0 [Hin Hne]] Hw;
    [destruct Hin|].
  cbn [write_leaves] in Hw. destruct Hin as [<-|Hin].
  - rewrite bool_decide_false in Hw by exact Hne.
    apply bind_ok in Hw as [bytes [Hb Hw]].
    destruct (write_leaves_spec _ _ _ _ _ Hw) as [_ [s ->]].
    apply compress_nonempty in Hb; [|apply raw_directory_nonempty].
    destruct bytes; [congruence|]. destruct lb; discriminate.
  - case_bool_decide.
    + eapply IH; eauto.
    + apply bind_ok in Hw as [bytes [_ Hw]]. eapply IH; eauto.
Qed.
End Leaves.

Section Loop.
Variable cx : Compression.t -> Codec.
Variable c : Compression.t.
Variable all_entries : list Directory.Entry.

(** The codec turns a directory of at most 64 bytes into one that fits
    the root, and non-empty input into non-empty output. *)
Hypothesis compress_small : forall data out, (List.length data <= 64)%nat ->
  compress cx c data = Ok out -> Z.of_nat (List.length out) <= MAX_ROOT_DIR_LENGTH.
Hypothesis compress_nonempty :
  forall data out, data <> [] -> compress cx c data = Ok out -> out <> [].

Lemma leaf_pass_err (ls : Z) (e : io_error) :
  leaf_pass cx all_entries c ls = Err e -> e = ChunkSizeZero \/ e = UnknownCompression.
Proof.
  unfold leaf_pass. destruct (ls =? 0); [intros H; injection H as <-; auto|].
  destruct (write_leaves cx c _ [] []) as [[re lb]|e'] eqn:Hw;
    cbn [mbind result_mbind result_bind].
  - destruct (Directory.to_writer_impl cx re c) as [root|e''] eqn:Hr;
      cbn [mbind result_mbind result_bind]; [discriminate|].
    intros H; injection H as <-. right. exact (compress_err _ _ _ _ Hr).
  - intros H; injection H as <-. right. exact (write_leaves_err _ _ _ _ _ _ Hw).
Qed.

Lemma leaf_pass_ok (ls : Z) (root leaf : list Z) :
  leaf_pass cx all_entries c ls = Ok (root, leaf) ->
  ls <> 0 /\ exists re,
    write_leaves cx c (chunks (Z.to_nat ls) all_entries) [] [] = Ok (re, leaf) /\
    Directory.to_writer_impl cx re c = Ok root.
Proof.
  unfold leaf_pass. destruct (Z.eqb_spec ls 0); [discriminate|].
  destruct (write_leaves cx c _ [] []) as [[re lb]|e'] eqn:Hw;
    cbn [mbind result_mbind result_bind]; [|discriminate].
  destruct (Directory.to_writer_impl cx re c) as [root'|e''] eqn:Hr;
    cbn [mbind result_mbind result_bind]; [|discriminate].
  intros H; injection H as <- <-. split; [assumption|]. eauto.
Qed.

(** A chunk size of at least the number of entries makes a root of one
    leaf pointer, which fits. *)
Lemma leaf_pass_fits (ls : Z) (root leaf : list Z) :
  (List.length all_entries <= Z.to_nat ls)%nat ->
  leaf_pass cx all_entries c ls = Ok (root, leaf) ->
  Z.of_nat (List.length root) <= MAX_ROOT_DIR_LENGTH.
Proof.
  intros Hl Hp. destruct (leaf_pass_ok _ _ _ Hp) as [Hne [re [Hw Hr]]].
  apply (compress_small (Directory.raw_directory re)); [|exact Hr].
  destruct (write_leaves_spec _ _ _ _ _ _ _ Hw) as [Hre _].
  pose proof (chunks_aux_short (List.length all_entries) (Z.to_nat ls) all_entries).
  unfold chunks in Hre. cbn [List.length] in Hre.
  assert (List.length re <= 1)%nat.
  { destruct (Nat.eq_dec (Z.to_nat ls) 0%nat) as [E|E]; [|lia].
    rewrite E in Hl. replace (List.length all_entries) with 0%nat in Hre by lia.
    cbn in Hre. lia. }
  pose proof (raw_directory_small re ltac:(assumption)). lia.
Qed.

Lemma leaf_pass_nonempty (ls : Z) (root leaf : list Z) :
  0 <= ls -> all_entries <> [] ->
  leaf_pass cx all_entries c ls = Ok (root, leaf) -> leaf <> [].
Proof.
  intros Hls Hall Hp. destruct (leaf_pass_ok _ _ _ Hp) as [Hne [re [Hw _]]].
  destruct (chunks_first (Z.to_nat ls) all_entries) as [rest [Hch Hfirst]];
    [lia|exact Hall|].
  rewrite Hch in Hw. eapply (write_leaves_nonempty cx c compress_nonempty); [|exact Hw].
  exists (take (Z.to_nat ls) all_entries). split; [left; reflexivity|exact Hfirst].
Qed.

Lemma leaf_loop_terminates (k : nat) :
  forall ls, 0 < ls < 2 ^ 64 ->
  Z.of_nat (List.length all_entries) <= ls * 2 ^ Z.of_nat k ->
  Z.of_nat (List.length all_entries) < 2 ^ 63 ->
  leaf_loop cx all_entries c (S k) ls <> Err OutOfFuel.
Proof.
  induction k as [|k IH]; intros ls Hls Hk Hn; cbn [leaf_loop].
  - destruct (leaf_pass cx all_entries c ls) as [[root leaf]|e] eqn:Hp;
      cbn [mbind result_mbind result_bind].
    + rewrite (proj2 (Z.leb_le _ _)); [discriminate|].
      apply (leaf_pass_fits ls root leaf); [|exact Hp]. cbn in Hk. lia.
    + intros H; injection H as ->. destruct (leaf_pass_err _ _ Hp); discriminate.
  - destruct (leaf_pass cx all_entries c ls) as [[root leaf]|e] eqn:Hp;
      cbn [mbind result_mbind result_bind].
    + destruct (Z.leb_spec (Z.of_nat (List.length root)) MAX_ROOT_DIR_LENGTH);
        [discriminate|].
      assert (Hsmall : Z.of_nat (List.length all_entries) > ls).
      { destruct (Z_gt_le_dec (Z.of_nat (List.length all_entries)) ls) as [?|Hle];
          [assumption|].
        exfalso. pose proof (leaf_pass_fits ls root leaf ltac:(lia) Hp). lia. }
      rewrite (u64_small (ls * 2)) by lia. apply IH; [lia| |exact Hn].
      rewrite Nat2Z.inj_succ, Z.pow_succ_r in Hk by lia. lia.
    + intros H; injection H as ->. destruct (leaf_pass_err _ _ Hp); discriminate.
Qed.

Lemma u64_double (ls : Z) (k : nat) :
  u64 (u64 (ls * 2) * 2 ^ Z.of_nat k) = u64 (ls * 2 ^ Z.of_nat (S k)).
Proof.
  unfold u64. rewrite Zmult_mod_idemp_l, Nat2Z.inj_succ, Z.pow_succ_r by lia.
  f_equal. ring.
Qed.

(** The loop returns the pass of the first chunk size [start * 2^k]
    whose root fits. *)
Lemma leaf_loop_result (fuel : nat) :
  forall ls root leaf, 0 <= ls < 2 ^ 64 ->
  leaf_loop cx all_entries c fuel ls = Ok (root, leaf) ->
  exists k,
    leaf_pass cx all_entries c (u64 (ls * 2 ^ Z.of_nat k)) = Ok (root, leaf) /\
    Z.of_nat (List.length root) <= MAX_ROOT_DIR_LENGTH /\
    forall j, (j < k)%nat -> exists root' leaf',
      leaf_pass cx all_entries c (u64 (ls * 2 ^ Z.of_nat j)) = Ok (root', leaf') /\
      MAX_ROOT_DIR_LENGTH < Z.of_nat (List.length root').
Proof.
  induction fuel as [|f IH]; intros ls root leaf Hls Hl; cbn [leaf_loop] in Hl;
    [discriminate|].
  destruct (leaf_pass cx all_entries c ls) as [[root0 leaf0]|e] eqn:Hp;
    cbn [mbind result_mbind result_bind] in Hl; [|discriminate].
  destruct (Z.leb_spec (Z.of_nat (List.length root0)) MAX_ROOT_DIR_LENGTH).
  - injection Hl as <- <-. exists 0%nat.
    rewrite Z.mul_1_r, u64_small by lia. split; [exact Hp|]. split; [assumption|lia].
  - destruct (IH _ _ _ (u64_range _) Hl) as [k [Hk [Hfit Hbefore]]].
    exists (S k). rewrite <- u64_double. split; [exact Hk|]. split; [exact Hfit|].
    intros [|j] Hj.
    + exists root0, leaf0. rewrite Z.mul_1_r, u64_small by lia. auto.
    + rewrite <- u64_double. apply Hbefore. lia.
Qed.
End Loop.
End WriteDirsFacts.

(** Facts about the tile manager. *)
Module TileManagerFacts.
Import TileManager Directory.

(** Two consecutive entries of a finished directory. *)
Definition apart (e1 e2 : Entry) : Prop :=
  ~ (tile_id e2 = tile_id e1 + run_length e1 /\ offset e2 = offset e1 /\
     length e2 = length e1) /\
  tile_id e1 < tile_id e2 /\ tile_id e1 + run_length e1 <= tile_id e2.

Fixpoint pairs_ok (es : list Entry) : Prop :=
  match es with
  | e1 :: ((e2 :: _) as rest) => apart e1 e2 /\ pairs_ok rest
  | _ => True
  end.

Fixpoint last_entry (es : list Entry) : option Entry :=
  match es with [] => Datatypes.None | [e] => Some e | _ :: es' => last_entry es' end.

(** One past the last id pushed into [e]: a run length [0] has wrapped
    from [2^32]. *)
Definition covered_end (e : Entry) : Z :=
  tile_id e + (if run_length e =? 0 then 2 ^ 32 else run_length e).

Definition last_ok (l : Entry) (k : Z) : Prop :=
  0 <= tile_id l /\ 0 <= run_length l < 2 ^ 32 /\ covered_end l <= k.

Lemma pairs_ok_cons (e : Entry) (es : list Entry) :
  pairs_ok (e :: es) <->
  match es with [] => True | e2 :: _ => apart e e2 end /\ pairs_ok es.
Proof. destruct es; cbn; tauto. Qed.

Lemma push_entry_head (e : Entry) (es : list Entry) (k o len : Z) :
  exists e' rest, push_entry (e :: es) k o len = e' :: rest /\
    tile_id e' = tile_id e /\ offset e' = offset e /\ length e' = length e.
Proof.
  destruct es as [|e2 es]; cbn [push_entry].
  - destruct (_ && _ && _); do 2 eexists; (split; [reflexivity|cbn; auto]).
  - do 2 eexists; (split; [reflexivity|cbn; auto]).
Qed.

Lemma push_entry_ok (es : list Entry) (k o len : Z) :
  pairs_ok es ->
  (forall l, last_entry es = Some l -> last_ok l k) ->
  0 <= k < 2 ^ 64 ->
  pairs_ok (push_entry es k o len) /\
  exists l', last_entry (push_entry es k o len) = Some l' /\
    0 <= tile_id l' /\ 0 <= run_length l' < 2 ^ 32 /\ covered_end l' = k + 1.
Proof.
  intros Hp Hl Hk. induction es as [|e es IH].
  - cbn. split; [exact I|]. eexists. split; [reflexivity|].
    unfold covered_end. cbn. lia.
  - destruct es as [|e2 es].
    + specialize (Hl e eq_refl). destruct Hl as (Ht & Hr & Hc).
      unfold covered_end in Hc. cbn [push_entry].
      destruct ((k =? u64 (tile_id e + run_length e)) && (offset e =? o)
                && (length e =? len)) eqn:Hcond.
      * (* the run continues *)
        apply andb_true_iff in Hcond as [Hcond Hn]. apply andb_true_iff in Hcond as [Hm Ho].
        apply Z.eqb_eq in Hm.
        destruct (Z.eqb_spec (run_length e) 0) as [Hr0|Hr0].
        { rewrite Hr0, Z.add_0_r, u64_small in Hm by lia. lia. }
        rewrite u64_small in Hm by lia.
        cbn. split; [exact I|]. eexists. split; [reflexivity|]. cbn.
        unfold u32. assert (0 <= run_length e + 1 <= 2 ^ 32) by lia.
        destruct (Z.eq_dec (run_length e + 1) (2 ^ 32)) as [E|E].
        -- rewrite E, Z_mod_same_full. unfold covered_end. cbn. lia.
        -- rewrite Z.mod_small by lia. unfold covered_end. cbn.
           destruct (Z.eqb_spec (run_length e + 1) 0); lia.
      * (* a new entry *)
        cbn. split.
        { split; [|exact I]. unfold apart; cbn.
          split; [|destruct (Z.eqb_spec (run_length e) 0); lia].
          intros (H1 & H2 & H3). subst o len.
          rewrite !Z.eqb_refl, !andb_true_r in Hcond. apply Z.eqb_neq in Hcond.
          destruct (Z.eqb_spec (run_length e) 0); [lia|].
          rewrite u64_small in Hcond by lia. lia. }
        eexists. split; [reflexivity|]. unfold covered_end. cbn. lia.
    + change (push_entry (e :: e2 :: es) k o len) with (e :: push_entry (e2 :: es) k o len).
      apply pairs_ok_cons in Hp as [Hap Hp].
      destruct (IH Hp Hl) as [Hp' Hl'].
      destruct (push_entry_head e2 es k o len) as (e' & rest & Hpush & H1 & H2 & H3).
      rewrite Hpush in Hp', Hl' |- *. split; [|exact Hl'].
      apply pairs_ok_cons. split; [|exact Hp'].
      unfold apart in *. rewrite H1, H2, H3. exact Hap.
Qed.

Lemma pairs_ok_lookup (es : list Entry) :
  pairs_ok es -> forall i e1 e2, es !! i = Some e1 -> es !! S i = Some e2 -> apart e1 e2.
Proof.
  induction es as [|e es IH]; intros Hp i e1 e2 H1 H2; [discriminate|].
  apply pairs_ok_cons in Hp as [Hh Hp]. destruct i as [|i].
  - cbn in H1, H2. injection H1 as <-. destruct es; [discriminate|].
    cbn in H2. injection H2 as <-. exact Hh.
  - exact (IH Hp i e1 e2 H1 H2).
Qed.

#[local] Instance key_le_trans : Transitive key_le.
Proof. intros [a ?] [b ?] [c ?]. unfold key_le. cbn. lia. Qed.
#[local] Instance key_le_total : Total key_le.
Proof. intros [a ?] [b ?]. unfold key_le. cbn. lia. Qed.

Lemma strictly_sorted (l : list (Z * TileManagerTile)) :
  StronglySorted key_le l -> NoDup l.*1 ->
  StronglySorted (fun p q : Z * TileManagerTile => p.1 < q.1) l.
Proof.
  induction l as [|a l IH]; intros Hs Hnd; [constructor|].
  inversion Hs as [|? ? Hs' Hf]; subst. cbn in Hnd. apply NoDup_cons in Hnd as [Hn Hnd].
  constructor; [auto|]. apply Forall_forall. intros q Hq.
  rewrite Forall_forall in Hf. specialize (Hf q Hq). unfold key_le in Hf.
  assert (a.1 <> q.1); [|lia].
  intros E. apply Hn. rewrite E. apply list_elem_of_fmap. eauto.
Qed.

(** The list [finish] walks: ids strictly increasing, all [u64]. *)
Lemma id_tile_sorted (m : TileManager) :
  ids_in_u64 m ->
  StronglySorted (fun p q : Z * TileManagerTile => p.1 < q.1)
    (merge_sort key_le (map_to_list (tile_by_id m))) /\
  Forall (fun p : Z * TileManagerTile => 0 <= p.1 < 2 ^ 64)
    (merge_sort key_le (map_to_list (tile_by_id m))).
Proof.
  intros Hm. pose proof (merge_sort_Permutation key_le (map_to_list (tile_by_id m))) as Hperm.
  split.
  - apply strictly_sorted.
    { apply StronglySorted_merge_sort; [apply key_le_trans|apply key_le_total]. }
    rewrite Hperm. apply NoDup_fst_map_to_list.
  - apply Forall_forall. intros [k t] Hin. rewrite Hperm in Hin.
    apply elem_of_map_to_list in Hin. exact (Hm k t Hin).
Qed.

Section Hashing.
Variable calculate_hash : list Z -> Z.

Lemma finish_step_entries (m : TileManager) (st st' : FinishState)
  (k : Z) (t : TileManagerTile) :
  finish_step calculate_hash m st (k, t) = Ok st' ->
  entries st' = entries st \/
  exists o len, entries st' = push_entry (entries st) k o len.
Proof.
  unfold finish_step. intros H. apply bind_ok in H as [content [_ H]].
  destruct content as [tile_data|]; [|injection H as <-; auto].
  destruct (offset_length_map st !! _) as [[o len]|];
    injection H as <-; cbn; right; eauto.
Qed.

Lemma finish_loop_pairs (m : TileManager) (l : list (Z * TileManagerTile)) :
  forall st st',
  StronglySorted (fun p q : Z * TileManagerTile => p.1 < q.1) l ->
  Forall (fun p : Z * TileManagerTile => 0 <= p.1 < 2 ^ 64) l ->
  pairs_ok (entries st) ->
  (forall le, last_entry (entries st) = Some le ->
              Forall (fun p : Z * TileManagerTile => last_ok le p.1) l) ->
  finish_loop calculate_hash m l st = Ok st' -> pairs_ok (entries st').
Proof.
  induction l as [|[k t] l IH]; intros st st' Hs Hr Hp Hl Hloop; cbn [finish_loop] in Hloop.
  - injection Hloop as <-. exact Hp.
  - apply bind_ok in Hloop as [st1 [Hstep Hloop]].
    inversion Hs as [|? ? Hs' Hf]; subst. inversion Hr as [|? ? Hk Hr']; subst.
    apply (IH st1 st' Hs' Hr'); [| |exact Hloop];
      destruct (finish_step_entries _ _ _ _ _ Hstep) as [He|(o & len & He)];
      rewrite He.
    + exact Hp.
    + refine (proj1 (push_entry_ok _ _ _ _ Hp _ Hk)).
      intros le Hle. specialize (Hl le Hle). inversion Hl; assumption.
    + intros le Hle. specialize (Hl le Hle). inversion Hl; assumption.
    + intros le Hle.
      destruct (push_entry_ok (entries st) k o len Hp) as [_ (l' & Hl' & H1 & H2 & H3)];
        [|exact Hk|].
      { intros le' Hle'. specialize (Hl le' Hle'). inversion Hl; assumption. }
      rewrite Hl' in Hle. injection Hle as <-.
      rewrite Forall_forall in Hf |- *. intros q Hq. specialize (Hf q Hq).
      cbn in Hf. unfold last_ok. lia.
Qed.
End Hashing.

Section Ops.
Variable calculate_hash : list Z -> Z.

Lemma remove_tile_ids (m : TileManager) (id : Z) :
  tile_by_id (fst (remove_tile m id)) = delete id (tile_by_id m).
Proof.
  unfold remove_tile. destruct (tile_by_id m !! id) as [[h|o l]|] eqn:Hid.
  - case_bool_decide; reflexivity.
  - reflexivity.
  - cbn. symmetry. apply delete_id. exact Hid.
Qed.

Lemma apply_op_ids (m : TileManager) (o : op) (id : Z) :
  op_tile_id o <> id ->
  tile_by_id (apply_op calculate_hash m o) !! id = tile_by_id m !! id.
Proof.
  intros Hne. destruct o as [id' d|id' off len|id']; cbn in Hne |- *.
  - unfold add_tile. cbn. rewrite lookup_insert_ne by congruence.
    rewrite remove_tile_ids, lookup_delete_ne by congruence. reflexivity.
  - rewrite lookup_insert_ne by congruence. reflexivity.
  - rewrite remove_tile_ids, lookup_delete_ne by congruence. reflexivity.
Qed.

Lemma run_ops_ids (ops : list op) :
  forall (m : TileManager) (id : Z),
  Forall (fun o => op_tile_id o <> id) ops ->
  tile_by_id (run_ops calculate_hash m ops) !! id = tile_by_id m !! id.
Proof.
  induction ops as [|o ops IH]; intros m id Hops; [reflexivity|].
  inversion Hops as [|? ? Ho Hops']; subst.
  change (run_ops calculate_hash m (o :: ops))
    with (run_ops calculate_hash (apply_op calculate_hash m o) ops).
  rewrite (IH _ _ Hops'). apply apply_op_ids. exact Ho.
Qed.
End Ops.
End TileManagerFacts.


(** Facts for the deduplication done by [finish]. *)
Module DedupFacts.
Import TileManager Directory.

(** Every stored byte vector sits under its own hash. *)
Definition data_hashed (calculate_hash : list Z -> Z) (m : TileManager) : Prop :=
  map_Forall (fun k D => calculate_hash D = k) (data_by_hash m).

(** The tile [a] refers to the hash [hB], is listed under it, and bytes
    are stored for it. *)
Definition holds_tile (m : TileManager) (a hB : Z) : Prop :=
  tile_by_id m !! a = Some (Hash hB) /\ a ∈ default ∅ (ids_by_hash m !! hB) /\
  is_Some (data_by_hash m !! hB).

(** Entries of a directory under construction: ids from [0], run
    lengths from [1] to [n], every run ending at most at [k]. *)
Definition entries_ok (es : list Entry) (n k : Z) : Prop :=
  forall e, e ∈ es ->
  0 <= tile_id e /\ 1 <= run_length e <= n /\ tile_id e + run_length e <= k.

Lemma entries_ok_mono (es : list Entry) (n n' k k' : Z) :
  entries_ok es n k -> n <= n' -> k <= k' -> entries_ok es n' k'.
Proof. intros H Hn Hk e He. specialize (H e He). lia. Qed.

Lemma run_ops_app (calculate_hash : list Z -> Z) (m : TileManager) (ops1 ops2 : list op) :
  run_ops calculate_hash m (ops1 ++ ops2) =
  run_ops calculate_hash (run_ops calculate_hash m ops1) ops2.
Proof. unfold run_ops. apply fold_left_app. Qed.

(** [push_entry] keeps every run it had (a run may grow), and the pushed
    id lies in a run with the pushed offset and length. *)
Lemma push_entry_cover (es : list Entry) (n k0 k o len : Z) :
  entries_ok es n k0 -> k0 <= k -> 0 <= k < 2 ^ 64 -> 0 <= n -> n + 1 < 2 ^ 32 ->
  entries_ok (push_entry es k o len) (n + 1) (k + 1) /\
  (forall e, e ∈ es -> exists e', e' ∈ push_entry es k o len /\
     tile_id e' = tile_id e /\ run_length e <= run_length e' /\
     offset e' = offset e /\ length e' = length e) /\
  (exists e', e' ∈ push_entry es k o len /\
     tile_id e' <= k < tile_id e' + run_length e' /\ offset e' = o /\ length e' = len).
Proof.
  intros Hok Hk0 Hk Hn Hn1. induction es as [|e es IH].
  - cbn. split; [|split].
    + intros e He. apply list_elem_of_singleton in He. subst e. cbn. lia.
    + intros e He. inversion He.
    + eexists. split; [apply list_elem_of_singleton; reflexivity|]. cbn. lia.
  - destruct es as [|e2 es].
    + assert (He : e ∈ [e]) by (apply list_elem_of_singleton; reflexivity).
      destruct (Hok e He) as (Ht & Hr & Hend). cbn [push_entry].
      destruct ((k =? u64 (tile_id e + run_length e)) && (offset e =? o)
                && (length e =? len)) eqn:Hcond.
      * apply andb_true_iff in Hcond as [Hcond Hl]. apply andb_true_iff in Hcond as [Hm Ho].
        apply Z.eqb_eq in Hm, Ho, Hl. rewrite u64_small in Hm by lia.
        assert (Hu : u32 (run_length e + 1) = run_length e + 1)
          by (unfold u32; apply Z.mod_small; lia).
        split; [|split].
        -- intros e' He'. apply list_elem_of_singleton in He'. subst e'. cbn. lia.
        -- intros e' He'. apply list_elem_of_singleton in He'. subst e'.
           eexists. split; [apply list_elem_of_singleton; reflexivity|]. cbn. lia.
        -- eexists. split; [apply list_elem_of_singleton; reflexivity|]. cbn. lia.
      * split; [|split].
        -- intros e' He'. apply elem_of_cons in He' as [->|He'];
             [lia|apply list_elem_of_singleton in He'; subst e'; cbn; lia].
        -- intros e' He'. apply list_elem_of_singleton in He'. subst e'.
           exists e. split; [apply elem_of_cons; left; reflexivity|]. lia.
        -- eexists. split; [apply elem_of_cons; right; apply list_elem_of_singleton; reflexivity|].
           cbn. lia.
    + change (push_entry (e :: e2 :: es) k o len) with (e :: push_entry (e2 :: es) k o len).
      destruct IH as (IH1 & IH2 & IH3).
      { intros e' He'. apply Hok. apply elem_of_cons. right. exact He'. }
      assert (He : e ∈ e :: e2 :: es) by (apply elem_of_cons; left; reflexivity).
      destruct (Hok e He) as (Ht & Hr & Hend).
      split; [|split].
      * intros e' He'. apply elem_of_cons in He' as [->|He']; [lia|exact (IH1 e' He')].
      * intros e' He'. apply elem_of_cons in He' as [->|He'].
        -- exists e. split; [apply elem_of_cons; left; reflexivity|]. lia.
        -- destruct (IH2 e' He') as (e'' & Hin & H). exists e''.
           split; [apply elem_of_cons; right; exact Hin|exact H].
      * destruct IH3 as (e'' & Hin & H). exists e''.
        split; [apply elem_of_cons; right; exact Hin|exact H].
Qed.

Section Ops.
Variable calculate_hash : list Z -> Z.

Lemma remove_tile_data_hashed (m : TileManager) (id : Z) :
  data_hashed calculate_hash m -> data_hashed calculate_hash (fst (remove_tile m id)).
Proof.
  intros H. unfold remove_tile.
  destruct (tile_by_id m !! id) as [[h|o l]|]; cbv zeta; [case_bool_decide|..];
    cbn [fst]; try exact H.
  apply map_Forall_delete. exact H.
Qed.

Lemma apply_op_data_hashed (m : TileManager) (o : op) :
  data_hashed calculate_hash m -> data_hashed calculate_hash (apply_op calculate_hash m o).
Proof.
  intros H. destruct o as [id d|id off len|id]; cbn.
  - unfold add_tile, data_hashed. cbv zeta. cbn [data_by_hash].
    apply map_Forall_insert_2; [reflexivity|]. apply remove_tile_data_hashed, H.
  - exact H.
  - apply remove_tile_data_hashed, H.
Qed.

Lemma run_ops_data_hashed (ops : list op) :
  forall m, data_hashed calculate_hash m ->
  data_hashed calculate_hash (run_ops calculate_hash m ops).
Proof.
  induction ops as [|o ops IH]; intros m H; [exact H|].
  change (run_ops calculate_hash m (o :: ops))
    with (run_ops calculate_hash (apply_op calculate_hash m o) ops).
  apply IH, apply_op_data_hashed, H.
Qed.

Lemma remove_tile_holds (m : TileManager) (id a hB : Z) :
  id <> a -> holds_tile m a hB -> holds_tile (fst (remove_tile m id)) a hB.
Proof.
  intros Hne (H1 & H2 & H3). unfold remove_tile.
  destruct (tile_by_id m !! id) as [[h|o l]|] eqn:Hid; cbv zeta.
  - case_bool_decide as Hs; cbn [fst]; unfold holds_tile;
      cbn [tile_by_id ids_by_hash data_by_hash].
    + assert (Hh : h <> hB).
      { intros ->.
        assert (Ha : a ∈ default ∅ (ids_by_hash m !! hB) ∖ {[id]}) by set_solver.
        rewrite Hs in Ha. set_solver. }
      rewrite !lookup_delete_ne by auto. auto.
    + rewrite lookup_delete_ne by auto. split; [exact H1|]. split; [|exact H3].
      destruct (decide (h = hB)) as [->|Hh].
      * rewrite lookup_insert_eq. cbn. set_solver.
      * rewrite lookup_insert_ne by auto. exact H2.
  - cbn [fst]. unfold holds_tile. cbn [tile_by_id ids_by_hash data_by_hash].
    rewrite lookup_delete_ne by auto. auto.
  - cbn [fst]. exact (conj H1 (conj H2 H3)).
Qed.

Lemma add_tile_holds (m : TileManager) (id : Z) (vec : list Z) (a hB : Z) :
  id <> a -> holds_tile m a hB -> holds_tile (add_tile calculate_hash m id vec) a hB.
Proof.
  intros Hne Hh. destruct (remove_tile_holds m id a hB Hne Hh) as (H1 & H2 & H3).
  unfold add_tile, holds_tile. cbv zeta. cbn [tile_by_id ids_by_hash data_by_hash].
  rewrite lookup_insert_ne by auto. split; [exact H1|]. split.
  - destruct (decide (calculate_hash vec = hB)) as [<-|Hh'].
    + rewrite lookup_insert_eq. cbn. set_solver.
    + rewrite lookup_insert_ne by auto. exact H2.
  - apply lookup_insert_is_Some'. auto.
Qed.

Lemma add_tile_holds_new (m : TileManager) (a : Z) (B : list Z) :
  holds_tile (add_tile calculate_hash m a B) a (calculate_hash B).
Proof.
  unfold add_tile, holds_tile. cbv zeta. cbn [tile_by_id ids_by_hash data_by_hash].
  rewrite !lookup_insert_eq. split; [reflexivity|]. split; [cbn; set_solver|eauto].
Qed.

Lemma apply_op_holds (m : TileManager) (o : op) (a hB : Z) :
  op_tile_id o <> a -> holds_tile m a hB -> holds_tile (apply_op calculate_hash m o) a hB.
Proof.
  destruct o as [id d|id off len|id]; cbn; intros Hne Hh.
  - apply add_tile_holds; assumption.
  - destruct Hh as (H1 & H2 & H3). unfold add_offset_tile, holds_tile.
    cbn [tile_by_id ids_by_hash data_by_hash].
    rewrite lookup_insert_ne by auto. auto.
  - apply remove_tile_holds; assumption.
Qed.

Lemma run_ops_holds (ops : list op) :
  forall m a hB, Forall (fun o => op_tile_id o <> a) ops ->
  holds_tile m a hB -> holds_tile (run_ops calculate_hash m ops) a hB.
Proof.
  induction ops as [|o ops IH]; intros m a hB Hops Hh; [exact Hh|].
  inversion Hops as [|? ? Ho Hops']; subst.
  change (run_ops calculate_hash m (o :: ops))
    with (run_ops calculate_hash (apply_op calculate_hash m o) ops).
  apply IH; [exact Hops'|]. apply apply_op_holds; assumption.
Qed.

Lemma run_ops_added (m : TileManager) (pre post : list op) (a : Z) (B : list Z) :
  Forall (fun o => op_tile_id o <> a) post ->
  holds_tile (run_ops calculate_hash m (pre ++ AddTile a B :: post)) a (calculate_hash B).
Proof.
  intros Hpost. rewrite run_ops_app.
  change (run_ops calculate_hash (run_ops calculate_hash m pre) (AddTile a B :: post))
    with (run_ops calculate_hash
            (add_tile calculate_hash (run_ops calculate_hash m pre) a B) post).
  apply run_ops_holds; [exact Hpost|]. apply add_tile_holds_new.
Qed.
End Ops.

Section Finish.
Variable calculate_hash : list Z -> Z.
Variable m : TileManager.
Hypothesis Hd : data_hashed calculate_hash m.

(** The state of [finish] after some turns: the blob is the
    concatenation of [chunks], contents of tiles of [m] with pairwise
    distinct hashes, and [offset_length_map] places each of them. *)
Definition finish_inv (st : FinishState) (chunks : list (list Z)) (n k : Z) : Prop :=
  data st = concat chunks /\
  num_tile_content st = Z.of_nat (List.length chunks) /\
  Z.of_nat (List.length chunks) <= n /\
  NoDup (calculate_hash <$> chunks) /\
  Forall (fun C => exists id, get_tile m id = Ok (Some C)) chunks /\
  (forall key ol, offset_length_map st !! key = Some ol ->
     exists pre C post, chunks = pre ++ C :: post /\ calculate_hash C = key /\
       ol = (Z.of_nat (List.length (concat pre)), u32 (Z.of_nat (List.length C)))) /\
  (forall C, C ∈ chunks -> is_Some (offset_length_map st !! calculate_hash C)) /\
  entries_ok (entries st) n k.

(** A later state keeps the placements and the runs of an earlier one. *)
Definition finish_mono (st st' : FinishState) : Prop :=
  (forall key ol, offset_length_map st !! key = Some ol ->
                  offset_length_map st' !! key = Some ol) /\
  (forall e, e ∈ entries st -> exists e', e' ∈ entries st' /\
     tile_id e' = tile_id e /\ run_length e <= run_length e' /\
     offset e' = offset e /\ length e' = length e).

(** The tile [k] with content [C] lies in a run placed where [C] is. *)
Definition placed (st : FinishState) (k : Z) (C : list Z) : Prop :=
  exists ol e, offset_length_map st !! calculate_hash C = Some ol /\
    e ∈ entries st /\ tile_id e <= k < tile_id e + run_length e /\
    (offset e, length e) = ol.

Lemma finish_mono_refl (st : FinishState) : finish_mono st st.
Proof. split; [auto|]. intros e He. exists e. auto with lia. Qed.

Lemma finish_mono_trans (st1 st2 st3 : FinishState) :
  finish_mono st1 st2 -> finish_mono st2 st3 -> finish_mono st1 st3.
Proof.
  intros [A1 B1] [A2 B2]. split; [auto|].
  intros e He. destruct (B1 e He) as (e2 & Hin2 & H2).
  destruct (B2 e2 Hin2) as (e3 & Hin3 & H3). exists e3. split; [exact Hin3|]. lia.
Qed.

Lemma placed_mono (st st' : FinishState) (k : Z) (C : list Z) :
  finish_mono st st' -> placed st k C -> placed st' k C.
Proof.
  intros [A B] (ol & e & Hol & He & Hk & Heq).
  destruct (B e He) as (e' & He' & H1 & H2 & H3 & H4).
  exists ol, e'. split; [auto|]. split; [exact He'|]. split; [lia|].
  rewrite H3, H4. exact Heq.
Qed.

Lemma get_tile_forall (Q : list Z -> Prop) :
  map_Forall (fun _ t => forall C,
    get_tile_content (reader m) (data_by_hash m) t = Ok (Some C) -> Q C) (tile_by_id m) ->
  forall id C, get_tile m id = Ok (Some C) -> Q C.
Proof.
  intros HF id C H. unfold get_tile in H.
  destruct (tile_by_id m !! id) as [t|] eqn:E; [|discriminate H].
  exact (HF id t E C H).
Qed.

Lemma content_key (t : TileManagerTile) (C : list Z) :
  get_tile_content (reader m) (data_by_hash m) t = Ok (Some C) ->
  match t with Hash h => h | OffsetLength _ _ => calculate_hash C end = calculate_hash C.
Proof.
  destruct t as [h|o l]; cbn; intros H; [|reflexivity].
  injection H as H. symmetry. exact (Hd h C H).
Qed.

Lemma finish_step_inv (st st' : FinishState) (chunks : list (list Z)) (n k0 k : Z)
  (t : TileManagerTile) :
  finish_inv st chunks n k0 -> k0 <= k -> 0 <= k < 2 ^ 64 -> 0 <= n -> n + 1 < 2 ^ 32 ->
  tile_by_id m !! k = Some t ->
  finish_step calculate_hash m st (k, t) = Ok st' ->
  exists chunks', finish_inv st' chunks' (n + 1) (k + 1) /\ finish_mono st st' /\
    (forall C, get_tile_content (reader m) (data_by_hash m) t = Ok (Some C) ->
               placed st' k C).
Proof.
  intros (I1 & I2 & I3 & I4 & I5 & I6 & I7 & I8) Hk0 Hk Hn Hn1 Ht Hs.
  unfold finish_step in Hs. apply bind_ok in Hs as [content [Hc Hs]].
  destruct content as [C|].
  2:{ injection Hs as <-. exists chunks.
      split; [|split; [apply finish_mono_refl|]].
      - repeat (split; [assumption|]). split; [lia|].
        repeat (split; [assumption|]). apply (entries_ok_mono _ n _ k0); auto; lia.
      - intros C HC. rewrite Hc in HC. discriminate HC. }
  cbv zeta in Hs. rewrite (content_key t C Hc) in Hs.
  destruct (offset_length_map st !! calculate_hash C) as [[o len]|] eqn:Hol.
  - injection Hs as <-. cbn [entries data num_tile_content offset_length_map].
    destruct (push_entry_cover (entries st) n k0 k o len I8 Hk0 Hk Hn Hn1)
      as (P1 & P2 & P3).
    exists chunks. split; [|split].
    + repeat (split; [assumption|]). split; [lia|]. repeat (split; [assumption|]). exact P1.
    + split; [auto|exact P2].
    + intros C' HC'. rewrite Hc in HC'. injection HC' as <-.
      destruct P3 as (e & He & Hke & Ho & Hl).
      exists (o, len), e. rewrite Ho, Hl. auto.
  - injection Hs as <-. cbn [entries data num_tile_content offset_length_map].
    destruct (push_entry_cover (entries st) n k0 k
                (Z.of_nat (List.length (data st))) (u32 (Z.of_nat (List.length C)))
                I8 Hk0 Hk Hn Hn1) as (P1 & P2 & P3).
    assert (Hnew : forall C', C' ∈ chunks -> calculate_hash C' <> calculate_hash C).
    { intros C' HC' E. destruct (I7 C' HC') as [x Hx]. rewrite E, Hol in Hx. discriminate. }
    exists (chunks ++ [C]). split; [|split].
    + split; [rewrite I1, concat_app; cbn; rewrite app_nil_r; reflexivity|].
      split; [rewrite I2, length_app; cbn; unfold u64; rewrite Z.mod_small; lia|].
      split; [rewrite length_app; cbn; lia|].
      split.
      { rewrite fmap_app. apply NoDup_app. split; [exact I4|]. split; [|cbn; constructor; [set_solver|constructor]].
        intros x Hx. apply list_elem_of_fmap in Hx as (C' & -> & HC').
        cbn. intros Hx. apply list_elem_of_singleton in Hx. exact (Hnew C' HC' Hx). }
      split.
      { apply Forall_app. split; [exact I5|]. constructor; [|constructor].
        exists k. unfold get_tile. rewrite Ht. exact Hc. }
      split.
      { intros key ol Hkey. cbn [offset_length_map] in Hkey.
        destruct (decide (key = calculate_hash C)) as [->|Hne].
        - rewrite lookup_insert_eq in Hkey. injection Hkey as <-.
          exists chunks, C, []. rewrite I1. auto.
        - rewrite lookup_insert_ne in Hkey by auto.
          destruct (I6 key ol Hkey) as (pre & C' & post & Hch & Hh & Hol').
          exists pre, C', (post ++ [C]). split; [|auto].
          rewrite Hch, <- app_assoc. reflexivity. }
      split; [|exact P1].
      intros C' HC'. apply elem_of_app in HC' as [HC'|HC'].
      { apply lookup_insert_is_Some'. right. exact (I7 C' HC'). }
      apply list_elem_of_singleton in HC'. subst C'.
      apply lookup_insert_is_Some'. left. reflexivity.
    + split; [|exact P2].
      intros key ol Hkey. cbn [offset_length_map]. rewrite lookup_insert_ne; [exact Hkey|].
      intros E. rewrite <- E, Hol in Hkey. discriminate.
    + intros C' HC'. rewrite Hc in HC'. injection HC' as <-.
      destruct P3 as (e & He & Hke & Ho & Hl).
      exists (Z.of_nat (List.length (data st)), u32 (Z.of_nat (List.length C))), e.
      cbn [offset_length_map entries]. rewrite lookup_insert_eq, Ho, Hl. auto.
Qed.

Lemma finish_loop_inv (l : list (Z * TileManagerTile)) :
  forall st st' chunks n k0,
  finish_inv st chunks n k0 ->
  StronglySorted (fun p q : Z * TileManagerTile => p.1 < q.1) l ->
  Forall (fun p : Z * TileManagerTile =>
            k0 <= p.1 /\ 0 <= p.1 < 2 ^ 64 /\ tile_by_id m !! p.1 = Some p.2) l ->
  0 <= n -> n + Z.of_nat (List.length l) < 2 ^ 32 ->
  finish_loop calculate_hash m l st = Ok st' ->
  exists chunks' n' k', finish_inv st' chunks' n' k' /\ finish_mono st st' /\
    Forall (fun p : Z * TileManagerTile =>
              forall C, get_tile_content (reader m) (data_by_hash m) p.2 = Ok (Some C) ->
              placed st' p.1 C) l.
Proof.
  induction l as [|[k t] l IH]; intros st st' chunks n k0 Hi Hs Hf Hn Hl Hloop;
    cbn [finish_loop] in Hloop.
  - injection Hloop as <-. exists chunks, n, k0.
    split; [exact Hi|]. split; [apply finish_mono_refl|constructor].
  - apply bind_ok in Hloop as [st1 [Hstep Hloop]].
    inversion Hs as [|? ? Hs' Hlt]; subst. inversion Hf as [|? ? (Hk0 & Hk & Ht) Hf']; subst.
    cbn [fst snd] in Hk0, Hk, Ht. cbn [List.length] in Hl.
    destruct (finish_step_inv st st1 chunks n k0 k t Hi Hk0 Hk Hn ltac:(lia) Ht Hstep)
      as (chunks1 & Hi1 & Hm1 & Hp1).
    assert (Hf1 : Forall (fun p : Z * TileManagerTile =>
              k + 1 <= p.1 /\ 0 <= p.1 < 2 ^ 64 /\ tile_by_id m !! p.1 = Some p.2) l).
    { rewrite Forall_forall in Hlt, Hf' |- *. intros q Hq.
      specialize (Hlt q Hq). destruct (Hf' q Hq) as (H1 & H2 & H3). cbn in Hlt.
      split; [lia|]. split; [exact H2|exact H3]. }
    destruct (IH st1 st' chunks1 (n + 1) (k + 1) Hi1 Hs' Hf1 ltac:(lia) ltac:(lia) Hloop)
      as (chunks' & n' & k' & Hi' & Hm' & Hp').
    exists chunks', n', k'. split; [exact Hi'|]. split; [exact (finish_mono_trans _ _ _ Hm1 Hm')|].
    constructor; [|exact Hp'].
    intros C HC. exact (placed_mono st1 st' k C Hm' (Hp1 C HC)).
Qed.
End Finish.
End DedupFacts.


(** Further facts on the tile manager, the header reader and [finish]. *)
Module ManagerFacts.
Import TileManager.

Section Hashing.
Variable calculate_hash : list Z -> Z.

(** The tile [a] is held under the hash of [B], listed there, and [B] is
    stored under it. *)
Definition holds_data (m : TileManager) (a : Z) (B : list Z) : Prop :=
  tile_by_id m !! a = Some (Hash (calculate_hash B)) /\
  a ∈ default ∅ (ids_by_hash m !! calculate_hash B) /\
  data_by_hash m !! calculate_hash B = Some B.

(** Every tile held by hash is listed under its hash. *)
Definition refs_ok (m : TileManager) : Prop :=
  map_Forall (fun id t => match t with
                          | Hash h => id ∈ default ∅ (ids_by_hash m !! h)
                          | OffsetLength _ _ => True end) (tile_by_id m).

(** No later [add_tile] stores other bytes with the hash of [B]. *)
Definition no_clash (B : list Z) (o : op) : Prop :=
  forall c D, o = AddTile c D -> calculate_hash D = calculate_hash B -> D = B.

Lemma holds_data_get (m : TileManager) (a : Z) (B : list Z) :
  holds_data m a B -> get_tile m a = Ok (Some B).
Proof.
  intros (H1 & _ & H3). unfold get_tile. rewrite H1. cbn. rewrite H3. reflexivity.
Qed.

Lemma add_tile_holds_data_new (m : TileManager) (a : Z) (B : list Z) :
  holds_data (add_tile calculate_hash m a B) a B.
Proof.
  unfold add_tile, holds_data. cbv zeta. cbn [tile_by_id ids_by_hash data_by_hash].
  rewrite !lookup_insert_eq. split; [reflexivity|]. split; [cbn; set_solver|reflexivity].
Qed.

Lemma remove_tile_holds_data (m : TileManager) (c a : Z) (B : list Z) :
  c <> a -> holds_data m a B -> holds_data (fst (remove_tile m c)) a B.
Proof.
  intros Hne (H1 & H2 & H3). unfold remove_tile.
  destruct (tile_by_id m !! c) as [[h|o l]|] eqn:Hc; cbv zeta.
  - case_bool_decide as Hs; cbn [fst]; unfold holds_data;
      cbn [tile_by_id ids_by_hash data_by_hash].
    + assert (Hh : h <> calculate_hash B).
      { intros ->.
        assert (Ha : a ∈ default ∅ (ids_by_hash m !! calculate_hash B) ∖ {[c]}) by set_solver.
        rewrite Hs in Ha. set_solver. }
      rewrite !lookup_delete_ne by auto. auto.
    + rewrite lookup_delete_ne by auto. split; [exact H1|]. split; [|exact H3].
      destruct (decide (h = calculate_hash B)) as [->|Hh].
      * rewrite lookup_insert_eq. cbn. set_solver.
      * rewrite lookup_insert_ne by auto. exact H2.
  - cbn [fst]. unfold holds_data. cbn [tile_by_id ids_by_hash data_by_hash].
    rewrite lookup_delete_ne by auto. auto.
  - cbn [fst]. exact (conj H1 (conj H2 H3)).
Qed.

Lemma apply_op_holds_data (m : TileManager) (o : op) (a : Z) (B : list Z) :
  op_tile_id o <> a -> no_clash B o -> holds_data m a B ->
  holds_data (apply_op calculate_hash m o) a B.
Proof.
  intros Hne Hnc Hh. destruct o as [c D|c off len|c]; cbn in Hne |- *.
  - destruct (remove_tile_holds_data m c a B Hne Hh) as (H1 & H2 & H3).
    unfold add_tile, holds_data. cbv zeta. cbn [tile_by_id ids_by_hash data_by_hash].
    rewrite lookup_insert_ne by auto. split; [exact H1|].
    destruct (decide (calculate_hash D = calculate_hash B)) as [E|E].
    + rewrite E, !lookup_insert_eq. split; [cbn; set_solver|].
      f_equal. exact (Hnc c D eq_refl E).
    + rewrite !lookup_insert_ne by auto. auto.
  - destruct Hh as (H1 & H2 & H3). unfold add_offset_tile, holds_data.
    cbn [tile_by_id ids_by_hash data_by_hash].
    rewrite lookup_insert_ne by auto. auto.
  - apply remove_tile_holds_data; assumption.
Qed.

Lemma run_ops_holds_data (ops : list op) :
  forall m a B, Forall (fun o => op_tile_id o <> a /\ no_clash B o) ops ->
  holds_data m a B -> holds_data (run_ops calculate_hash m ops) a B.
Proof.
  induction ops as [|o ops IH]; intros m a B Hops Hh; [exact Hh|].
  inversion Hops as [|? ? [Ho Hc] Hops']; subst.
  change (run_ops calculate_hash m (o :: ops))
    with (run_ops calculate_hash (apply_op calculate_hash m o) ops).
  apply IH; [exact Hops'|]. apply apply_op_holds_data; assumption.
Qed.

(** [refs_ok] is kept by every call. *)
Lemma remove_tile_refs_ok (m : TileManager) (c : Z) :
  refs_ok m -> refs_ok (fst (remove_tile m c)).
Proof.
  intros Hr. pose proof (TileManagerFacts.remove_tile_ids m c) as Hids.
  intros id t Ht. cbn beta. rewrite Hids in Ht.
  apply lookup_delete_Some in Ht as [Hne Ht].
  pose proof (Hr id t Ht) as Hid. destruct t as [h'|]; [|exact I].
  unfold remove_tile. destruct (tile_by_id m !! c) as [[h|o l]|] eqn:Hc; cbv zeta.
  - case_bool_decide as Hs; cbn [fst ids_by_hash].
    + destruct (decide (h' = h)) as [->|Hh].
      * exfalso. assert (Ha : id ∈ default ∅ (ids_by_hash m !! h) ∖ {[c]}) by set_solver.
        rewrite Hs in Ha. set_solver.
      * rewrite lookup_delete_ne by auto. exact Hid.
    + destruct (decide (h' = h)) as [->|Hh].
      * rewrite lookup_insert_eq. cbn. set_solver.
      * rewrite lookup_insert_ne by auto. exact Hid.
  - exact Hid.
  - exact Hid.
Qed.

Lemma apply_op_refs_ok (m : TileManager) (o : op) :
  refs_ok m -> refs_ok (apply_op calculate_hash m o).
Proof.
  intros Hr. destruct o as [c D|c off len|c]; cbn.
  - pose proof (remove_tile_refs_ok m c Hr) as Hr1.
    unfold add_tile. cbv zeta. intros id t Ht. cbn [tile_by_id ids_by_hash] in Ht |- *.
    destruct (decide (id = c)) as [->|Hne].
    + rewrite lookup_insert_eq in Ht. injection Ht as <-.
      rewrite lookup_insert_eq. cbn. set_solver.
    + rewrite lookup_insert_ne in Ht by auto.
      pose proof (Hr1 id t Ht) as Hid. destruct t as [h'|]; [|exact I].
      destruct (decide (h' = calculate_hash D)) as [->|Hh].
      * rewrite lookup_insert_eq. cbn. set_solver.
      * rewrite lookup_insert_ne by auto. exact Hid.
  - intros id t Ht. unfold add_offset_tile in Ht |- *. cbn [tile_by_id ids_by_hash] in Ht |- *.
    destruct (decide (id = c)) as [->|Hne].
    + rewrite lookup_insert_eq in Ht. injection Ht as <-. exact I.
    + rewrite lookup_insert_ne in Ht by auto. exact (Hr id t Ht).
  - apply remove_tile_refs_ok, Hr.
Qed.

Lemma run_ops_refs_ok (ops : list op) :
  forall m, refs_ok m -> refs_ok (run_ops calculate_hash m ops).
Proof.
  induction ops as [|o ops IH]; intros m Hr; [exact Hr|].
  change (run_ops calculate_hash m (o :: ops))
    with (run_ops calculate_hash (apply_op calculate_hash m o) ops).
  apply IH, apply_op_refs_ok, Hr.
Qed.

Lemma new_refs_ok (r : option (list Z)) : refs_ok (new r).
Proof. intros id t Ht. cbn in Ht. rewrite lookup_empty in Ht. discriminate. Qed.

(** Under [refs_ok], removing one id leaves the content of every other
    id as it was. *)
Lemma remove_tile_get_other (m : TileManager) (c id : Z) :
  refs_ok m -> id <> c -> get_tile (fst (remove_tile m c)) id = get_tile m id.
Proof.
  intros Hr Hne. unfold get_tile. rewrite TileManagerFacts.remove_tile_ids, lookup_delete_ne by auto.
  destruct (tile_by_id m !! id) as [t|] eqn:Ht; [|reflexivity].
  pose proof (Hr id t Ht) as Hid.
  unfold remove_tile. destruct (tile_by_id m !! c) as [[h|o l]|] eqn:Hc; cbv zeta;
    [|reflexivity..].
  case_bool_decide as Hs; cbn [fst reader data_by_hash]; [|reflexivity].
  destruct t as [h'|o l]; cbn; [|reflexivity].
  destruct (decide (h' = h)) as [->|Hh].
  - exfalso. assert (Ha : id ∈ default ∅ (ids_by_hash m !! h) ∖ {[c]}) by set_solver.
    rewrite Hs in Ha. set_solver.
  - rewrite lookup_delete_ne by auto. reflexivity.
Qed.
End Hashing.
End ManagerFacts.

Module ManagerFacts2.
Import TileManager TileManagerIds ManagerFacts.

(** The last call in [ops] that acts on [id]. *)
Definition last_op_on (ops : list op) (id : Z) : option op :=
  last (filter (fun o => op_tile_id o = id) ops).

Lemma num_addressed_delete (m : gmap Z TileManagerTile) (id : Z) :
  Z.of_nat (size (delete id m)) =
  Z.of_nat (size m) - (if bool_decide (is_Some (m !! id)) then 1 else 0).
Proof.
  case_bool_decide as H.
  - destruct H as [t Ht]. rewrite map_size_delete, Ht. 
    assert (size m <> 0)%nat.
    { intros E. apply map_size_empty_iff in E. subst. rewrite lookup_empty in Ht. discriminate. }
    lia.
  - rewrite delete_id by (destruct (m !! id); [exfalso; eauto|reflexivity]). lia.
Qed.

Lemma num_addressed_insert (m : gmap Z TileManagerTile) (id : Z) t :
  Z.of_nat (size (<[id := t]> m)) =
  Z.of_nat (size m) + (if bool_decide (is_Some (m !! id)) then 0 else 1).
Proof.
  rewrite map_size_insert. case_bool_decide as H.
  - destruct H as [t' ->]. cbn. lia.
  - destruct (m !! id); [exfalso; eauto|]. lia.
Qed.
End ManagerFacts2.

Module ManagerFacts3.
Import TileManager TileManagerIds ManagerFacts ManagerFacts2.

Lemma get_tile_ids_elem (m : TileManager) (id : Z) :
  id ∈ get_tile_ids m <-> is_Some (tile_by_id m !! id).
Proof.
  unfold get_tile_ids. rewrite list_elem_of_fmap. split.
  - intros [[k t] [-> Hin]]. apply elem_of_map_to_list in Hin. cbn. eauto.
  - intros [t Ht]. exists (id, t). split; [reflexivity|]. apply elem_of_map_to_list, Ht.
Qed.

Lemma run_ops_snoc (h : list Z -> Z) (m : TileManager) (ops : list op) (o : op) :
  run_ops h m (ops ++ [o]) = apply_op h (run_ops h m ops) o.
Proof. rewrite DedupFacts.run_ops_app. reflexivity. Qed.

Lemma apply_op_same (h : list Z -> Z) (m : TileManager) (o : op) :
  is_Some (tile_by_id (apply_op h m o) !! op_tile_id o) <->
  match o with RemoveTile _ => False | _ => True end.
Proof.
  destruct o as [c D|c off len|c]; cbn.
  - unfold add_tile. cbn. rewrite lookup_insert_eq. split; eauto.
  - rewrite lookup_insert_eq. split; eauto.
  - rewrite TileManagerFacts.remove_tile_ids, lookup_delete_eq.
    split; [intros [? ?]; discriminate|tauto].
Qed.

(** [has_content]: [get_tile] gives bytes for [k]. *)
Definition has_content (m : TileManager) (k : Z) : bool :=
  match get_tile m k with Ok (Some _) => true | _ => false end.

Lemma finish_step_err (h : list Z -> Z) (m : TileManager) st (k : Z) (t : TileManagerTile) :
  (exists e, finish_step h m st (k, t) = Err e) <->
  (exists e, get_tile_content (reader m) (data_by_hash m) t = Err e).
Proof.
  unfold finish_step. destruct (get_tile_content _ _ t) as [c|e]; cbn.
  - split; [|intros [? ?]; discriminate]. intros [e He]. exfalso.
    destruct c as [d|]; [|discriminate].
    destruct (offset_length_map st !! _) as [[? ?]|]; discriminate.
  - split; eauto.
Qed.

Lemma finish_loop_err (h : list Z -> Z) (m : TileManager) (l : list (Z * TileManagerTile)) :
  forall st,
  (exists e, finish_loop h m l st = Err e) <->
  exists k t e, (k, t) ∈ l /\ get_tile_content (reader m) (data_by_hash m) t = Err e.
Proof.
  induction l as [|[k t] l IH]; intros st; cbn [finish_loop].
  - split; [intros [? ?]; discriminate|]. intros (? & ? & ? & Hin & _).
    apply elem_of_nil in Hin. contradiction.
  - destruct (finish_step h m st (k, t)) as [st1|e] eqn:Hs; cbn.
    + rewrite IH. split.
      * intros (k' & t' & e & Hin & He). exists k', t', e. split; [right; exact Hin|exact He].
      * intros (k' & t' & e & Hin & He). apply elem_of_cons in Hin as [E|Hin].
        -- exfalso. injection E as -> ->.
           assert (Hx : exists e, finish_step h m st (k, t) = Err e)
             by (apply finish_step_err; eauto).
           destruct Hx as [? Hx]. congruence.
        -- eauto.
    + split; [|eauto]. intros _.
      assert (Hx : exists e', finish_step h m st (k, t) = Err e') by eauto.
      apply finish_step_err in Hx as [e' He']. exists k, t, e'.
      split; [left|exact He'].
Qed.

Lemma finish_step_count (h : list Z -> Z) (m : TileManager) st st' (k : Z) (t : TileManagerTile) :
  tile_by_id m !! k = Some t ->
  finish_step h m st (k, t) = Ok st' ->
  TileManager.num_addressed_tiles st' =
    if has_content m k then u64 (TileManager.num_addressed_tiles st + 1)
    else TileManager.num_addressed_tiles st.
Proof.
  intros Ht. unfold has_content, get_tile. rewrite Ht. unfold finish_step.
  destruct (get_tile_content _ _ t) as [[d|]|e]; cbn; [|intros E; injection E as <-; reflexivity|discriminate].
  destruct (offset_length_map st !! _) as [[? ?]|]; intros E; injection E as <-; reflexivity.
Qed.

Lemma finish_loop_count (h : list Z -> Z) (m : TileManager) (l : list (Z * TileManagerTile)) :
  forall st st',
  (forall k t, (k, t) ∈ l -> tile_by_id m !! k = Some t) ->
  0 <= TileManager.num_addressed_tiles st < 2 ^ 64 ->
  finish_loop h m l st = Ok st' ->
  TileManager.num_addressed_tiles st' =
    u64 (TileManager.num_addressed_tiles st +
         Z.of_nat (length (filter (fun p : Z * TileManagerTile => has_content m p.1 = true) l))).
Proof.
  induction l as [|[k t] l IH]; intros st st' Hl Hr Hloop; cbn [finish_loop] in Hloop.
  - injection Hloop as <-. cbn. rewrite Z.add_0_r, u64_small by exact Hr. reflexivity.
  - apply bind_ok in Hloop as [st1 [Hs Hloop]].
    assert (Ht : tile_by_id m !! k = Some t) by (apply Hl; left).
    pose proof (finish_step_count h m st st1 k t Ht Hs) as Hc.
    assert (Hr1 : 0 <= TileManager.num_addressed_tiles st1 < 2 ^ 64)
      by (rewrite Hc; destruct (has_content m k); [apply u64_range|exact Hr]).
    rewrite (IH st1 st'); [|intros k' t' Hin; apply Hl; right; exact Hin|exact Hr1|exact Hloop].
    rewrite filter_cons. cbn [fst]. rewrite Hc.
    destruct (has_content m k).
    + rewrite decide_True by reflexivity. cbn [length]. unfold u64.
      rewrite Zplus_mod_idemp_l. f_equal. lia.
    + rewrite decide_False by discriminate. reflexivity.
Qed.

Lemma filter_fst_length (P : Z -> bool) (l : list (Z * TileManagerTile)) :
  length (filter (fun k => P k = true) l.*1) =
  length (filter (fun p : Z * TileManagerTile => P p.1 = true) l).
Proof.
  induction l as [|[k t] l IH]; [reflexivity|]. cbn [fmap list_fmap fst].
  rewrite !filter_cons. cbn [fst]. destruct (P k).
  - rewrite !decide_True by reflexivity. cbn. rewrite IH. reflexivity.
  - rewrite !decide_False by discriminate. exact IH.
Qed.
End ManagerFacts3.

Module HeaderErrFacts.
Lemma read_errors_parse (bs : list Z) :
  List.length bs = 127%nat -> forall e, Header.read bs = Err e -> e = DekuParse.
Proof.
  intros Hl e.
  do 127 (destruct bs as [|? bs]; [discriminate|]).
  destruct bs; [|discriminate]. clear Hl.
  unfold Header.read, Header.read_bool, Header.read_opt.
  cbn -[Header.magic Compression.of_u8 TileType.of_u8 Header.read_lat_lon Header.from_le].
  repeat (case_match;
    cbn -[Header.magic Compression.of_u8 TileType.of_u8 Header.read_lat_lon Header.from_le]);
    congruence.
Qed.

Lemma from_reader_take (input : list Z) :
  (127 <= List.length input)%nat ->
  Header.from_reader input = Header.read (take 127 input).
Proof.
  intros Hl. unfold Header.from_reader, Header.take_bytes, Header.HEADER_BYTES.
  destruct (Nat.ltb_spec (List.length input) 127); [lia|]. reflexivity.
Qed.
End HeaderErrFacts.

Module FinishCover.
Import TileManager Directory DedupFacts.

(** [push_entry] keeps a property of every (id, offset, length) its runs
    cover, once the pushed triple has it. *)
Lemma push_entry_runs (Q : Z -> Z -> Z -> Prop) (es : list Entry) (n k0 k o len : Z) :
  entries_ok es n k0 -> k0 <= k -> 0 <= k < 2 ^ 64 -> 0 <= n -> n + 1 < 2 ^ 32 ->
  (forall e, e ∈ es -> forall j, tile_id e <= j < tile_id e + run_length e ->
     Q j (offset e) (length e)) ->
  Q k o len ->
  forall e, e ∈ push_entry es k o len -> forall j, tile_id e <= j < tile_id e + run_length e ->
    Q j (offset e) (length e).
Proof.
  intros Hok Hk0 Hk Hn Hn1 Hes Hq. induction es as [|e0 es IH].
  - cbn. intros e He j Hj. apply list_elem_of_singleton in He. subst e. cbn in Hj |- *.
    replace j with k by lia. exact Hq.
  - destruct es as [|e2 es].
    + assert (He0 : e0 ∈ [e0]) by (apply list_elem_of_singleton; reflexivity).
      destruct (Hok e0 He0) as (Ht & Hr & Hend). cbn [push_entry].
      destruct ((k =? u64 (tile_id e0 + run_length e0)) && (offset e0 =? o)
                && (length e0 =? len)) eqn:Hcond.
      * apply andb_true_iff in Hcond as [Hcond Hl]. apply andb_true_iff in Hcond as [Hm Ho].
        apply Z.eqb_eq in Hm, Ho, Hl. rewrite u64_small in Hm by lia.
        assert (Hu : u32 (run_length e0 + 1) = run_length e0 + 1)
          by (unfold u32; apply Z.mod_small; lia).
        intros e He j Hj. apply list_elem_of_singleton in He. subst e. cbn in Hj |- *.
        rewrite Hu in Hj. destruct (Z.lt_ge_cases j (tile_id e0 + run_length e0)) as [Hlt|Hge].
        -- apply (Hes e0 He0). lia.
        -- replace j with k by lia. rewrite Ho, Hl. exact Hq.
      * intros e He j Hj. apply elem_of_cons in He as [->|He].
        -- exact (Hes e0 He0 j Hj).
        -- apply list_elem_of_singleton in He. subst e. cbn in Hj |- *.
           replace j with k by lia. exact Hq.
    + change (push_entry (e0 :: e2 :: es) k o len) with (e0 :: push_entry (e2 :: es) k o len).
      intros e He j Hj. apply elem_of_cons in He as [->|He].
      * apply (Hes e0); [apply elem_of_cons; left; reflexivity|exact Hj].
      * refine (IH _ _ e He j Hj).
        -- intros e' He'. apply Hok. apply elem_of_cons. right. exact He'.
        -- intros e' He'. apply Hes. apply elem_of_cons. right. exact He'.
Qed.

Section Cover.
Variable calculate_hash : list Z -> Z.
Variable m : TileManager.
Hypothesis Hd : data_hashed calculate_hash m.

(** Every id a run of the directory covers has bytes, placed where the
    run points. *)
Definition covers_ok (st : FinishState) : Prop :=
  forall e, e ∈ entries st -> forall j, tile_id e <= j < tile_id e + run_length e ->
  exists C, get_tile m j = Ok (Some C) /\
    offset_length_map st !! calculate_hash C = Some (offset e, length e).

Lemma finish_step_cov (st st' : FinishState) (chunks : list (list Z)) (n k0 k : Z)
  (t : TileManagerTile) :
  finish_inv calculate_hash m st chunks n k0 -> k0 <= k -> 0 <= k < 2 ^ 64 -> 0 <= n ->
  n + 1 < 2 ^ 32 -> tile_by_id m !! k = Some t ->
  finish_step calculate_hash m st (k, t) = Ok st' ->
  covers_ok st -> covers_ok st'.
Proof.
  intros (I1 & I2 & I3 & I4 & I5 & I6 & I7 & I8) Hk0 Hk Hn Hn1 Ht Hs Hc.
  unfold finish_step in Hs. apply bind_ok in Hs as [content [Hcont Hs]].
  destruct content as [C|]; [|injection Hs as <-; exact Hc].
  assert (HkC : get_tile m k = Ok (Some C)) by (unfold get_tile; rewrite Ht; exact Hcont).
  cbv zeta in Hs. rewrite (content_key calculate_hash m Hd t C Hcont) in Hs.
  destruct (offset_length_map st !! calculate_hash C) as [[o len]|] eqn:Hol.
  - injection Hs as <-. unfold covers_ok. cbn [entries offset_length_map].
    refine (push_entry_runs (fun j o' l' => exists C', get_tile m j = Ok (Some C') /\
              offset_length_map st !! calculate_hash C' = Some (o', l'))
              (entries st) n k0 k o len I8 Hk0 Hk Hn Hn1 Hc _).
    exists C. auto.
  - injection Hs as <-. unfold covers_ok. cbn [entries offset_length_map].
    set (olm' := <[calculate_hash C := (Z.of_nat (List.length (data st)),
                                        u32 (Z.of_nat (List.length C)))]> (offset_length_map st)).
    refine (push_entry_runs (fun j o' l' => exists C', get_tile m j = Ok (Some C') /\
              olm' !! calculate_hash C' = Some (o', l'))
              (entries st) n k0 k _ _ I8 Hk0 Hk Hn Hn1 _ _).
    + intros e He j Hj. destruct (Hc e He j Hj) as (C' & HC' & Hol').
      exists C'. split; [exact HC'|]. unfold olm'. rewrite lookup_insert_ne; [exact Hol'|].
      intros E. rewrite E, Hol' in Hol. discriminate.
    + exists C. split; [exact HkC|]. unfold olm'. apply lookup_insert_eq.
Qed.

Lemma finish_loop_cov (l : list (Z * TileManagerTile)) :
  forall st st' chunks n k0,
  finish_inv calculate_hash m st chunks n k0 ->
  StronglySorted (fun p q : Z * TileManagerTile => p.1 < q.1) l ->
  Forall (fun p : Z * TileManagerTile =>
            k0 <= p.1 /\ 0 <= p.1 < 2 ^ 64 /\ tile_by_id m !! p.1 = Some p.2) l ->
  0 <= n -> n + Z.of_nat (List.length l) < 2 ^ 32 ->
  finish_loop calculate_hash m l st = Ok st' ->
  covers_ok st -> covers_ok st'.
Proof.
  induction l as [|[k t] l IH]; intros st st' chunks n k0 Hi Hs Hf Hn Hl Hloop Hc;
    cbn [finish_loop] in Hloop.
  - injection Hloop as <-. exact Hc.
  - apply bind_ok in Hloop as [st1 [Hstep Hloop]].
    inversion Hs as [|? ? Hs' Hlt]; subst. inversion Hf as [|? ? (Hk0 & Hk & Ht) Hf']; subst.
    cbn [fst snd] in Hk0, Hk, Ht. cbn [List.length] in Hl.
    destruct (finish_step_inv calculate_hash m Hd st st1 chunks n k0 k t Hi Hk0 Hk Hn
                ltac:(lia) Ht Hstep) as (chunks1 & Hi1 & _ & _).
    assert (Hf1 : Forall (fun p : Z * TileManagerTile =>
              k + 1 <= p.1 /\ 0 <= p.1 < 2 ^ 64 /\ tile_by_id m !! p.1 = Some p.2) l).
    { rewrite Forall_forall in Hlt, Hf' |- *. intros q Hq.
      specialize (Hlt q Hq). destruct (Hf' q Hq) as (H1 & H2 & H3). cbn in Hlt.
      split; [lia|]. split; [exact H2|exact H3]. }
    apply (IH st1 st' chunks1 (n + 1) (k + 1) Hi1 Hs' Hf1 ltac:(lia) ltac:(lia) Hloop).
    exact (finish_step_cov st st1 chunks n k0 k t Hi Hk0 Hk Hn ltac:(lia) Ht Hstep Hc).
Qed.

(** What the loop of [finish] leaves: the invariant, every tile with
    bytes placed, and every run covering tiles with bytes. *)
Lemma finish_result (res : FinishResult) :
  ids_in_u64 m -> Z.of_nat (size (tile_by_id m)) < 2 ^ 32 ->
  finish calculate_hash m = Ok res ->
  exists st chunks n' k',
    fr_data res = data st /\ directory res = entries st /\
    finish_inv calculate_hash m st chunks n' k' /\ covers_ok st /\
    (forall k C, get_tile m k = Ok (Some C) -> placed calculate_hash st k C).
Proof.
  intros Hu Hsz Hf.
  unfold finish in Hf. apply bind_ok in Hf as [st [Hloop Hf]].
  injection Hf as <-. cbn [fr_data directory].
  destruct (TileManagerFacts.id_tile_sorted m Hu) as [Hs Hr].
  pose proof (merge_sort_Permutation key_le (map_to_list (tile_by_id m))) as Hperm.
  assert (Hinit : finish_inv calculate_hash m (mkFinishState [] [] 0 0 ∅) [] 0 0).
  { unfold finish_inv. cbn.
    split; [reflexivity|]. split; [reflexivity|]. split; [lia|].
    split; [constructor|]. split; [constructor|].
    split; [intros key ol H; rewrite lookup_empty in H; discriminate|].
    split; [intros C HC; inversion HC|]. intros e He. inversion He. }
  assert (Hf0 : Forall (fun p : Z * TileManagerTile =>
                  0 <= p.1 /\ 0 <= p.1 < 2 ^ 64 /\ tile_by_id m !! p.1 = Some p.2)
                  (merge_sort key_le (map_to_list (tile_by_id m)))).
  { rewrite Forall_forall in Hr |- *. intros [k t] Hq. specialize (Hr _ Hq). cbn in Hr |- *.
    rewrite Hperm in Hq. apply elem_of_map_to_list in Hq.
    split; [lia|]. split; [exact Hr|exact Hq]. }
  assert (Hlen : 0 + Z.of_nat (List.length
                   (merge_sort key_le (map_to_list (tile_by_id m)))) < 2 ^ 32).
  { rewrite (Permutation_length Hperm), length_map_to_list. lia. }
  destruct (finish_loop_inv calculate_hash m Hd _ _ _ [] 0 0 Hinit Hs Hf0
              ltac:(lia) Hlen Hloop) as (chunks & n' & k' & Hi & _ & Hp).
  exists st, chunks, n', k'. split; [reflexivity|]. split; [reflexivity|].
  split; [exact Hi|]. split.
  - refine (finish_loop_cov _ _ _ [] 0 0 Hinit Hs Hf0 ltac:(lia) Hlen Hloop _).
    intros e He. inversion He.
  - intros k C HC. rewrite Forall_forall in Hp. unfold get_tile in HC.
    destruct (tile_by_id m !! k) as [t|] eqn:Ht; [|discriminate].
    refine (Hp (k, t) _ C HC). rewrite Hperm. apply elem_of_map_to_list, Ht.
Qed.
End Cover.
End FinishCover.

(** An archive whose internal compression is [Unknown]. *)
Module Archives2.
Definition unknown_archive : PMTilesApi.PMTiles unit :=
  PMTilesApi.mkPMTiles unit TileType.Unknown Compression.None Compression.Unknown 0 0 0
    0%float 0%float 0%float 0%float 0%float 0%float Datatypes.None
    (TileManager.new Datatypes.None).
End Archives2.

(** An archive with two leaf directories: the root points at a leaf with
    tile id [0] holding the tiles [0] and [7], and at a leaf with tile id
    [10] holding the tile [10]; three tile bytes follow. *)
Module Archives3.
Definition header : Header.Header :=
  {| Header.spec_version := 3; Header.root_directory_offset := 127;
     Header.root_directory_length := 9; Header.json_metadata_offset := 136;
     Header.json_metadata_length := 0; Header.leaf_directories_offset := 136;
     Header.leaf_directories_length := 14; Header.tile_data_offset := 150;
     Header.tile_data_length := 3; Header.num_addressed_tiles := 3;
     Header.num_tile_entries := 3; Header.num_tile_content := 3;
     Header.clustered := false; Header.internal_compression := Compression.None;
     Header.tile_compression := Compression.None; Header.tile_type := TileType.Unknown;
     Header.min_zoom := 0; Header.max_zoom := 0;
     Header.min_pos := {| Header.longitude := 0%float; Header.latitude := 0%float |};
     Header.max_pos := {| Header.longitude := 0%float; Header.latitude := 0%float |};
     Header.center_zoom := 0;
     Header.center_pos := {| Header.longitude := 0%float; Header.latitude := 0%float |} |}.

Definition header_bytes : list Z :=
  match Header.to_writer header with Ok b => b | Err _ => [] end.

(** The root directory: leaf pointers with tile ids [0] and [10], of
    lengths [9] and [5], at offsets [0] and [9] of the leaf section. *)
Definition root_directory : list Z := [2; 0; 10; 0; 0; 9; 5; 1; 0].

(** The first leaf: the tiles [0] and [7], one byte each, at offsets [0]
    and [1]. *)
Definition leaf_a : list Z := [2; 0; 7; 1; 1; 1; 1; 1; 0].

(** The second leaf: the tile [10], one byte at offset [2]. *)
Definition leaf_b : list Z := [1; 10; 1; 1; 3].

Definition archive : list Z :=
  header_bytes ++ root_directory ++ leaf_a ++ leaf_b ++ [42; 43; 44].

(** The tile map of the full read. *)
Definition tiles : gmap Z (Z * Z) :=
  {[0 := (150, 1); 7 := (151, 1); 10 := (152, 1)]}.
End Archives3.


(* ================================================================== *)
(** * Claims *)

Import TileId.

(** C7: for every zoom [z] in [0, 31] and every [x, y < 2^z],
    [zxy(tile_id(z, x, y))] returns [Ok((z, x, y))]. *)
Theorem zxy_tile_id_roundtrip (z x y : Z) :
  0 <= z <= 31 -> 0 <= x < 2 ^ z -> 0 <= y < 2 ^ z ->
  zxy (tile_id z x y) = Ok (z, x, y).
Proof.
  intros Hz Hx Hy.
  destruct (Z.eq_dec z 0) as [->|Hz0].
  - change (2 ^ 0) with 1 in *.
    replace x with 0 by lia; replace y with 0 by lia. reflexivity.
  - assert (Hn : Z.of_nat (Z.to_nat z) = z) by lia.
    rewrite <- Hn in Hx, Hy.
    pose proof (xy2h_range (Z.to_nat z) x y Hx Hy) as Hh.
    pose proof (h2xy_xy2h (Z.to_nat z) x y Hx Hy) as Hrt.
    rewrite Hn, pow2_sq in Hh by lia.
    set (h := xy2h_discrete (Z.to_nat z) x y) in *.
    pose proof (B_succ z ltac:(lia)) as Hs.
    pose proof (B_mono (z + 1) 32 ltac:(lia)) as Hb.
    pose proof (B_mono 1 z ltac:(lia)) as Hb1.
    rewrite B_32 in Hb; rewrite B_1 in Hb1.
    assert (Ht : tile_id z x y = B z + h).
    { unfold tile_id. rewrite (proj2 (Z.eqb_neq z 0) Hz0).
      rewrite base_id_B by lia. fold h.
      unfold u64; rewrite Z.mod_small; lia. }
    rewrite Ht. unfold zxy.
    rewrite (proj2 (Z.eqb_neq _ 0)) by lia.
    assert (Hf : find_z (B z + h) = Ok z).
    { unfold find_z.
      change (find_z_loop (Z.to_nat (MAX_Z - 1)) 1 1 (B z + h) 0)
        with (find_z_loop 31 1 (B 1) (B z + h) 0).
      rewrite (find_z_loop_found 31 1 z (B z + h)) by (rewrite ?B_1; simpl; lia).
      rewrite (proj2 (Z.eqb_neq z 0) Hz0). reflexivity. }
    rewrite Hf. cbn [mbind result_mbind result_bind].
    rewrite base_id_B by lia.
    replace (u64 (B z + h - B z)) with h
      by (unfold u64; rewrite Z.mod_small; lia).
    rewrite Hrt. reflexivity.
Qed.

(** C8: for every [u64] tile id, [zxy(id)] fails with [MaxZError] exactly
    when [id >= 1 + sum_{i=1..31} 4^i = 6148914691236517205], and succeeds
    for every smaller id. *)
Theorem zxy_max_z_error (id : Z) :
  0 <= id < 2 ^ 64 ->
  (zxy id = Err MkMaxZError <-> 6148914691236517205 <= id) /\
  (id < 6148914691236517205 -> exists z x y, zxy id = Ok (z, x, y)).
Proof.
  intros Hid.
  assert (Hfz : id <> 0 ->
    (find_z id = Err MkMaxZError <-> 6148914691236517205 <= id)).
  { intros H0. unfold find_z.
    change (Z.to_nat (MAX_Z - 1)) with 31%nat.
    pose proof (find_z_loop_zero 31 1 id ltac:(lia) ltac:(lia)
                  ltac:(rewrite B_1; lia)) as Hl.
    rewrite B_1 in Hl. change (B (1 + Z.of_nat 31)) with 6148914691236517205 in Hl.
    destruct (find_z_loop 31 1 1 id 0 =? 0) eqn:E.
    - apply Z.eqb_eq in E. split; [intros _; apply Hl; exact E | reflexivity].
    - apply Z.eqb_neq in E. split; [discriminate | intros Hge; exfalso; apply E, Hl, Hge]. }
  unfold zxy.
  destruct (Z.eqb_spec id 0) as [->|H0].
  - split; [split; [discriminate | lia] | intros _; eauto].
  - specialize (Hfz H0).
    destruct (find_z id) as [z|e] eqn:Ez; cbn [mbind result_mbind result_bind].
    + destruct (h2xy_discrete (Z.to_nat z) (u64 (id - base_id z))) as [x y].
      split.
      * split; [discriminate | intros Hge; apply Hfz in Hge; discriminate].
      * intros _; eauto.
    + destruct e. split.
      * split; [intros _; apply Hfz; reflexivity | reflexivity].
      * intros Hlt. exfalso. assert (6148914691236517205 <= id) by (apply Hfz; reflexivity). lia.
Qed.

Lemma zxy_tile_id_roundtrip_witness :
  (0 <= 12 <= 31 /\ 0 <= 3423 < 2 ^ 12 /\ 0 <= 1763 < 2 ^ 12) /\
  zxy (tile_id 12 3423 1763) = Ok (12, 3423, 1763).
Proof.
  split; [repeat split; (vm_compute; (reflexivity || discriminate)) |].
  apply zxy_tile_id_roundtrip; split; (vm_compute; (reflexivity || discriminate)).
Defined.

Lemma zxy_max_z_error_witness :
  (0 <= 6148914691236517205 < 2 ^ 64) /\
  ((zxy 6148914691236517205 = Err MkMaxZError <->
    6148914691236517205 <= 6148914691236517205) /\
   (6148914691236517205 < 6148914691236517205 ->
    exists z x y, zxy 6148914691236517205 = Ok (z, x, y))).
Proof.
  split; [split; (vm_compute; (reflexivity || discriminate)) |].
  apply zxy_max_z_error; split; (vm_compute; (reflexivity || discriminate)).
Defined.


(** C4 (divergence): an offset column whose first value is the sentinel [0]
    is not rejected: [from_reader] succeeds on the five-byte stream
    [1; 0; 1; 1; 0] (one entry, tile id 0, run length 1, length 1, offset
    value 0) and returns the offset [0 - 1], wrapped to [u64::MAX]. *)
Theorem directory_first_offset_zero_accepted (cx : Compression.t -> Codec) :
  Directory.from_reader_impl cx [1; 0; 1; 1; 0] 5 Compression.None
  = Ok [{| Directory.tile_id := 0; Directory.offset := 2 ^ 64 - 1;
           Directory.length := 1; Directory.run_length := 1 |}].
Proof. vm_compute. reflexivity. Qed.

(** C5 (amended): for a codec whose decoder inverts its encoder, (1) every
    directory whose fields fit their types and in which no entry after the
    first has offset [u64::MAX] unless it starts where its predecessor
    ends, written with [to_writer] and read back with [from_reader] under
    the same compression, is returned unchanged; (2) a directory decoded by
    [from_reader] and written again with [to_writer] reads back as the
    same directory (the bytes may differ). *)
Theorem directory_roundtrip (cx : Compression.t -> Codec) (c : Compression.t) :
  (forall s, cdecode (cx c) (cencode (cx c) s) = Ok s) ->
  (forall es out rest,
     forallb Directory.entry_in_range es = true ->
     Z.of_nat (List.length es) < 2 ^ 64 ->
     Directory.offsets_encodable es = true ->
     Directory.to_writer_impl cx es c = Ok out ->
     Directory.from_reader_impl cx (out ++ rest) (Z.of_nat (List.length out)) c = Ok es) /\
  (forall input len d out rest,
     Directory.from_reader_impl cx input len c = Ok d ->
     Directory.to_writer_impl cx d c = Ok out ->
     Directory.from_reader_impl cx (out ++ rest) (Z.of_nat (List.length out)) c = Ok d).
Proof.
  intros Hcx. split.
  - intros es out rest Hr Hl He Hw.
    apply DirectoryFacts.to_writer_from_reader; assumption.
  - intros input len d out rest Hd Hw.
    destruct (DirectoryFacts.from_reader_spec _ _ _ _ _ Hd) as [Hr [Hl He]].
    apply DirectoryFacts.to_writer_from_reader; assumption.
Qed.

(** C5 counterexample: the directory [(0, 0, 1, 1); (1, u64::MAX, 1, 1)]
    is written with offset column [1; 0] and reads back with second offset
    [1]; and the stream [2; 0; 1; 1; 1; 5; 5; 1; 6] decodes to a directory
    that is written back as [2; 0; 1; 1; 1; 5; 5; 1; 0]. *)
Lemma directory_roundtrip_counterexample :
  (exists out,
     Directory.to_writer_impl passthrough_codecs
       [{| Directory.tile_id := 0; Directory.offset := 0;
           Directory.length := 1; Directory.run_length := 1 |};
        {| Directory.tile_id := 1; Directory.offset := 2 ^ 64 - 1;
           Directory.length := 1; Directory.run_length := 1 |}]
       Compression.None = Ok out /\
     Directory.from_reader_impl passthrough_codecs out
       (Z.of_nat (List.length out)) Compression.None
     <> Ok [{| Directory.tile_id := 0; Directory.offset := 0;
               Directory.length := 1; Directory.run_length := 1 |};
            {| Directory.tile_id := 1; Directory.offset := 2 ^ 64 - 1;
               Directory.length := 1; Directory.run_length := 1 |}]) /\
  (exists d out,
     Directory.from_reader_impl passthrough_codecs [2; 0; 1; 1; 1; 5; 5; 1; 6] 9
       Compression.None = Ok d /\
     Directory.to_writer_impl passthrough_codecs d Compression.None = Ok out /\
     out <> [2; 0; 1; 1; 1; 5; 5; 1; 6]).
Proof.
  split.
  - eexists. split; [vm_compute; reflexivity|]. vm_compute. discriminate.
  - do 2 eexists. split; [vm_compute; reflexivity|].
    split; [vm_compute; reflexivity|]. discriminate.
Qed.

Lemma directory_roundtrip_witness :
  (forall s, cdecode (passthrough_codecs Compression.GZip)
               (cencode (passthrough_codecs Compression.GZip) s) = Ok s) /\
  ((forall es out rest,
     forallb Directory.entry_in_range es = true ->
     Z.of_nat (List.length es) < 2 ^ 64 ->
     Directory.offsets_encodable es = true ->
     Directory.to_writer_impl passthrough_codecs es Compression.GZip = Ok out ->
     Directory.from_reader_impl passthrough_codecs (out ++ rest)
       (Z.of_nat (List.length out)) Compression.GZip = Ok es) /\
   (forall input len d out rest,
     Directory.from_reader_impl passthrough_codecs input len Compression.GZip = Ok d ->
     Directory.to_writer_impl passthrough_codecs d Compression.GZip = Ok out ->
     Directory.from_reader_impl passthrough_codecs (out ++ rest)
       (Z.of_nat (List.length out)) Compression.GZip = Ok d)).
Proof.
  split; [intros s; reflexivity|].
  apply directory_roundtrip. intros s; reflexivity.
Defined.

(** C6 (amended): for every header [h] with [spec_version = 3] whose
    fields fit their Rust types, [to_writer] writes exactly 127 bytes and
    [from_reader] reads them back as [h] with each latitude and longitude
    [v] replaced by [f64::from((v * 10^7) as i32) / 10^7]; all other fields
    come back unchanged. *)
Theorem header_roundtrip (h : Header.Header) (rest : list Z) :
  Header.header_valid h = true ->
  exists out, Header.to_writer h = Ok out /\ List.length out = 127%nat /\
    Header.from_reader (out ++ rest) = Ok (Header.with_stored_coords h).
Proof.
  intros Hv.
  assert (Hver : (Header.spec_version h =? 3) = true)
    by (unfold Header.header_valid in Hv; rewrite !andb_true_iff in Hv; tauto).
  destruct (Header.to_writer h) as [out|e] eqn:Hw.
  - exists out. pose proof (HeaderFacts.to_writer_length _ _ Hw) as Hl.
    split; [reflexivity|]. split; [exact Hl|].
    unfold Header.from_reader.
    rewrite HeaderFacts.take_bytes_app by exact Hl.
    cbn [mbind result_mbind result_bind].
    apply HeaderFacts.read_written; assumption.
  - unfold Header.to_writer in Hw. rewrite Hver in Hw. discriminate.
Qed.

Lemma header_roundtrip_witness :
  Header.header_valid Header.default = true /\
  exists out, Header.to_writer Header.default = Ok out /\ List.length out = 127%nat /\
    Header.from_reader (out ++ []) = Ok (Header.with_stored_coords Header.default).
Proof.
  split; [vm_compute; reflexivity|].
  apply header_roundtrip. vm_compute. reflexivity.
Defined.

(** C6 counterexample: [Header::default()] with center longitude
    [0.0000021] is written and read back with center longitude
    [0.000002], since [0.0000021 * 10^7] is slightly below [21] in [f64]
    and the cast truncates to [20]. *)
Lemma header_roundtrip_counterexample :
  exists out h',
    Header.to_writer
      {| Header.spec_version := 3; Header.root_directory_offset := 0;
         Header.root_directory_length := 0; Header.json_metadata_offset := 0;
         Header.json_metadata_length := 0; Header.leaf_directories_offset := 0;
         Header.leaf_directories_length := 0; Header.tile_data_offset := 0;
         Header.tile_data_length := 0; Header.num_addressed_tiles := 0;
         Header.num_tile_entries := 0; Header.num_tile_content := 0;
         Header.clustered := false; Header.internal_compression := Compression.GZip;
         Header.tile_compression := Compression.None; Header.tile_type := TileType.Unknown;
         Header.min_zoom := 0; Header.max_zoom := 0;
         Header.min_pos := {| Header.longitude := (-180)%float; Header.latitude := (-85)%float |};
         Header.max_pos := {| Header.longitude := 180%float; Header.latitude := 85%float |};
         Header.center_zoom := 0;
         Header.center_pos := {| Header.longitude := 0.0000021%float; Header.latitude := 0%float |} |}
    = Ok out /\
    Header.from_reader out = Ok h' /\
    Header.longitude (Header.center_pos h') <> 0.0000021%float /\
    Header.longitude (Header.center_pos h') = 0.000002%float.
Proof.
  do 2 eexists. split; [vm_compute; reflexivity|]. split; [vm_compute; reflexivity|].
  split.
  - intros E. apply (f_equal Prim2SF) in E. vm_compute in E. discriminate.
  - vm_compute. reflexivity.
Qed.

(** C2: when the full read [from_reader(input)] succeeds with tile map [T]
    and the archive is ordered as the pruning assumes (below every leaf
    pointer all tile ids are at least the pointer's tile id and those of
    the pointers above it), [from_reader_partially(input, R)] succeeds
    with the same header and metadata and a tile map whose key set is the
    key set of [T] intersected with [R]. *)
Theorem from_reader_partially_keys (cx : Compression.t -> Codec) (JSONValue : Type)
  (parse_meta_data : Compression.t -> list Z -> result io_error JSONValue)
  (fuel : nat) (input : list Z) (r : Walk.RangeBounds)
  (h : Header.Header) (m : option JSONValue) (T : gmap Z (Z * Z)) :
  Walk.range_in_u64 r = true ->
  PMTiles.from_reader cx JSONValue parse_meta_data fuel input = Ok (h, m, T) ->
  Walk.leaf_order_ok cx input (Header.internal_compression h)
    (Header.leaf_directories_offset h) fuel
    (Header.root_directory_offset h) (Header.root_directory_length h) 0 = true ->
  exists T',
    PMTiles.from_reader_partially cx JSONValue parse_meta_data fuel input r = Ok (h, m, T') /\
    (forall k, k ∈ dom T' <-> k ∈ dom T /\ Walk.contains r k = true).
Proof.
  intros Hr Hfull Ho.
  unfold PMTiles.from_reader, PMTiles.from_reader_partially, PMTiles.from_reader_impl in *.
  destruct (Header.from_reader input) as [h0|e] eqn:Hh; [|discriminate].
  cbn [mbind result_mbind result_bind] in Hfull |- *.
  destruct (PMTiles.read_meta _ _ input h0) as [m0|e] eqn:Hm; [|discriminate].
  cbn [mbind result_mbind result_bind] in Hfull |- *.
  destruct (Walk.read_directories cx fuel input _ _ _ _ Walk.full_range) as [T1|e] eqn:Hd;
    [|discriminate].
  cbn [mbind result_mbind result_bind] in Hfull.
  injection Hfull as <- <- <-.
  unfold Walk.read_directories in Hd |- *.
  destruct (WalkFacts.walk_filter _ _ _ _ r Hr _ _ _ ∅ _ _ _ Hd Ho) as [T2 [Hp Hrel]].
  { intros k. rewrite !lookup_empty. split; [intros [? H]; discriminate|intros [[? H] _]; discriminate]. }
  rewrite Hp. cbn [mbind result_mbind result_bind].
  exists (PMTiles.add_offset_tiles h0 T2). split; [reflexivity|].
  intros k. unfold PMTiles.add_offset_tiles. rewrite !elem_of_dom, !lookup_fmap, !fmap_is_Some.
  apply Hrel.
Qed.

(** The archive has two leaves; the range [..=5] prunes the leaf pointer
    with tile id [10] and filters the tile [7] out of the other leaf. *)
Lemma from_reader_partially_keys_witness :
  Walk.range_in_u64 Archives.up_to_5 = true /\
  PMTiles.from_reader passthrough_codecs unit Archives.no_meta 3 Archives3.archive
    = Ok (Archives3.header, Datatypes.None, Archives3.tiles) /\
  Walk.leaf_order_ok passthrough_codecs Archives3.archive Compression.None 136 3 127 9 0
    = true /\
  (exists T',
    PMTiles.from_reader_partially passthrough_codecs unit Archives.no_meta 3
      Archives3.archive Archives.up_to_5 = Ok (Archives3.header, Datatypes.None, T') /\
    (forall k, k ∈ dom T' <-> k ∈ dom Archives3.tiles /\
                             Walk.contains Archives.up_to_5 k = true)) /\
  PMTiles.from_reader_partially passthrough_codecs unit Archives.no_meta 3
    Archives3.archive Archives.up_to_5
    = Ok (Archives3.header, Datatypes.None, {[0 := (150, 1)]}).
Proof.
  split; [vm_compute; reflexivity|].
  split; [vm_compute; reflexivity|].
  split; [vm_compute; reflexivity|].
  split; [|vm_compute; reflexivity].
  apply (from_reader_partially_keys passthrough_codecs unit Archives.no_meta 3
           Archives3.archive Archives.up_to_5 Archives3.header Datatypes.None
           Archives3.tiles);
    vm_compute; reflexivity.
Defined.

(** C2 counterexample: an archive whose root holds one leaf pointer with
    tile id [10], while the leaf directory below it holds the tile [0].
    [from_reader] finds the tile [0]; with the range [..=5] the walk
    prunes the leaf pointer ([10 > 5]) and finds no tile, although [0]
    lies in the range. *)
Lemma from_reader_partially_counterexample :
  PMTiles.from_reader passthrough_codecs unit Archives.no_meta 3 (Archives.archive 10)
    = Ok (Archives.header, Datatypes.None, {[0 := (137, 1)]}) /\
  PMTiles.from_reader_partially passthrough_codecs unit Archives.no_meta 3
    (Archives.archive 10) Archives.up_to_5 = Ok (Archives.header, Datatypes.None, ∅) /\
  Walk.contains Archives.up_to_5 0 = true.
Proof. vm_compute. repeat split. Qed.

(** C3: suppose the codec turns every input of at most 64 bytes into at
    most [16384 - 127 = 16257] bytes and non-empty input into non-empty
    output, the entry list is shorter than [2^63] (as a slice is), and
    the start size is a [usize].  Then [write_directories] ends (with a
    result or an error, where a panic of [chunks(0)] counts as an error).
    On success the root directory left in [output] is at most 16257 bytes.
    The leaf section is empty exactly when the root directory of all
    entries fits. Otherwise the leaf section is non-empty, and it and the
    root come from the chunk size [start * 2^k] (as a [usize]) for the
    first [k] whose root of leaf pointers fits. *)
Theorem write_directories_root_fits (cx : Compression.t -> Codec) (c : Compression.t)
  (all_entries : list Directory.Entry)
  (overflow_strategy : option WriteDirs.WriteDirsOverflowStrategy) :
  (forall data out, (List.length data <= 64)%nat -> compress cx c data = Ok out ->
     Z.of_nat (List.length out) <= WriteDirs.MAX_ROOT_DIR_LENGTH) ->
  (forall data out, data <> [] -> compress cx c data = Ok out -> out <> []) ->
  Z.of_nat (List.length all_entries) < 2 ^ 63 ->
  0 <= WriteDirs.start_size_of overflow_strategy < 2 ^ 64 ->
  (exists fuel,
     WriteDirs.write_directories cx fuel all_entries c overflow_strategy <> Err OutOfFuel) /\
  (forall fuel root leaf,
     WriteDirs.write_directories cx fuel all_entries c overflow_strategy = Ok (root, leaf) ->
     Z.of_nat (List.length root) <= 16257 /\
     (leaf = [] <-> exists root0, Directory.to_writer_impl cx all_entries c = Ok root0 /\
                                  Z.of_nat (List.length root0) <= 16257) /\
     (leaf <> [] -> exists k,
        WriteDirs.leaf_pass cx all_entries c
          (u64 (WriteDirs.start_size_of overflow_strategy * 2 ^ Z.of_nat k)) = Ok (root, leaf) /\
        forall j, (j < k)%nat -> exists root' leaf',
          WriteDirs.leaf_pass cx all_entries c
            (u64 (WriteDirs.start_size_of overflow_strategy * 2 ^ Z.of_nat j))
            = Ok (root', leaf') /\ 16257 < Z.of_nat (List.length root'))).
Proof.
  intros Hsmall Hne Hn Hs.
  change 16257 with WriteDirs.MAX_ROOT_DIR_LENGTH.
  unfold WriteDirs.start_size_of in Hs |- *. unfold WriteDirs.write_directories.
  destruct (Directory.to_writer_impl cx all_entries c) as [r0|e] eqn:H0.
  2: { split.
       - exists O. cbn [mbind result_mbind result_bind]. intros H; injection H as ->.
         pose proof (WriteDirsFacts.compress_err _ _ _ _ H0). discriminate.
       - intros fuel root leaf H. discriminate. }
  cbn [mbind result_mbind result_bind].
  destruct (Z.leb_spec (Z.of_nat (List.length r0)) WriteDirs.MAX_ROOT_DIR_LENGTH) as [Hfit|Hbig].
  { split; [exists O; discriminate|].
    intros fuel root leaf H; injection H as <- <-.
    split; [exact Hfit|]. split; [split; [eauto|reflexivity]|congruence]. }
  assert (Hall : all_entries <> []).
  { intros ->. assert (Z.of_nat (List.length r0) <= WriteDirs.MAX_ROOT_DIR_LENGTH); [|lia].
    apply (Hsmall (Directory.raw_directory [])); [vm_compute; lia|exact H0]. }
  destruct (default WriteDirs.default_strategy overflow_strategy) as [start] eqn:Ho.
  unfold WriteDirs.only_leaf_pointer_strategy.
  set (s := default 4096 start) in Hs |- *.
  split.
  - destruct (Z.eq_dec s 0) as [Hs0|Hs0].
    + exists 1%nat. cbn [WriteDirs.leaf_loop]. unfold WriteDirs.leaf_pass.
      rewrite Hs0. cbn. discriminate.
    + exists 65%nat.
      apply (WriteDirsFacts.leaf_loop_terminates cx c all_entries Hsmall 64); [lia| |exact Hn].
      change (2 ^ Z.of_nat 64) with (2 ^ 64). lia.
  - intros fuel root leaf Hl.
    destruct (WriteDirsFacts.leaf_loop_result cx c all_entries fuel s root leaf Hs Hl)
      as [k [Hk [Hfit Hbefore]]].
    assert (Hleaf : leaf <> [])
      by exact (WriteDirsFacts.leaf_pass_nonempty cx c all_entries Hne _ _ _
                  (proj1 (u64_range _)) Hall Hk).
    split; [exact Hfit|]. split.
    + split; [congruence|]. intros [r1 [H1 H2]]. injection H1 as <-. lia.
    + intros _. exists k. auto.
Qed.

Lemma write_directories_root_fits_witness :
  (Z.of_nat (List.length [{| Directory.tile_id := 0; Directory.offset := 0;
                              Directory.length := 1; Directory.run_length := 1 |}]) < 2 ^ 63) /\
  (0 <= WriteDirs.start_size_of Datatypes.None < 2 ^ 64) /\
  (exists fuel,
     WriteDirs.write_directories passthrough_codecs fuel
       [{| Directory.tile_id := 0; Directory.offset := 0;
           Directory.length := 1; Directory.run_length := 1 |}]
       Compression.None Datatypes.None <> Err OutOfFuel) /\
  (forall fuel root leaf,
     WriteDirs.write_directories passthrough_codecs fuel
       [{| Directory.tile_id := 0; Directory.offset := 0;
           Directory.length := 1; Directory.run_length := 1 |}]
       Compression.None Datatypes.None = Ok (root, leaf) ->
     Z.of_nat (List.length root) <= 16257 /\
     (leaf = [] <-> exists root0,
        Directory.to_writer_impl passthrough_codecs
          [{| Directory.tile_id := 0; Directory.offset := 0;
              Directory.length := 1; Directory.run_length := 1 |}] Compression.None = Ok root0 /\
        Z.of_nat (List.length root0) <= 16257) /\
     (leaf <> [] -> exists k,
        WriteDirs.leaf_pass passthrough_codecs
          [{| Directory.tile_id := 0; Directory.offset := 0;
              Directory.length := 1; Directory.run_length := 1 |}] Compression.None
          (u64 (WriteDirs.start_size_of Datatypes.None * 2 ^ Z.of_nat k)) = Ok (root, leaf) /\
        forall j, (j < k)%nat -> exists root' leaf',
          WriteDirs.leaf_pass passthrough_codecs
            [{| Directory.tile_id := 0; Directory.offset := 0;
                Directory.length := 1; Directory.run_length := 1 |}] Compression.None
            (u64 (WriteDirs.start_size_of Datatypes.None * 2 ^ Z.of_nat j))
            = Ok (root', leaf') /\ 16257 < Z.of_nat (List.length root'))).
Proof.
  split; [vm_compute; reflexivity|]. split; [vm_compute; split; (discriminate || reflexivity)|].
  apply write_directories_root_fits.
  - intros data out Hl H. cbn in H. injection H as <-. unfold WriteDirs.MAX_ROOT_DIR_LENGTH. lia.
  - intros data out Hd H. cbn in H. injection H as <-. exact Hd.
  - vm_compute. reflexivity.
  - vm_compute. split; (discriminate || reflexivity).
Defined.

(** C9: for tile ids that are [u64] values, in the directory [finish]
    returns, no two consecutive entries [e1], [e2] could be merged
    ([e2.tile_id = e1.tile_id + e1.run_length] with the same offset and
    length), [e1.tile_id < e2.tile_id], and
    [e1.tile_id + e1.run_length <= e2.tile_id]. *)
Theorem finish_directory_apart (calculate_hash : list Z -> Z)
  (m : TileManager.TileManager) (res : TileManager.FinishResult) :
  TileManager.ids_in_u64 m ->
  TileManager.finish calculate_hash m = Ok res ->
  forall i e1 e2,
    TileManager.directory res !! i = Some e1 ->
    TileManager.directory res !! S i = Some e2 ->
    ~ (Directory.tile_id e2 = Directory.tile_id e1 + Directory.run_length e1 /\
       Directory.offset e2 = Directory.offset e1 /\
       Directory.length e2 = Directory.length e1) /\
    Directory.tile_id e1 < Directory.tile_id e2 /\
    Directory.tile_id e1 + Directory.run_length e1 <= Directory.tile_id e2.
Proof.
  intros Hm Hf i e1 e2 H1 H2.
  unfold TileManager.finish in Hf. apply bind_ok in Hf as [st [Hloop Hf]].
  injection Hf as <-. cbn in H1, H2.
  destruct (TileManagerFacts.id_tile_sorted m Hm) as [Hs Hr].
  assert (Hp : TileManagerFacts.pairs_ok (TileManager.entries st)).
  { refine (TileManagerFacts.finish_loop_pairs calculate_hash m _ _ _ Hs Hr _ _ Hloop).
    - exact I.
    - intros le H. discriminate H. }
  exact (TileManagerFacts.pairs_ok_lookup _ Hp i e1 e2 H1 H2).
Qed.

Lemma finish_directory_apart_witness :
  TileManager.ids_in_u64 Archives.manager /\
  exists res,
    TileManager.finish Archives.byte_length_hash Archives.manager = Ok res /\
    forall i e1 e2,
      TileManager.directory res !! i = Some e1 ->
      TileManager.directory res !! S i = Some e2 ->
      ~ (Directory.tile_id e2 = Directory.tile_id e1 + Directory.run_length e1 /\
         Directory.offset e2 = Directory.offset e1 /\
         Directory.length e2 = Directory.length e1) /\
      Directory.tile_id e1 < Directory.tile_id e2 /\
      Directory.tile_id e1 + Directory.run_length e1 <= Directory.tile_id e2.
Proof.
  assert (Hm : TileManager.ids_in_u64 Archives.manager)
    by (unfold TileManager.ids_in_u64; apply (bool_decide_eq_true_1 (map_Forall _ _)); vm_compute; reflexivity).
  split; [exact Hm|].
  destruct (TileManager.finish Archives.byte_length_hash Archives.manager) as [res|e] eqn:Hf;
    [|vm_compute in Hf; discriminate].
  exists res. split; [reflexivity|].
  exact (finish_directory_apart Archives.byte_length_hash Archives.manager res Hm Hf).
Defined.

(** C10: for a tile id with no reference in the tile manager (one the
    calls never added, or one removed, with no later call on that id),
    [get_tile] returns [Ok(None)], not an error; and [get_tile] fails
    only for an id held as an offset-length reference. *)
Theorem get_tile_unreferenced (calculate_hash : list Z -> Z) (m : TileManager.TileManager)
  (id : Z) (ops : list TileManager.op) :
  Forall (fun o => TileManager.op_tile_id o <> id) ops ->
  (TileManager.tile_by_id m !! id = Datatypes.None ->
   TileManager.get_tile (TileManager.run_ops calculate_hash m ops) id = Ok Datatypes.None) /\
  TileManager.get_tile
    (TileManager.run_ops calculate_hash (fst (TileManager.remove_tile m id)) ops)
    id = Ok Datatypes.None /\
  (forall e, TileManager.get_tile m id = Err e ->
   exists offset length,
     TileManager.tile_by_id m !! id = Some (TileManager.OffsetLength offset length)).
Proof.
  intros Hops. split; [|split].
  - intros Hnone. unfold TileManager.get_tile.
    rewrite TileManagerFacts.run_ops_ids by exact Hops. rewrite Hnone. reflexivity.
  - unfold TileManager.get_tile.
    rewrite TileManagerFacts.run_ops_ids by exact Hops.
    rewrite TileManagerFacts.remove_tile_ids, lookup_delete_eq. reflexivity.
  - intros e. unfold TileManager.get_tile.
    destruct (TileManager.tile_by_id m !! id) as [[h|o l]|]; cbn; try discriminate.
    intros _. eauto.
Qed.

Lemma get_tile_unreferenced_witness :
  Forall (fun o => TileManager.op_tile_id o <> 9) [TileManager.AddTile 1 [9]] /\
  (TileManager.tile_by_id Archives.manager !! 9 = Datatypes.None ->
   TileManager.get_tile
     (TileManager.run_ops Archives.byte_length_hash Archives.manager [TileManager.AddTile 1 [9]])
     9 = Ok Datatypes.None) /\
  TileManager.get_tile
    (TileManager.run_ops Archives.byte_length_hash
       (fst (TileManager.remove_tile Archives.manager 9))
       [TileManager.AddTile 1 [9]]) 9 = Ok Datatypes.None /\
  (forall e, TileManager.get_tile Archives.manager 9 = Err e ->
   exists offset length,
     TileManager.tile_by_id Archives.manager !! 9 = Some (TileManager.OffsetLength offset length)).
Proof.
  assert (H : Forall (fun o => TileManager.op_tile_id o <> 9) [TileManager.AddTile 1 [9]])
    by (constructor; [simpl; lia|constructor]).
  split; [exact H|].
  exact (get_tile_unreferenced Archives.byte_length_hash Archives.manager 9 _ H).
Defined.

(** C1: let the calls [ops] on a new tile manager contain [add_tile(a, B)]
    and [add_tile(b, B)], each with no later call on its id.  If the tile
    ids are [u64] values, the manager holds fewer than [2^32] tiles, no
    tile of the manager has bytes other than [B] with the hash of [B], and
    [finish] succeeds, then its blob is the concatenation of pairwise
    distinct tile contents in which [B] occurs exactly once,
    [num_tile_content] is their number, and the entries covering [a] and
    [b] carry the same offset and length: the place of [B] in the blob. *)
Theorem finish_dedup (calculate_hash : list Z -> Z) (r : option (list Z))
  (ops pre_a post_a pre_b post_b : list TileManager.op) (a b : Z) (B : list Z)
  (res : TileManager.FinishResult) :
  ops = pre_a ++ TileManager.AddTile a B :: post_a ->
  ops = pre_b ++ TileManager.AddTile b B :: post_b ->
  Forall (fun o => TileManager.op_tile_id o <> a) post_a ->
  Forall (fun o => TileManager.op_tile_id o <> b) post_b ->
  TileManager.ids_in_u64 (TileManager.run_ops calculate_hash (TileManager.new r) ops) ->
  Z.of_nat (size (TileManager.tile_by_id
                    (TileManager.run_ops calculate_hash (TileManager.new r) ops))) < 2 ^ 32 ->
  (forall id C,
     TileManager.get_tile (TileManager.run_ops calculate_hash (TileManager.new r) ops) id
       = Ok (Some C) ->
     calculate_hash C = calculate_hash B -> C = B) ->
  TileManager.finish calculate_hash (TileManager.run_ops calculate_hash (TileManager.new r) ops)
    = Ok res ->
  exists pre post,
    TileManager.fr_data res = concat (pre ++ B :: post) /\
    NoDup (pre ++ B :: post) /\
    TileManager.fr_num_tile_content res = Z.of_nat (List.length (pre ++ B :: post)) /\
    exists ea eb,
      ea ∈ TileManager.directory res /\ eb ∈ TileManager.directory res /\
      Directory.tile_id ea <= a < Directory.tile_id ea + Directory.run_length ea /\
      Directory.tile_id eb <= b < Directory.tile_id eb + Directory.run_length eb /\
      Directory.offset ea = Directory.offset eb /\ Directory.length ea = Directory.length eb /\
      Directory.offset ea = Z.of_nat (List.length (concat pre)) /\
      Directory.length ea = u32 (Z.of_nat (List.length B)).
Proof.
  intros Ha Hb Hpa Hpb Hu Hsz Hinj Hf.
  remember (TileManager.run_ops calculate_hash (TileManager.new r) ops) as m eqn:Hm.
  assert (Hd : DedupFacts.data_hashed calculate_hash m).
  { rewrite Hm. apply DedupFacts.run_ops_data_hashed. apply map_Forall_empty. }
  assert (HA : DedupFacts.holds_tile m a (calculate_hash B))
    by (rewrite Hm, Ha; apply DedupFacts.run_ops_added; exact Hpa).
  assert (HB : DedupFacts.holds_tile m b (calculate_hash B))
    by (rewrite Hm, Hb; apply DedupFacts.run_ops_added; exact Hpb).
  destruct HA as (HA1 & _ & [D HD]). destruct HB as (HB1 & _ & _).
  assert (HDB : D = B).
  { apply (Hinj a D).
    - unfold TileManager.get_tile. rewrite HA1. cbn. rewrite HD. reflexivity.
    - exact (Hd _ _ HD). }
  subst D.
  unfold TileManager.finish in Hf. apply bind_ok in Hf as [st [Hloop Hf]].
  injection Hf as <-. cbn [TileManager.fr_data TileManager.fr_num_tile_content TileManager.directory].
  destruct (TileManagerFacts.id_tile_sorted m Hu) as [Hs Hr].
  pose proof (merge_sort_Permutation TileManager.key_le (map_to_list (TileManager.tile_by_id m)))
    as Hperm.
  assert (Hinit : DedupFacts.finish_inv calculate_hash m
                    (TileManager.mkFinishState [] [] 0 0 ∅) [] 0 0).
  { unfold DedupFacts.finish_inv. cbn.
    split; [reflexivity|]. split; [reflexivity|]. split; [lia|].
    split; [constructor|]. split; [constructor|].
    split; [intros key ol H; rewrite lookup_empty in H; discriminate|].
    split; [intros C HC; inversion HC|]. intros e He. inversion He. }
  assert (Hf0 : Forall (fun p : Z * TileManager.TileManagerTile =>
                  0 <= p.1 /\ 0 <= p.1 < 2 ^ 64 /\ TileManager.tile_by_id m !! p.1 = Some p.2)
                  (merge_sort TileManager.key_le (map_to_list (TileManager.tile_by_id m)))).
  { rewrite Forall_forall in Hr |- *. intros [k t] Hq. specialize (Hr _ Hq). cbn in Hr |- *.
    rewrite Hperm in Hq. apply elem_of_map_to_list in Hq.
    split; [lia|]. split; [exact Hr|exact Hq]. }
  assert (Hlen : 0 + Z.of_nat (List.length
                   (merge_sort TileManager.key_le (map_to_list (TileManager.tile_by_id m)))) < 2 ^ 32).
  { rewrite (Permutation_length Hperm), length_map_to_list. lia. }
  destruct (DedupFacts.finish_loop_inv calculate_hash m Hd _ _ _ [] 0 0 Hinit Hs Hf0
              ltac:(lia) Hlen Hloop)
    as (chunks & n' & k' & (I1 & I2 & _ & I4 & I5 & I6 & _ & _) & _ & Hp).
  rewrite Forall_forall in Hp.
  assert (Hplaced : forall x, TileManager.tile_by_id m !! x = Some (TileManager.Hash (calculate_hash B)) ->
                    DedupFacts.placed calculate_hash st x B).
  { intros x Hx. refine (Hp (x, TileManager.Hash (calculate_hash B)) _ B _).
    - rewrite Hperm. apply elem_of_map_to_list. exact Hx.
    - cbn. rewrite HD. reflexivity. }
  destruct (Hplaced a HA1) as (ol & ea & Hol & Hea & Hca & Hoa).
  destruct (Hplaced b HB1) as (ol' & eb & Hol' & Heb & Hcb & Hob).
  rewrite Hol in Hol'. injection Hol' as <-.
  destruct (I6 _ _ Hol) as (pre & C & post & Hch & HC & ->).
  assert (HCB : C = B).
  { rewrite Forall_forall in I5. assert (Hin : C ∈ chunks) by (rewrite Hch; set_solver).
    destruct (I5 C Hin) as [id Hid]. exact (Hinj id C Hid HC). }
  subst C. exists pre, post.
  split; [rewrite I1, Hch; reflexivity|].
  split; [rewrite <- Hch; exact (NoDup_fmap_1 _ _ I4)|].
  split; [rewrite I2, Hch; reflexivity|].
  injection Hoa as Hoa1 Hoa2. injection Hob as Hob1 Hob2.
  exists ea, eb. repeat split; try assumption; try lia; congruence.
Qed.

Lemma finish_dedup_witness :
  Archives.manager_ops =
    [TileManager.AddTile 3 [7; 8]; TileManager.AddTile 1 [9]] ++
    TileManager.AddTile 2 [7; 8] :: [TileManager.AddTile 4 [7; 8]; TileManager.AddTile 5 [3; 4; 5]] /\
  Archives.manager_ops =
    [TileManager.AddTile 3 [7; 8]; TileManager.AddTile 1 [9]; TileManager.AddTile 2 [7; 8]] ++
    TileManager.AddTile 4 [7; 8] :: [TileManager.AddTile 5 [3; 4; 5]] /\
  Forall (fun o => TileManager.op_tile_id o <> 2)
    [TileManager.AddTile 4 [7; 8]; TileManager.AddTile 5 [3; 4; 5]] /\
  Forall (fun o => TileManager.op_tile_id o <> 4) [TileManager.AddTile 5 [3; 4; 5]] /\
  TileManager.ids_in_u64 (TileManager.run_ops Archives.byte_length_hash (TileManager.new Datatypes.None)
       Archives.manager_ops) /\
  Z.of_nat (size (TileManager.tile_by_id (TileManager.run_ops Archives.byte_length_hash (TileManager.new Datatypes.None)
       Archives.manager_ops))) < 2 ^ 32 /\
  (forall id C, TileManager.get_tile (TileManager.run_ops Archives.byte_length_hash (TileManager.new Datatypes.None)
       Archives.manager_ops) id = Ok (Some C) ->
     Archives.byte_length_hash C = Archives.byte_length_hash [7; 8] -> C = [7; 8]) /\
  exists res,
    TileManager.finish Archives.byte_length_hash (TileManager.run_ops Archives.byte_length_hash (TileManager.new Datatypes.None)
       Archives.manager_ops) = Ok res /\
    exists pre post,
      TileManager.fr_data res = concat (pre ++ [7; 8] :: post) /\
      NoDup (pre ++ [7; 8] :: post) /\
      TileManager.fr_num_tile_content res = Z.of_nat (List.length (pre ++ [7; 8] :: post)) /\
      exists ea eb,
        ea ∈ TileManager.directory res /\ eb ∈ TileManager.directory res /\
        Directory.tile_id ea <= 2 < Directory.tile_id ea + Directory.run_length ea /\
        Directory.tile_id eb <= 4 < Directory.tile_id eb + Directory.run_length eb /\
        Directory.offset ea = Directory.offset eb /\ Directory.length ea = Directory.length eb /\
        Directory.offset ea = Z.of_nat (List.length (concat pre)) /\
        Directory.length ea = u32 (Z.of_nat (List.length [7; 8])).
Proof.
  assert (H1 : Archives.manager_ops =
    [TileManager.AddTile 3 [7; 8]; TileManager.AddTile 1 [9]] ++
    TileManager.AddTile 2 [7; 8] :: [TileManager.AddTile 4 [7; 8]; TileManager.AddTile 5 [3; 4; 5]])
    by reflexivity.
  assert (H2 : Archives.manager_ops =
    [TileManager.AddTile 3 [7; 8]; TileManager.AddTile 1 [9]; TileManager.AddTile 2 [7; 8]] ++
    TileManager.AddTile 4 [7; 8] :: [TileManager.AddTile 5 [3; 4; 5]]) by reflexivity.
  assert (H3 : Forall (fun o => TileManager.op_tile_id o <> 2)
                 [TileManager.AddTile 4 [7; 8]; TileManager.AddTile 5 [3; 4; 5]])
    by (repeat (constructor; [cbn; lia|]); constructor).
  assert (H4 : Forall (fun o => TileManager.op_tile_id o <> 4) [TileManager.AddTile 5 [3; 4; 5]])
    by (repeat (constructor; [cbn; lia|]); constructor).
  assert (H5 : TileManager.ids_in_u64 (TileManager.run_ops Archives.byte_length_hash (TileManager.new Datatypes.None)
       Archives.manager_ops))
    by (unfold TileManager.ids_in_u64; apply (bool_decide_eq_true_1 (map_Forall _ _));
        vm_compute; reflexivity).
  assert (H6 : Z.of_nat (size (TileManager.tile_by_id (TileManager.run_ops Archives.byte_length_hash (TileManager.new Datatypes.None)
       Archives.manager_ops))) < 2 ^ 32)
    by (vm_compute; reflexivity).
  assert (H7 : forall id C, TileManager.get_tile (TileManager.run_ops Archives.byte_length_hash (TileManager.new Datatypes.None)
       Archives.manager_ops) id = Ok (Some C) ->
                 Archives.byte_length_hash C = Archives.byte_length_hash [7; 8] -> C = [7; 8]).
  { refine (DedupFacts.get_tile_forall (TileManager.run_ops Archives.byte_length_hash
               (TileManager.new Datatypes.None) Archives.manager_ops)
             (fun C => Archives.byte_length_hash C = Archives.byte_length_hash [7; 8] -> C = [7; 8]) _).
    apply map_Forall_to_list. vm_compute.
    repeat (apply Forall_cons; split;
            [intros C HC Hh; injection HC as <-;
             first [reflexivity | vm_compute in Hh; discriminate Hh]|]).
    apply Forall_nil. exact I. }
  split; [exact H1|]. split; [exact H2|]. split; [exact H3|]. split; [exact H4|].
  split; [exact H5|]. split; [exact H6|]. split; [exact H7|].
  destruct (TileManager.finish Archives.byte_length_hash (TileManager.run_ops Archives.byte_length_hash (TileManager.new Datatypes.None)
       Archives.manager_ops)) as [res|e] eqn:Hf;
    [|vm_compute in Hf; discriminate].
  exists res. split; [reflexivity|].
  exact (finish_dedup Archives.byte_length_hash Datatypes.None Archives.manager_ops
           [TileManager.AddTile 3 [7; 8]; TileManager.AddTile 1 [9]]
           [TileManager.AddTile 4 [7; 8]; TileManager.AddTile 5 [3; 4; 5]]
           [TileManager.AddTile 3 [7; 8]; TileManager.AddTile 1 [9]; TileManager.AddTile 2 [7; 8]]
           [TileManager.AddTile 5 [3; 4; 5]] 2 4 [7; 8] res H1 H2 H3 H4 H5 H6 H7 Hf).
Defined.

(** C1, the hash collision: tiles [1] and [2] get the bytes [[9]], tile [3]
    gets [[1]] with the same hash; [finish] stores [[1]] once and points
    all three tiles at it, so the bytes [[9]] are not in the blob. *)
Lemma finish_dedup_counterexample :
  exists res,
    TileManager.finish Archives.byte_length_hash Archives.colliding_manager = Ok res /\
    TileManager.fr_data res = [1] /\
    TileManager.fr_num_tile_content res = 1 /\
    TileManager.directory res =
      [{| Directory.tile_id := 1; Directory.offset := 0; Directory.length := 1;
          Directory.run_length := 3 |}] /\
    TileManager.get_tile Archives.colliding_manager 1 = Ok (Some [1]).
Proof.
  exists (TileManager.mkFinishResult [1] 3 1 1
            [{| Directory.tile_id := 1; Directory.offset := 0; Directory.length := 1;
                Directory.run_length := 3 |}]).
  repeat split; vm_compute; reflexivity.
Qed.


(* ================================================================== *)
(** * Further properties of the code *)

Import TileManager TileManagerIds ManagerFacts ManagerFacts2 ManagerFacts3.
(** X1: after [add_tile(a, B)], [get_tile(a)] returns [B] as long as no
    later call acts on [a] and no later [add_tile] stores other bytes with
    the hash of [B]. *)
Theorem add_tile_get_tile (calculate_hash : list Z -> Z) (m : TileManager)
  (pre post : list op) (a : Z) (B : list Z) :
  Forall (fun o => op_tile_id o <> a /\ no_clash calculate_hash B o) post ->
  get_tile (run_ops calculate_hash m (pre ++ AddTile a B :: post)) a = Ok (Some B).
Proof.
  intros Hpost. apply holds_data_get with calculate_hash.
  rewrite DedupFacts.run_ops_app.
  change (run_ops calculate_hash (run_ops calculate_hash m pre) (AddTile a B :: post))
    with (run_ops calculate_hash
            (add_tile calculate_hash (run_ops calculate_hash m pre) a B) post).
  apply run_ops_holds_data; [exact Hpost|]. apply add_tile_holds_data_new.
Qed.

(** X2: [remove_tile(id)] returns [true] exactly when [id] was held;
    afterwards [get_tile(id)] is [Ok(None)], and [num_addressed_tiles]
    dropped by one exactly when it returned [true]. *)
Theorem remove_tile_result (m : TileManager) (id : Z) :
  snd (remove_tile m id) = bool_decide (is_Some (tile_by_id m !! id)) /\
  get_tile (fst (remove_tile m id)) id = Ok None /\
  num_addressed_tiles (fst (remove_tile m id)) =
    num_addressed_tiles m - (if snd (remove_tile m id) then 1 else 0).
Proof.
  assert (Hs : snd (remove_tile m id) = bool_decide (is_Some (tile_by_id m !! id))).
  { unfold remove_tile. destruct (tile_by_id m !! id) as [[h|o l]|] eqn:E.
    - case_bool_decide; reflexivity.
    - reflexivity.
    - reflexivity. }
  split; [exact Hs|]. split.
  - unfold get_tile. rewrite TileManagerFacts.remove_tile_ids, lookup_delete_eq. reflexivity.
  - unfold num_addressed_tiles. rewrite TileManagerFacts.remove_tile_ids, Hs.
    apply num_addressed_delete.
Qed.

(** X3: on a tile manager built from [new] by any calls, [remove_tile(c)]
    leaves [get_tile(id)] of every other id unchanged, also for ids that
    share the bytes of [c]. *)
Theorem remove_tile_get_tile_other (calculate_hash : list Z -> Z) (r : option (list Z))
  (ops : list op) (c id : Z) :
  id <> c ->
  get_tile (fst (remove_tile (run_ops calculate_hash (new r) ops) c)) id =
  get_tile (run_ops calculate_hash (new r) ops) id.
Proof.
  intros Hne. apply remove_tile_get_other; [|exact Hne].
  apply run_ops_refs_ok, new_refs_ok.
Qed.

(** X4: [add_tile] and [add_offset_tile] grow [num_addressed_tiles] by one
    when the id was not held, and leave it unchanged when they replace a
    tile. *)
Theorem add_tile_num_addressed (calculate_hash : list Z -> Z) (m : TileManager)
  (id : Z) (vec : list Z) (offset length : Z) :
  num_addressed_tiles (add_tile calculate_hash m id vec) =
    num_addressed_tiles m + (if bool_decide (is_Some (tile_by_id m !! id)) then 0 else 1) /\
  num_addressed_tiles (add_offset_tile m id offset length) =
    num_addressed_tiles m + (if bool_decide (is_Some (tile_by_id m !! id)) then 0 else 1).
Proof.
  split.
  - unfold num_addressed_tiles, add_tile. cbv zeta. cbn [tile_by_id].
    rewrite num_addressed_insert, TileManagerFacts.remove_tile_ids, num_addressed_delete.
    rewrite lookup_delete_eq. rewrite (bool_decide_eq_false_2 (is_Some None))
      by (intros [? ?]; discriminate).
    case_bool_decide; lia.
  - unfold num_addressed_tiles, add_offset_tile. cbn [tile_by_id].
    apply num_addressed_insert.
Qed.


(** X5: after any calls, [get_tile_ids] lists each id once, has
    [num_addressed_tiles] elements, and holds [id] exactly when the last
    call on [id] added it (or, with no call on [id], when it held [id]
    before). *)
Theorem get_tile_ids_run_ops (calculate_hash : list Z -> Z) (m : TileManager)
  (ops : list op) (id : Z) :
  NoDup (get_tile_ids (run_ops calculate_hash m ops)) /\
  Z.of_nat (length (get_tile_ids (run_ops calculate_hash m ops))) =
    num_addressed_tiles (run_ops calculate_hash m ops) /\
  (id ∈ get_tile_ids (run_ops calculate_hash m ops) <->
   match last_op_on ops id with
   | Some (RemoveTile _) => False
   | Some _ => True
   | None => id ∈ get_tile_ids m
   end).
Proof.
  split; [apply NoDup_fst_map_to_list|]. split.
  { unfold get_tile_ids, num_addressed_tiles. rewrite length_fmap, length_map_to_list.
    reflexivity. }
  induction ops as [|o ops IH] using rev_ind; [reflexivity|].
  unfold last_op_on. rewrite filter_app, run_ops_snoc. cbn [filter list_filter].
  case_decide as Ho.
  - rewrite last_snoc, get_tile_ids_elem, <- Ho. apply apply_op_same.
  - rewrite app_nil_r. fold (last_op_on ops id). rewrite <- IH, !get_tile_ids_elem.
    rewrite TileManagerFacts.apply_op_ids by exact Ho. reflexivity.
Qed.

(** X6: [finish] fails exactly when [get_tile] fails for some id. *)
Theorem finish_error_iff (calculate_hash : list Z -> Z) (m : TileManager) :
  (exists e, finish calculate_hash m = Err e) <->
  (exists id e, get_tile m id = Err e).
Proof.
  unfold finish.
  transitivity (exists e, finish_loop calculate_hash m
                  (merge_sort key_le (map_to_list (tile_by_id m))) (mkFinishState [] [] 0 0 ∅) = Err e).
  { destruct (finish_loop _ _ _ _) as [st|e]; cbn; split; intros [e' He']; eauto; discriminate. }
  rewrite finish_loop_err. split.
  - intros (k & t & e & Hin & He). rewrite (merge_sort_Permutation key_le) in Hin.
    apply elem_of_map_to_list in Hin. exists k, e. unfold get_tile. rewrite Hin. exact He.
  - intros (id & e & He). unfold get_tile in He.
    destruct (tile_by_id m !! id) as [t|] eqn:Ht; [|discriminate].
    exists id, t, e. split; [|exact He].
    rewrite (merge_sort_Permutation key_le). apply elem_of_map_to_list, Ht.
Qed.

(** X7: the [num_addressed_tiles] that [finish] reports counts the ids for
    which [get_tile] returns bytes. *)
Theorem finish_num_addressed (calculate_hash : list Z -> Z) (m : TileManager)
  (res : FinishResult) :
  num_addressed_tiles m < 2 ^ 64 ->
  finish calculate_hash m = Ok res ->
  fr_num_addressed_tiles res =
    Z.of_nat (length (filter (fun k => has_content m k = true) (get_tile_ids m))).
Proof.
  intros Hn Hf. unfold finish in Hf. apply bind_ok in Hf as [st [Hloop Hf]].
  injection Hf as <-. cbn [fr_num_addressed_tiles].
  rewrite (finish_loop_count calculate_hash m (merge_sort key_le (map_to_list (tile_by_id m))) (mkFinishState [] [] 0 0 ∅) st); [|intros k t Hin| |exact Hloop].
  - cbn [TileManager.num_addressed_tiles]. rewrite Z.add_0_l.
    rewrite (merge_sort_Permutation key_le). unfold get_tile_ids.
    rewrite filter_fst_length. apply u64_small.
    pose proof (length_filter (fun p : Z * TileManagerTile => has_content m p.1 = true)
                  (map_to_list (tile_by_id m))) as Hle.
    rewrite length_map_to_list in Hle. unfold num_addressed_tiles in Hn. lia.
  - rewrite (merge_sort_Permutation key_le) in Hin. apply elem_of_map_to_list, Hin.
  - cbn. lia.
Qed.


(** X8: [Header::from_reader] fails with [UnexpectedEof] on fewer than 127
    bytes; otherwise it reads only the first 127 bytes, rejects a wrong
    magic with a parse error, and fails with nothing but a parse error. *)
Theorem header_from_reader_errors (input : list Z) :
  ((List.length input < 127)%nat -> Header.from_reader input = Err UnexpectedEof) /\
  ((127 <= List.length input)%nat ->
   Header.from_reader input = Header.from_reader (take 127 input) /\
   (take 7 input <> Header.magic -> Header.from_reader input = Err DekuParse) /\
   (forall e, Header.from_reader input = Err e -> e = DekuParse)).
Proof.
  split.
  - intros Hl. unfold Header.from_reader, Header.take_bytes, Header.HEADER_BYTES.
    destruct (Nat.ltb_spec (List.length input) 127); [reflexivity|lia].
  - intros Hl. rewrite (HeaderErrFacts.from_reader_take input Hl).
    assert (Ht : List.length (take 127 input) = 127%nat) by (rewrite length_take; lia).
    split; [|split].
    + rewrite HeaderErrFacts.from_reader_take by lia. rewrite take_take.
      replace (Nat.min 127 127) with 127%nat by reflexivity. reflexivity.
    + intros Hm. unfold Header.read at 1, Header.take_bytes at 1.
      destruct (Nat.ltb_spec (List.length (take 127 input)) 7); [lia|].
      cbn [mbind result_mbind result_bind]. rewrite take_take.
      replace (Nat.min 7 127) with 7%nat by reflexivity.
      rewrite bool_decide_eq_false_2 by exact Hm. reflexivity.
    + apply HeaderErrFacts.read_errors_parse, Ht.
Qed.

(** X9: [get_tile] fails exactly for an id held as an offset-length
    reference when the manager has no reader or the reader ends before
    [offset + length]; the error is then [UnexpectedEof]. *)
Theorem get_tile_error (m : TileManager) (id : Z) (e : io_error) :
  get_tile m id = Err e <->
  e = UnexpectedEof /\
  exists offset length,
    tile_by_id m !! id = Some (OffsetLength offset length) /\
    match reader m with
    | Some r => (List.length r - Z.to_nat offset < Z.to_nat length)%nat
    | Datatypes.None => True
    end.
Proof.
  unfold get_tile. destruct (tile_by_id m !! id) as [[h|o l]|].
  - cbn. split; [discriminate|]. intros (_ & o & l & E & _). discriminate.
  - cbn. destruct (reader m) as [r|].
    + unfold read_at. rewrite length_drop. case_bool_decide as Hb; cbn.
      * split; [discriminate|]. intros (_ & o' & l' & E & Hlt). injection E as <- <-. lia.
      * split.
        -- intros E. injection E as <-. split; [reflexivity|]. exists o, l. split; [reflexivity|lia].
        -- intros (-> & _). reflexivity.
    + split.
      * intros E. injection E as <-. split; [reflexivity|]. eauto.
      * intros (-> & _). reflexivity.
  - split; [discriminate|]. intros (_ & o & l & E & _). discriminate.
Qed.

(** X10: for [z] in [0, 31] and [x, y < 2^z], [tile_id(z, x, y)] lies in
    [[(4^z - 1) / 3, (4^(z+1) - 1) / 3)]: the ids of one zoom form a
    block, below those of the next zoom. *)
Theorem tile_id_zoom_block (z x y : Z) :
  0 <= z <= 31 -> 0 <= x < 2 ^ z -> 0 <= y < 2 ^ z ->
  TileId.B z <= TileId.tile_id z x y < TileId.B (z + 1).
Proof.
  intros Hz Hx Hy. rewrite TileId.B_succ by lia. unfold TileId.tile_id.
  destruct (Z.eqb_spec z 0) as [->|Hz0]; [change (TileId.B 0) with 0; cbn; lia|].
  rewrite TileId.base_id_B by lia.
  pose proof (TileId.xy2h_range (Z.to_nat z) x y) as Hr. rewrite Z2Nat.id in Hr by lia.
  specialize (Hr Hx Hy). rewrite TileId.pow2_sq in Hr by lia.
  pose proof (TileId.B_mono (z + 1) 32 ltac:(lia)) as Hb.
  rewrite TileId.B_succ in Hb by lia. rewrite TileId.B_32 in Hb.
  pose proof (TileId.B_mono 0 z ltac:(lia)) as Hb0. change (TileId.B 0) with 0 in Hb0.
  rewrite u64_small by lia. lia.
Qed.

(** X11: [PMTiles::to_writer] with internal compression [Unknown] fails:
    with [finish]'s error if [finish] fails, else with
    [UnknownCompression]. *)
Theorem to_writer_unknown_compression (JSONValue : Type) (calculate_hash : list Z -> Z)
  (cx : Compression.t -> Codec) (to_vec : JSONValue -> list Z) (empty_object : JSONValue)
  (fuel : nat) (p : PMTilesApi.PMTiles JSONValue) (output : Cursor.Cursor) :
  PMTilesApi.internal_compression JSONValue p = Compression.Unknown ->
  PMTilesApi.to_writer_impl JSONValue calculate_hash cx to_vec empty_object fuel p output =
  match finish calculate_hash (PMTilesApi.tile_manager JSONValue p) with
  | Ok _ => Err UnknownCompression
  | Err e => Err e
  end.
Proof.
  intros Hc. unfold PMTilesApi.to_writer_impl.
  destruct (finish calculate_hash _) as [res|e]; [|reflexivity]. cbn.
  unfold WriteDirsCursor.write_directories, Directory.to_writer_impl. rewrite Hc. reflexivity.
Qed.


(** X12: on a tile manager built from [new] by any calls, with tile ids in
    [u64], fewer than [2^32] tiles, no hash collision between tile
    contents and contents shorter than [2^32] bytes, the directory of
    [finish] covers exactly the ids with bytes, and every run covering
    such an id points at those bytes in the data blob. *)
Theorem finish_directory_locates (calculate_hash : list Z -> Z) (r : option (list Z))
  (ops : list op) (res : FinishResult) (k : Z) :
  ids_in_u64 (run_ops calculate_hash (new r) ops) ->
  Z.of_nat (size (tile_by_id (run_ops calculate_hash (new r) ops))) < 2 ^ 32 ->
  (forall id1 id2 C1 C2,
     get_tile (run_ops calculate_hash (new r) ops) id1 = Ok (Some C1) ->
     get_tile (run_ops calculate_hash (new r) ops) id2 = Ok (Some C2) ->
     calculate_hash C1 = calculate_hash C2 -> C1 = C2) ->
  (forall id C, get_tile (run_ops calculate_hash (new r) ops) id = Ok (Some C) ->
     Z.of_nat (List.length C) < 2 ^ 32) ->
  finish calculate_hash (run_ops calculate_hash (new r) ops) = Ok res ->
  ((exists C, get_tile (run_ops calculate_hash (new r) ops) k = Ok (Some C)) <->
   (exists e, e ∈ directory res /\
      Directory.tile_id e <= k < Directory.tile_id e + Directory.run_length e)) /\
  (forall e C, e ∈ directory res ->
     Directory.tile_id e <= k < Directory.tile_id e + Directory.run_length e ->
     get_tile (run_ops calculate_hash (new r) ops) k = Ok (Some C) ->
     take (Z.to_nat (Directory.length e)) (drop (Z.to_nat (Directory.offset e)) (fr_data res))
       = C).
Proof.
  remember (run_ops calculate_hash (new r) ops) as m eqn:Hm.
  intros Hu Hsz Hinj Hlen Hf.
  assert (Hd : DedupFacts.data_hashed calculate_hash m).
  { rewrite Hm. apply DedupFacts.run_ops_data_hashed. apply map_Forall_empty. }
  destruct (FinishCover.finish_result calculate_hash m Hd res Hu Hsz Hf)
    as (st & chunks & n' & k' & Hdata & Hdir & Hi & Hc & Hp).
  destruct Hi as (I1 & _ & _ & _ & I5 & I6 & _ & _).
  rewrite Hdata, Hdir. split; [split|].
  - intros [C HC]. destruct (Hp k C HC) as (ol & e & _ & He & Hk & _). eauto.
  - intros (e & He & Hk). destruct (Hc e He k Hk) as (C & HC & _). eauto.
  - intros e C He Hk HC. destruct (Hc e He k Hk) as (C' & HC' & Hol).
    rewrite HC in HC'. injection HC' as <-.
    destruct (I6 _ _ Hol) as (pre & C'' & post & Hch & Hh & Heq).
    assert (HC'' : C'' = C).
    { assert (Hin : C'' ∈ chunks) by (rewrite Hch; apply elem_of_app; right; left).
      rewrite Forall_forall in I5. destruct (I5 C'' Hin) as [id Hid].
      exact (Hinj id k C'' C Hid HC Hh). }
    subst C''. injection Heq as Ho Hl.
    rewrite Ho, Hl. unfold u32. rewrite Z.mod_small by (pose proof (Hlen k C HC); lia).
    rewrite !Nat2Z.id, I1, Hch, concat_app. cbn [concat].
    rewrite drop_app_length, take_app_length. reflexivity.
Qed.

Lemma add_tile_get_tile_witness :
  Forall (fun o => op_tile_id o <> 1 /\ no_clash Archives.byte_length_hash [9] o)
    [AddTile 2 [7; 8]] /\
  get_tile (run_ops Archives.byte_length_hash (new Datatypes.None)
              ([] ++ AddTile 1 [9] :: [AddTile 2 [7; 8]])) 1 = Ok (Some [9]).
Proof.
  assert (H : Forall (fun o => op_tile_id o <> 1 /\ no_clash Archives.byte_length_hash [9] o)
                [AddTile 2 [7; 8]]).
  { constructor; [|constructor]. split; [cbn; lia|].
    intros c D E Hh. injection E as <- <-. vm_compute in Hh. discriminate Hh. }
  split; [exact H|].
  exact (add_tile_get_tile Archives.byte_length_hash (new Datatypes.None) [] [AddTile 2 [7; 8]]
           1 [9] H).
Defined.

Lemma remove_tile_get_tile_other_witness :
  2 <> 1 /\
  get_tile (fst (remove_tile (run_ops Archives.byte_length_hash (new Datatypes.None)
                                Archives.manager_ops) 1)) 2 =
  get_tile (run_ops Archives.byte_length_hash (new Datatypes.None) Archives.manager_ops) 2.
Proof.
  split; [lia|].
  exact (remove_tile_get_tile_other Archives.byte_length_hash Datatypes.None
           Archives.manager_ops 1 2 ltac:(lia)).
Defined.

Lemma finish_num_addressed_witness :
  num_addressed_tiles Archives.manager < 2 ^ 64 /\
  exists res, finish Archives.byte_length_hash Archives.manager = Ok res /\
    fr_num_addressed_tiles res =
      Z.of_nat (List.length (filter (fun k => has_content Archives.manager k = true)
                               (get_tile_ids Archives.manager))).
Proof.
  assert (Hn : num_addressed_tiles Archives.manager < 2 ^ 64) by (vm_compute; reflexivity).
  split; [exact Hn|].
  destruct (finish Archives.byte_length_hash Archives.manager) as [res|e] eqn:Hf;
    [|vm_compute in Hf; discriminate].
  exists res. split; [reflexivity|].
  exact (finish_num_addressed Archives.byte_length_hash Archives.manager res Hn Hf).
Defined.

Lemma tile_id_zoom_block_witness :
  (0 <= 2 <= 31 /\ 0 <= 1 < 2 ^ 2 /\ 0 <= 3 < 2 ^ 2) /\
  TileId.B 2 <= TileId.tile_id 2 1 3 < TileId.B (2 + 1).
Proof.
  split; [lia|].
  exact (tile_id_zoom_block 2 1 3 ltac:(lia) ltac:(lia) ltac:(lia)).
Defined.

Lemma to_writer_unknown_compression_witness :
  PMTilesApi.internal_compression unit Archives2.unknown_archive = Compression.Unknown /\
  PMTilesApi.to_writer_impl unit Archives.byte_length_hash passthrough_codecs
    (fun _ => []) tt 1 Archives2.unknown_archive Cursor.empty =
  match finish Archives.byte_length_hash (PMTilesApi.tile_manager unit Archives2.unknown_archive) with
  | Ok _ => Err UnknownCompression
  | Err e => Err e
  end.
Proof.
  split; [reflexivity|].
  exact (to_writer_unknown_compression unit Archives.byte_length_hash passthrough_codecs
           (fun _ => []) tt 1 Archives2.unknown_archive Cursor.empty eq_refl).
Defined.

(** The tiles [2], [3] and [4] of [Archives.manager] share their bytes
    and form one run; [3] lies inside it. *)
Lemma finish_directory_locates_witness :
  let m := run_ops Archives.byte_length_hash (new Datatypes.None) Archives.manager_ops in
  ids_in_u64 m /\ Z.of_nat (size (tile_by_id m)) < 2 ^ 32 /\
  (forall id1 id2 C1 C2, get_tile m id1 = Ok (Some C1) -> get_tile m id2 = Ok (Some C2) ->
     Archives.byte_length_hash C1 = Archives.byte_length_hash C2 -> C1 = C2) /\
  (forall id C, get_tile m id = Ok (Some C) -> Z.of_nat (List.length C) < 2 ^ 32) /\
  exists res, finish Archives.byte_length_hash m = Ok res /\
  ((exists C, get_tile m 3 = Ok (Some C)) <->
   (exists e, e ∈ directory res /\
      Directory.tile_id e <= 3 < Directory.tile_id e + Directory.run_length e)) /\
  (forall e C, e ∈ directory res ->
     Directory.tile_id e <= 3 < Directory.tile_id e + Directory.run_length e ->
     get_tile m 3 = Ok (Some C) ->
     take (Z.to_nat (Directory.length e)) (drop (Z.to_nat (Directory.offset e)) (fr_data res))
       = C).
Proof.
  cbv zeta.
  set (m := run_ops Archives.byte_length_hash (new Datatypes.None) Archives.manager_ops).
  assert (Hall : forall id C, get_tile m id = Ok (Some C) ->
                   C = [9] \/ C = [7; 8] \/ C = [3; 4; 5]).
  { refine (DedupFacts.get_tile_forall m
              (fun C => C = [9] \/ C = [7; 8] \/ C = [3; 4; 5]) _).
    apply map_Forall_to_list. vm_compute.
    repeat (apply Forall_cons; split; [intros C HC; injection HC as <-; tauto|]).
    apply Forall_nil. exact I. }
  assert (H1 : ids_in_u64 m)
    by (unfold ids_in_u64; apply (bool_decide_eq_true_1 (map_Forall _ _)); vm_compute; reflexivity).
  assert (H2 : Z.of_nat (size (tile_by_id m)) < 2 ^ 32) by (vm_compute; reflexivity).
  assert (H3 : forall id1 id2 C1 C2, get_tile m id1 = Ok (Some C1) -> get_tile m id2 = Ok (Some C2) ->
     Archives.byte_length_hash C1 = Archives.byte_length_hash C2 -> C1 = C2).
  { intros id1 id2 C1 C2 HC1 HC2 Hh.
    destruct (Hall _ _ HC1) as [-> | [-> | ->]];
      destruct (Hall _ _ HC2) as [-> | [-> | ->]];
      try reflexivity; vm_compute in Hh; discriminate. }
  assert (H4 : forall id C, get_tile m id = Ok (Some C) -> Z.of_nat (List.length C) < 2 ^ 32).
  { intros id C HC. destruct (Hall _ _ HC) as [-> | [-> | ->]]; cbn; lia. }
  split; [exact H1|]. split; [exact H2|]. split; [exact H3|]. split; [exact H4|].
  destruct (finish Archives.byte_length_hash m) as [res|e] eqn:Hf;
    [|vm_compute in Hf; discriminate].
  exists res. split; [reflexivity|].
  exact (finish_directory_locates Archives.byte_length_hash Datatypes.None Archives.manager_ops
           res 3 H1 H2 H3 H4 Hf).
Defined.
